(** * Time range and interval computation (rangeutil)

    A shallow embedding of the time-range utilities of the data package
    (describeTextRange, describeTimeRange, isValidTimeSpan,
    convertRawToRange, isFiscal, isRelativeTimeRange, secondsToHms,
    msRangeToTimeString, calculateInterval, describeInterval,
    intervalToSeconds, intervalToMs, roundInterval, timeRangeToRelative,
    relativeToTimeRange), the properties of them that the specification
    states, and further properties that the code shows.

    Conventions of the embedding.
    - A JavaScript string is a [string]: the bytes of its UTF-8 encoding.
      Every character the code searches for or matches is ASCII, and
      UTF-8 is self-synchronising, so "found at index 0", "not found" and
      the two regular expressions behave on the bytes as they do on the
      UTF-16 code units.
    - A JavaScript number is a [number]: NaN, an infinity, or a finite
      value carried as an exact rational.  Arithmetic on finite values is
      exact: the rounding of IEEE-754 doubles is not modelled, and neither
      is the sign of zero.  The properties of the two functions that turn a
      duration into text are stated for whole numbers that a double
      carries exactly, on which the divisions, remainders and roundings
      of the code give the same integers in doubles as in exact
      arithmetic.
    - A DateTime is a valid instant, given by its milliseconds since the
      epoch (the [valueOf()] of the moment object). *)

From Stdlib Require Import ZArith QArith Qminmax Qabs Qcanon Qround Lia Lqa.
From Stdlib Require Import String Ascii List DecimalString DecimalPos.
From stdpp Require Import gmap strings.

Local Open Scope Z_scope.

(** ** JavaScript numbers *)

Module JS.

Inductive number : Type :=
| NaN
| Inf (negative : bool)
| Fin (q : Q).

Definition of_Z (z : Z) : number := Fin (inject_Z z).

Definition Qltb (a b : Q) : bool := negb (Qle_bool b a).

(** [a < b]: false as soon as one side is NaN. *)
Definition lt (a b : number) : bool :=
  match a, b with
  | NaN, _ | _, NaN => false
  | Fin x, Fin y => Qltb x y
  | Inf true, Inf true => false
  | Inf true, _ => true
  | Fin _, Inf negative => negb negative
  | Inf false, _ => false
  end.

(** [a > b] is [b < a]. *)
Definition gt (a b : number) : bool := lt b a.

(** [a <= b]: false as soon as one side is NaN. *)
Definition le (a b : number) : bool :=
  match a, b with
  | NaN, _ | _, NaN => false
  | Fin x, Fin y => Qle_bool x y
  | Inf true, _ => true
  | _, Inf false => true
  | Fin _, Inf true => false
  | Inf false, _ => false
  end.

Definition Qsign_neg (q : Q) : bool := Qltb q 0.

(** [a * b], exact on finite values. *)
Definition mul (a b : number) : number :=
  match a, b with
  | NaN, _ | _, NaN => NaN
  | Fin x, Fin y => Fin (Qred (x * y))
  | Inf s, Inf t => Inf (xorb s t)
  | Inf s, Fin y | Fin y, Inf s =>
      if Qeq_bool y 0 then NaN else Inf (xorb s (Qsign_neg y))
  end.

(** [a / b], exact on finite values; a zero divisor is taken as +0. *)
Definition div (a b : number) : number :=
  match a, b with
  | NaN, _ | _, NaN => NaN
  | Inf _, Inf _ => NaN
  | Inf s, Fin y => Inf (xorb s (Qsign_neg y))
  | Fin _, Inf _ => Fin 0
  | Fin x, Fin y =>
      if Qeq_bool y 0
      then (if Qeq_bool x 0 then NaN else Inf (Qsign_neg x))
      else Fin (Qred (x / y))
  end.

(** The least positive double is 2^-1074; a non-zero real of magnitude at
    most 2^-1075 rounds to zero (ties go to the even significand). *)
Definition underflow : Q := Qpower 2 (-1075).

(** ToBoolean on a number whose finite value has not been rounded yet:
    NaN and the values that round to zero are falsy. *)
Definition truthy (a : number) : bool :=
  match a with
  | NaN => false
  | Inf _ => true
  | Fin q => Qltb underflow (Qabs q)
  end.

End JS.

Abbreviation number := JS.number.

(** ** The quantization ladder *)

Definition lt_ms (interval : number) (t : Z) : bool := JS.lt interval (JS.of_Z t).

Definition roundInterval (interval : number) : Z :=
  if lt_ms interval 10 then 1
  else if lt_ms interval 15 then 10
  else if lt_ms interval 35 then 20
  else if lt_ms interval 75 then 50
  else if lt_ms interval 150 then 100
  else if lt_ms interval 350 then 200
  else if lt_ms interval 750 then 500
  else if lt_ms interval 1500 then 1000
  else if lt_ms interval 3500 then 2000
  else if lt_ms interval 7500 then 5000
  else if lt_ms interval 12500 then 10000
  else if lt_ms interval 17500 then 15000
  else if lt_ms interval 25000 then 20000
  else if lt_ms interval 45000 then 30000
  else if lt_ms interval 90000 then 60000
  else if lt_ms interval 210000 then 120000
  else if lt_ms interval 450000 then 300000
  else if lt_ms interval 750000 then 600000
  else if lt_ms interval 1050000 then 900000
  else if lt_ms interval 1500000 then 1200000
  else if lt_ms interval 2700000 then 1800000
  else if lt_ms interval 5400000 then 3600000
  else if lt_ms interval 9000000 then 7200000
  else if lt_ms interval 16200000 then 10800000
  else if lt_ms interval 32400000 then 21600000
  else if lt_ms interval 86400000 then 43200000
  else if lt_ms interval 604800000 then 86400000
  else if lt_ms interval 1814400000 then 604800000
  else if lt_ms interval 3628800000 then 2592000000
  else 31536000000.

(** The switch of [roundInterval] read as a table: the cases in order,
    each a threshold with the rung returned below it, and the rung of the
    default case. *)
Definition cases : list (Z * Z) :=
  [ (10, 1); (15, 10); (35, 20); (75, 50); (150, 100); (350, 200); (750, 500);
    (1500, 1000); (3500, 2000); (7500, 5000); (12500, 10000); (17500, 15000);
    (25000, 20000); (45000, 30000); (90000, 60000); (210000, 120000);
    (450000, 300000); (750000, 600000); (1050000, 900000); (1500000, 1200000);
    (2700000, 1800000); (5400000, 3600000); (9000000, 7200000);
    (16200000, 10800000); (32400000, 21600000); (86400000, 43200000);
    (604800000, 86400000); (1814400000, 604800000); (3628800000, 2592000000) ].

Definition default_rung : Z := 31536000000.

Fixpoint snap (tbl : list (Z * Z)) (dflt : Z) (interval : number) : Z :=
  match tbl with
  | [] => dflt
  | (t, rung) :: tbl' => if lt_ms interval t then rung else snap tbl' dflt interval
  end.

(** The rungs, in the order of the switch. *)
Definition ladder : list Z := map snd cases ++ [default_rung].

(** The brackets of the table: [(lo, Some hi, rung)] stands for
    "lo <= interval < hi gives rung", [(lo, None, rung)] for
    "lo <= interval gives rung". *)
Fixpoint brackets_from (lo : Z) (tbl : list (Z * Z)) (dflt : Z)
  : list (Z * option Z * Z) :=
  match tbl with
  | [] => [(lo, None, dflt)]
  | (t, rung) :: tbl' => (lo, Some t, rung) :: brackets_from t tbl' dflt
  end.

Definition brackets : list (Z * option Z * Z) := brackets_from 0 cases default_rung.

Definition in_bracket (q : Q) (b : Z * option Z * Z) : Prop :=
  (inject_Z (fst (fst b)) <= q)%Q /\
  match snd (fst b) with
  | Some hi => (q < inject_Z hi)%Q
  | None => True
  end.

(** ** Strings *)

Local Open Scope string_scope.

(** [hay.indexOf(needle)]: the index of the first occurrence, or -1. *)
Fixpoint indexOf_from (i : Z) (needle hay : string) : Z :=
  if String.prefix needle hay then i
  else match hay with
       | EmptyString => -1
       | String _ hay' => indexOf_from (i + 1) needle hay'
       end.

Definition indexOf (hay needle : string) : Z := indexOf_from 0 needle hay.

(** The longest prefix of [s] made of characters of the class [p], and
    what follows it. *)
Fixpoint span_cls (p : ascii -> bool) (s : string) : string * string :=
  match s with
  | String c s' =>
      if p c then (let (a, b) := span_cls p s' in (String c a, b)) else (EmptyString, s)
  | EmptyString => (EmptyString, EmptyString)
  end.

Definition code (c : ascii) : N := N_of_ascii c.

Definition between (lo hi : N) (c : ascii) : bool :=
  ((lo <=? code c) && (code c <=? hi))%N.

(** [\d] *)
Definition is_digit (c : ascii) : bool := between 48 57 c.

(** [\w]: [A-Za-z0-9_] (the expressions carry no unicode or ignore-case flag). *)
Definition is_word (c : ascii) : bool :=
  between 97 122 c || between 65 90 c || is_digit c || (code c =? 95)%N.

Definition digit_value (c : ascii) : Z :=
  if is_digit c then Z.of_N (code c) - 48
  else if between 97 102 c then Z.of_N (code c) - 87
  else if between 65 70 c then Z.of_N (code c) - 55
  else 0.

(** The value of a string of digits in a radix, most significant first. *)
Fixpoint radix_value (radix acc : Z) (s : string) : Z :=
  match s with
  | EmptyString => acc
  | String c s' => radix_value radix (radix * acc + digit_value c) s'
  end.

Definition dec_value (s : string) : Z := radix_value 10 0 s.

(** Strips one white space or line terminator character (StrWhiteSpaceChar),
    in its UTF-8 encoding: TAB, LF, VT, FF, CR, SP, U+00A0, U+1680,
    U+2000..U+200A, U+2028, U+2029, U+202F, U+205F, U+3000, U+FEFF. *)
Definition strip_ws1 (s : string) : option string :=
  match s with
  | String a s1 =>
      if between 9 13 a || (code a =? 32)%N then Some s1
      else match s1 with
           | String b s2 =>
               if (code a =? 194)%N && (code b =? 160)%N then Some s2
               else match s2 with
                    | String c s3 =>
                        let x := code a in let y := code b in let z := code c in
                        if ((x =? 225) && (y =? 154) && (z =? 128)
                            || (x =? 226) && (y =? 128)
                               && (between 128 138 c || (z =? 168) || (z =? 169) || (z =? 175))
                            || (x =? 226) && (y =? 129) && (z =? 159)
                            || (x =? 227) && (y =? 128) && (z =? 128)
                            || (x =? 239) && (y =? 187) && (z =? 191))%N
                        then Some s3 else None
                    | EmptyString => None
                    end
           | EmptyString => None
           end
  | EmptyString => None
  end.

Fixpoint skip_ws_fuel (fuel : nat) (s : string) : string :=
  match fuel with
  | O => s
  | S fuel' => match strip_ws1 s with
               | Some s' => skip_ws_fuel fuel' s'
               | None => s
               end
  end.

(** Drops the leading white space. *)
Definition skip_ws (s : string) : string := skip_ws_fuel (String.length s) s.

Definition is_empty (s : string) : bool :=
  match s with EmptyString => true | _ => false end.

(** Nothing but white space is left. *)
Definition all_ws (s : string) : bool := is_empty (skip_ws s).

(** Strips [p] from the front of [s]. *)
Fixpoint strip_prefix (p s : string) : option string :=
  match p, s with
  | EmptyString, _ => Some s
  | String a p', String b s' => if Ascii.eqb a b then strip_prefix p' s' else None
  | String _ _, EmptyString => None
  end.

(** An optional sign: whether it is "-", and what follows it. *)
Definition read_sign (s : string) : bool * string :=
  match s with
  | String c s' =>
      if Ascii.eqb c "-" then (true, s')
      else if Ascii.eqb c "+" then (false, s')
      else (false, s)
  | EmptyString => (false, s)
  end.

Definition negate_if (negative : bool) (z : Z) : Z := if negative then - z else z.

(** [parseInt(str, 10)]: leading white space, an optional sign, then the
    longest run of decimal digits; [None] stands for NaN.  The integer is
    exact (a double rounds it from 2^53 on). *)
Definition parseInt10 (str : string) : option Z :=
  let (negative, s) := read_sign (skip_ws str) in
  let (ds, _) := span_cls is_digit s in
  if is_empty ds then None else Some (negate_if negative (dec_value ds)).

Definition of_int (n : option Z) : number :=
  match n with
  | Some z => JS.of_Z z
  | None => JS.NaN
  end.

(** The string of an integer-valued number, as [n + ''] gives it (plain
    decimal digits; a double switches to exponent notation from 1e21 on). *)
Definition int_toString (n : option Z) : string :=
  match n with
  | Some z => NilEmpty.string_of_int (Z.to_int z)
  | None => "NaN"
  end.

(** A non-decimal integer literal: the digits of the radix after the
    two-character prefix, up to trailing white space. *)
Definition read_radix (radix : Z) (is_radix_digit : ascii -> bool) (s : string) : number :=
  let (ds, tl) := span_cls is_radix_digit s in
  if negb (is_empty ds) && all_ws tl then JS.of_Z (radix_value radix 0 ds) else JS.NaN.

Definition is_hex (c : ascii) : bool := is_digit c || between 97 102 c || between 65 70 c.

(** The exponent part of a decimal literal, when there is one: its value
    and what follows it; [None] when an "e" is not followed by digits. *)
Definition read_exponent (s : string) : option (Z * string) :=
  match s with
  | String c s' =>
      if Ascii.eqb c "e" || Ascii.eqb c "E" then
        let (negative, s2) := read_sign s' in
        let (ds, tl) := span_cls is_digit s2 in
        if is_empty ds then None else Some (negate_if negative (dec_value ds), tl)
      else Some (0, s)
  | EmptyString => Some (0, s)
  end.

(** The digits after a decimal point, when there is a point, and what
    follows them. *)
Definition read_fraction (s : string) : string * string :=
  match s with
  | String c s' => if Ascii.eqb c "." then span_cls is_digit s' else (EmptyString, s)
  | EmptyString => (EmptyString, s)
  end.

(** [m * 10^e], in lowest terms. *)
Definition scale10 (m e : Z) : Q := Qred (inject_Z m * Qpower (inject_Z 10) e).

(** A decimal literal (StrDecimalLiteral) up to trailing white space. *)
Definition read_decimal (s : string) : number :=
  let (negative, s1) := read_sign s in
  match strip_prefix "Infinity" s1 with
  | Some tl => if all_ws tl then JS.Inf negative else JS.NaN
  | None =>
      let (ip, s2) := span_cls is_digit s1 in
      let (fp, s3) := read_fraction s2 in
      if is_empty ip && is_empty fp then JS.NaN
      else match read_exponent s3 with
           | None => JS.NaN
           | Some (e, tl) =>
               if all_ws tl
               then JS.Fin (scale10 (negate_if negative (dec_value (ip +:+ fp)))
                                    (e - Z.of_nat (String.length fp)))
               else JS.NaN
           end
  end.

(** The prefix of a non-decimal integer literal (0x, 0o, 0b, in either
    case): its radix, its digits, and what follows the prefix. *)
Definition radix_prefix (s : string) : option (Z * (ascii -> bool) * string) :=
  match s with
  | String c (String x s') =>
      if negb (Ascii.eqb c "0") then None
      else if Ascii.eqb x "x" || Ascii.eqb x "X" then Some (16, is_hex, s')
      else if Ascii.eqb x "o" || Ascii.eqb x "O" then Some (8, between 48 55, s')
      else if Ascii.eqb x "b" || Ascii.eqb x "B" then Some (2, between 48 49, s')
      else None
  | _ => None
  end.

(** [Number(str)] (StringToNumber): white space around a numeric literal;
    the empty string is 0, anything that is not a literal is NaN.  The
    finite value is the exact value of the literal. *)
Definition Number (str : string) : number :=
  let s := skip_ws str in
  match s with
  | EmptyString => JS.of_Z 0
  | String _ _ =>
      match radix_prefix s with
      | Some (radix, is_radix_digit, s') => read_radix radix is_radix_digit s'
      | None => read_decimal s
      end
  end.

(** ** Regular expressions

    The fragment of the regular expressions that the code uses, with the
    backtracking order of the language: [run r s] lists the states in
    which a match of [r] started in [s] can end, the preferred one first. *)

Module RegExp.

Inductive regex : Type :=
| Bol                                (* ^ *)
| Cls (p : ascii -> bool)            (* a character of a class *)
| Lit (text : string)                (* literal characters *)
| Seq (a b : regex)                  (* ab *)
| Alt (a b : regex)                  (* a|b *)
| Opt (a : regex)                    (* a? , and (?:a)? *)
| Plus (p : ascii -> bool)           (* [class]+ *)
| Grp (i : nat) (a : regex).         (* the i-th capturing group *)

Record state : Type := mkState {
  pos : nat;                         (* characters consumed so far *)
  rest : string;                     (* the input from [pos] on *)
  caps : list (nat * string)         (* the groups closed so far, latest first *)
}.

Definition advance (n : nat) (tl : string) (s : state) : state :=
  {| pos := pos s + n; rest := tl; caps := caps s |}.

(** The ends of one or more characters of [p], the longest run first. *)
Fixpoint plus_cls (p : ascii -> bool) (n : nat) (input : string) (s : state) : list state :=
  match input with
  | String c tl => if p c then plus_cls p (S n) tl s ++ [advance (S n) tl s] else []
  | EmptyString => []
  end.

Definition close_group (i : nat) (s s' : state) : state :=
  {| pos := pos s'; rest := rest s';
     caps := (i, String.substring 0 (pos s' - pos s) (rest s)) :: caps s' |}.

Fixpoint run (r : regex) (s : state) : list state :=
  match r with
  | Bol => if Nat.eqb (pos s) 0 then [s] else []
  | Cls p => match rest s with
             | String c tl => if p c then [advance 1 tl s] else []
             | EmptyString => []
             end
  | Lit text => match strip_prefix text (rest s) with
                | Some tl => [advance (String.length text) tl s]
                | None => []
                end
  | Seq a b => flat_map (run b) (run a s)
  | Alt a b => run a s ++ run b s
  | Opt a => run a s ++ [s]
  | Plus p => plus_cls p 0 (rest s) s
  | Grp i a => map (close_group i s) (run a s)
  end.

(** The match at the first index where there is one. *)
Fixpoint search (r : regex) (i : nat) (input : string) : option (list (nat * string)) :=
  match run r {| pos := i; rest := input; caps := [] |} with
  | s :: _ => Some (caps s)
  | [] => match input with
          | String _ tl => search r (S i) tl
          | EmptyString => None
          end
  end.

(** [r.exec(str)] and [str.match(r)] for an expression without flags: the
    captures of the leftmost match, or [None] for null. *)
Definition exec (r : regex) (str : string) : option (list (nat * string)) :=
  search r 0 str.

Fixpoint group (i : nat) (m : list (nat * string)) : string :=
  match m with
  | [] => EmptyString
  | (j, text) :: m' => if Nat.eqb i j then text else group i m'
  end.

End RegExp.

Import RegExp.

(** ** Time options and the preset tables *)

Module TimeOption.
Record t : Type := mk {
  from : string;
  to : string;
  display : option string;           (* [None]: the field is not set *)
  section : option Z;
  invalid : bool                     (* [true] when the field is set (to true) *)
}.
End TimeOption.

Record Span : Type := mkSpan {
  span_display : string;
  span_section : option Z
}.

Definition span (display : string) : Span :=
  {| span_display := display; span_section := None |}.

Definition spans : gmap string Span :=
  list_to_map
    [ ("s", span "секунда"); ("m", span "минута"); ("h", span "час");
      ("d", span "ден"); ("w", span "седмица"); ("M", span "месец");
      ("y", span "година") ].

Definition frame (from to display : string) : TimeOption.t :=
  {| TimeOption.from := from; TimeOption.to := to;
     TimeOption.display := Some display;
     TimeOption.section := None; TimeOption.invalid := false |}.

Definition rangeOptions : list TimeOption.t :=
  [ frame "now/d" "now/d" "Днес";
    frame "now/d" "now" "Досега днес";
    frame "now/w" "now/w" "Тази седмица";
    frame "now/w" "now" "Досега тази седмица";
    frame "now/M" "now/M" "Този месец";
    frame "now/M" "now" "Досега този месец";
    frame "now/y" "now/y" "Тази година";
    frame "now/y" "now" "Досега тази година";

    frame "now-1d/d" "now-1d/d" "Вчера";
    frame "now-2d/d" "now-2d/d" "Онзи ден";
    frame "now-7d/d" "now-7d/d" "Този ден предишната седмица";
    frame "now-1w/w" "now-1w/w" "Предишната седмица";
    frame "now-1M/M" "now-1M/M" "Предишният месец";
    frame "now-1Q/fQ" "now-1Q/fQ" "Предишната фискална четвърт";
    frame "now-1y/y" "now-1y/y" "Предишната година";
    frame "now-1y/fy" "now-1y/fy" "Предишната фискална година";

    frame "now-5m" "now" "Последните 5 минути";
    frame "now-15m" "now" "Последните 15 минути";
    frame "now-30m" "now" "Последните 30 минути";
    frame "now-1h" "now" "Последният час";
    frame "now-3h" "now" "Последните 3 часа";
    frame "now-6h" "now" "Последните 6 часа";
    frame "now-12h" "now" "Последните 12 часа";
    frame "now-24h" "now" "Последните 24 часа";
    frame "now-2d" "now" "Последните 2 дни";
    frame "now-7d" "now" "Последните 7 дни";
    frame "now-30d" "now" "Последните 30 дни";
    frame "now-90d" "now" "Последните 90 дни";
    frame "now-6M" "now" "Последните 6 месеца";
    frame "now-1y" "now" "Последната година";
    frame "now-2y" "now" "Последните 2 години";
    frame "now-5y" "now" "Последните 5 години";
    frame "now/fQ" "now" "Досега тази фискална четвърт";
    frame "now/fQ" "now/fQ" "Тази фискална четвърт";
    frame "now/fy" "now" "Досега тази фискална година";
    frame "now/fy" "now/fy" "Тази фискална година" ].

Definition hiddenRangeOptions : list TimeOption.t :=
  [ frame "now" "now+1m" "Следващата минута";
    frame "now" "now+5m" "Следващите 5 минути";
    frame "now" "now+15m" "Следващите 15 минути";
    frame "now" "now+30m" "Next 30 minutes";
    frame "now" "now+1h" "Следващият час";
    frame "now" "now+3h" "Следващите 3 часа";
    frame "now" "now+6h" "Следващите 6 часа";
    frame "now" "now+12h" "Следващите 12 часа";
    frame "now" "now+24h" "Следващите 24 часа";
    frame "now" "now+2d" "Следващите 2 дни";
    frame "now" "now+7d" "Следващите 7 дни";
    frame "now" "now+30d" "Следващите 30 дни";
    frame "now" "now+90d" "Следващите 90 дни";
    frame "now" "now+6M" "Следващите 6 месеца";
    frame "now" "now+1y" "Следващата година";
    frame "now" "now+2y" "Следващите 2 години";
    frame "now" "now+5y" "Следващите 5 години" ].

(** The key of a frame in the index. *)
Definition frame_key (frame : TimeOption.t) : string :=
  TimeOption.from frame +:+ " to " +:+ TimeOption.to frame.

(** [each(frames, (frame) => { index[frame.from + ' to ' + frame.to] = frame })] *)
Definition index_frames (index : gmap string TimeOption.t) (frames : list TimeOption.t)
  : gmap string TimeOption.t :=
  foldl (fun idx frame => <[frame_key frame := frame]> idx) index frames.

Definition rangeIndex : gmap string TimeOption.t :=
  index_frames (index_frames ∅ rangeOptions) hiddenRangeOptions.

(** ** Describing a relative expression *)

(** [[-+]] *)
Definition is_sign (c : ascii) : bool := Ascii.eqb c "-" || Ascii.eqb c "+".

(** [/^now([-+])(\d+)(\w)/] *)
Definition now_regex : regex :=
  Seq Bol
    (Seq (Lit "now")
       (Seq (Grp 1 (Cls is_sign))
          (Seq (Grp 2 (Plus is_digit))
             (Grp 3 (Cls is_word))))).

(** The expression after [describeTextRange] has put "now" in front of an
    expression that lacks it. *)
Definition normalized (expr : string) : string :=
  let isLast := negb (indexOf expr "+" =? 0)%Z in
  if (indexOf expr "now" =? -1)%Z
  then (if isLast then "now-" else "now") +:+ expr
  else expr.

Definition gt_one (amount : option Z) : bool :=
  match amount with
  | Some z => (1 <? z)%Z
  | None => false
  end.

Definition describeTextRange (expr : string) : TimeOption.t :=
  let isLast := negb (indexOf expr "+" =? 0)%Z in
  let expr := if (indexOf expr "now" =? -1)%Z
              then (if isLast then "now-" else "now") +:+ expr
              else expr in
  match rangeIndex !! (expr +:+ " to now") with
  | Some opt => opt
  | None =>
      let opt := if isLast
                 then TimeOption.mk expr "now" None None false
                 else TimeOption.mk "now" expr None None false in
      match exec now_regex expr with
      | Some parts =>
          let unit := group 3 parts in
          let amount := parseInt10 (group 2 parts) in
          match spans !! unit with
          | Some span =>
              TimeOption.mk (TimeOption.from opt) (TimeOption.to opt)
                (Some ((if isLast then "Last " else "Next ")
                       +:+ int_toString amount +:+ " " +:+ span_display span
                       +:+ (if gt_one amount then "s" else EmptyString)))
                (span_section span)
                false
          | None => opt
          end
      | None =>
          TimeOption.mk (TimeOption.from opt) (TimeOption.to opt)
            (Some (TimeOption.from opt +:+ " to " +:+ TimeOption.to opt))
            None
            true
      end
  end.

Definition isValidTimeSpan (value : string) : bool :=
  if (indexOf value "$" =? 0)%Z || (indexOf value "+$" =? 0)%Z then true
  else negb (TimeOption.invalid (describeTextRange value)).

(** ** Interval strings *)

Inductive result (A : Type) : Type :=
| Ok (value : A)
| Throw (message : string).

Arguments Ok {A} value.
Arguments Throw {A} message.

Definition is_unit_char (c : ascii) : bool :=
  existsb (Ascii.eqb c) ["M"; "w"; "d"; "h"; "m"; "s"; "y"]%char.

(** [/(-?\d+(?:\.\d+)?)(ms|[Mwdhmsy])/] *)
Definition interval_regex : regex :=
  Seq (Grp 1 (Seq (Opt (Lit "-"))
                (Seq (Plus is_digit)
                   (Opt (Seq (Lit ".") (Plus is_digit))))))
      (Grp 2 (Alt (Lit "ms") (Cls is_unit_char))).

Definition intervals_in_seconds : list (string * Q) :=
  [ ("y", 31536000); ("M", 2592000); ("w", 604800); ("d", 86400);
    ("h", 3600); ("m", 60); ("s", 1); ("ms", 1 # 1000) ]%Q.

(** [obj[key]] on an object given by its own properties, [None] when
    [has(obj, key)] is false. *)
Fixpoint property {A : Type} (obj : list (string * A)) (key : string) : option A :=
  match obj with
  | [] => None
  | (k, v) :: obj' => if String.eqb k key then Some v else property obj' key
  end.

(** [keys.join(sep)] *)
Fixpoint join (sep : string) (keys : list string) : string :=
  match keys with
  | [] => EmptyString
  | [k] => k
  | k :: keys' => k +:+ sep +:+ join sep keys'
  end.

Definition dquote : string := String (ascii_of_N 34) EmptyString.

Definition invalid_interval_message : string :=
  "Invalid interval string, has to be either unit-less or end with one of the following units: "
  +:+ dquote +:+ join ", " (map fst intervals_in_seconds) +:+ dquote.

Record IntervalSpec : Type := mkIntervalSpec {
  sec : Q;
  type : string;
  count : number
}.

Definition describeInterval (str : string) : result IntervalSpec :=
  if JS.truthy (Number str) then
    Ok {| sec := 1; type := "s"; count := of_int (parseInt10 str) |}
  else
    match exec interval_regex str with
    | None => Throw invalid_interval_message
    | Some matches =>
        match property intervals_in_seconds (group 2 matches) with
        | None => Throw invalid_interval_message
        | Some s =>
            Ok {| sec := s; type := group 2 matches;
                  count := of_int (parseInt10 (group 1 matches)) |}
        end
    end.

Definition intervalToSeconds (str : string) : result number :=
  match describeInterval str with
  | Ok info => Ok (JS.mul (JS.Fin (sec info)) (count info))
  | Throw e => Throw e
  end.

Definition intervalToMs (str : string) : result number :=
  match describeInterval str with
  | Ok info => Ok (JS.mul (JS.mul (JS.Fin (sec info)) (JS.of_Z 1000)) (count info))
  | Throw e => Throw e
  end.

(** ** Ranges *)

Definition DateTime : Type := Z.

Inductive DateTimeInput : Type :=
| Instant (d : DateTime)
| Text (s : string).

Module RawTimeRange.
Record t : Type := mk { from : DateTimeInput; to : DateTimeInput }.
End RawTimeRange.

Module TimeRange.
Record t : Type := mk { from : DateTime; to : DateTime; raw : RawTimeRange.t }.
End TimeRange.

(** A relative range: the offsets of its two ends before now, in whole
    seconds. *)
Module RelativeTimeRange.
Record t : Type := mk { from : Z; to : Z }.
End RelativeTimeRange.

(** The low limit of [calculateInterval]: 1 millisecond unless a
    (non-empty) [lowLimitInterval] is given. *)
Definition lowLimitMs (lowLimitInterval : option string) : result number :=
  match lowLimitInterval with
  | Some (String c s) => intervalToMs (String c s)
  | _ => Ok (JS.of_Z 1)
  end.

(** The [intervalMs] of the IntervalValues that [calculateInterval]
    returns.  Its [interval] label, [secondsToHms(intervalMs / 1000)], is a
    rendering in floating point and is left out. *)
Definition calculateInterval (range : TimeRange.t) (resolution : number)
    (lowLimitInterval : option string) : result number :=
  match lowLimitMs lowLimitInterval with
  | Throw e => Throw e
  | Ok lowLimitMs =>
      let intervalMs :=
        JS.of_Z (roundInterval
                   (JS.div (JS.of_Z (TimeRange.to range - TimeRange.from range)) resolution)) in
      Ok (if JS.gt lowLimitMs intervalMs then lowLimitMs else intervalMs)
  end.

Record DateTimeOptionsWhenParsing : Type := mkOptions {
  roundUp : bool;
  timeZone : option string;
  fiscalYearStartMonth : option Z
}.

Section ConvertRawToRange.

(** The two functions of the date-math collaborator that
    [convertRawToRange] calls. *)
Variable dateTimeParse : DateTimeInput -> DateTimeOptionsWhenParsing -> DateTime.
Variable isMathString : DateTimeInput -> bool.

Definition convertRawToRange (raw : RawTimeRange.t) (timeZone : option string)
    (fiscalYearStartMonth : option Z) : TimeRange.t :=
  let from := dateTimeParse (RawTimeRange.from raw)
                {| roundUp := false; timeZone := timeZone;
                   fiscalYearStartMonth := fiscalYearStartMonth |} in
  let to := dateTimeParse (RawTimeRange.to raw)
              {| roundUp := true; timeZone := timeZone;
                 fiscalYearStartMonth := fiscalYearStartMonth |} in
  if isMathString (RawTimeRange.from raw) || isMathString (RawTimeRange.to raw)
  then TimeRange.mk from to raw
  else TimeRange.mk from to (RawTimeRange.mk (Instant from) (Instant to)).

End ConvertRawToRange.

(** ** Relative ranges *)

(** The two methods of DateTime that the conversions call.  DateTime is
    the moment object behind ./moment_wrapper, which is not among the
    sources; the methods are modelled as the moment library documents them.

    [d.unix()]: the whole seconds since the epoch, [Math.floor(valueOf() / 1000)]. *)
Definition unix (d : DateTime) : Z := d / 1000.

(** [dateTime(d).subtract(n, 's')]: the instant [n] seconds before [d]. *)
Definition subtract_seconds (d : DateTime) (n : Z) : DateTime := d - n * 1000.

Definition timeRangeToRelative (timeRange : TimeRange.t) (now : DateTime)
  : RelativeTimeRange.t :=
  let from := unix now - unix (TimeRange.from timeRange) in
  let to := unix now - unix (TimeRange.to timeRange) in
  RelativeTimeRange.mk from to.

Definition relativeToTimeRange (relativeTimeRange : RelativeTimeRange.t) (now : DateTime)
  : TimeRange.t :=
  let from := subtract_seconds now (RelativeTimeRange.from relativeTimeRange) in
  let to := if (RelativeTimeRange.to relativeTimeRange =? 0)%Z then now
            else subtract_seconds now (RelativeTimeRange.to relativeTimeRange) in
  TimeRange.mk from to (RawTimeRange.mk (Instant from) (Instant to)).


(** ** Describing a raw range *)

Section DescribeTimeRange.

(** The collaborators of [describeTimeRange]: the [toString()] of a
    DateTime, the two formatters, which are given the options
    [{ timeZone }], and [dateMath.parse(text, roundUp, timezone)], which
    gives a moment, valid or not, or undefined ([None]). *)
Variable Parsed : Type.
Variable toString : DateTime -> string.
Variable dateTimeFormat : DateTime -> option string -> string.
Variable dateTimeFormatTimeAgo : Parsed -> option string -> string.
Variable dateMath_parse : string -> bool -> string -> option Parsed.

(** [v.toString()] of a side of a raw range. *)
Definition input_toString (v : DateTimeInput) : string :=
  match v with
  | Instant d => toString d
  | Text s => s
  end.

(** The string that [describeTimeRange] returns; [None] stands for
    undefined, the [display] of a frame that has none. *)
Definition describeTimeRange (range : RawTimeRange.t) (timeZone : option string)
  : option string :=
  match rangeIndex !! (input_toString (RawTimeRange.from range) +:+ " to "
                       +:+ input_toString (RawTimeRange.to range)) with
  | Some option => TimeOption.display option
  | None =>
      match RawTimeRange.from range, RawTimeRange.to range with
      | Instant from, Instant to =>
          Some (dateTimeFormat from timeZone +:+ " to " +:+ dateTimeFormat to timeZone)
      | Instant from, Text to =>
          match dateMath_parse to true "utc" with
          | Some parsed =>
              Some (dateTimeFormat from timeZone +:+ " to "
                    +:+ dateTimeFormatTimeAgo parsed timeZone)
          | None => Some EmptyString
          end
      | Text from, Instant to =>
          match dateMath_parse from false "utc" with
          | Some parsed =>
              Some (dateTimeFormatTimeAgo parsed timeZone +:+ " to "
                    +:+ dateTimeFormat to timeZone)
          | None => Some EmptyString
          end
      | Text from, Text to =>
          if String.eqb to "now" then TimeOption.display (describeTextRange from)
          else Some (from +:+ " to " +:+ to)
      end
  end.

End DescribeTimeRange.

(** ** Relative and fiscal ranges *)

Definition isRelativeTime (v : DateTimeInput) : bool :=
  match v with
  | Text v => (0 <=? indexOf v "now")%Z
  | Instant _ => false
  end.

Definition isFiscal (timeRange : TimeRange.t) : bool :=
  if match RawTimeRange.from (TimeRange.raw timeRange) with
     | Text from => (0 <? indexOf from "f")%Z
     | Instant _ => false
     end
  then true
  else if match RawTimeRange.to (TimeRange.raw timeRange) with
          | Text to => (0 <? indexOf to "f")%Z
          | Instant _ => false
          end
  then true
  else false.

Definition isRelativeTimeRange (raw : RawTimeRange.t) : bool :=
  isRelativeTime (RawTimeRange.from raw) || isRelativeTime (RawTimeRange.to raw).

(** ** Durations as text *)

(** An integer-valued number, as [Math.floor] and [toFixed()] give it. *)
Inductive integral : Type :=
| Int (z : Z)
| NotANumber
| Infinite (negative : bool).

Definition to_number (n : integral) : number :=
  match n with
  | Int z => JS.of_Z z
  | NotANumber => JS.NaN
  | Infinite negative => JS.Inf negative
  end.

(** ToBoolean: NaN and zero are falsy. *)
Definition integral_truthy (n : integral) : bool :=
  match n with
  | Int z => negb (z =? 0)%Z
  | NotANumber => false
  | Infinite _ => true
  end.

(** [n + ''] (plain decimal digits; a double switches to exponent
    notation from 1e21 on). *)
Definition integral_toString (n : integral) : string :=
  match n with
  | Int z => int_toString (Some z)
  | NotANumber => "NaN"
  | Infinite negative => if negative then "-Infinity" else "Infinity"
  end.

(** [a - b] *)
Definition integral_sub (a b : integral) : integral :=
  match a, b with
  | NotANumber, _ | _, NotANumber => NotANumber
  | Int x, Int y => Int (x - y)
  | Infinite s, Infinite t => if Bool.eqb s t then NotANumber else Infinite s
  | Infinite s, Int _ => Infinite s
  | Int _, Infinite t => Infinite (negb t)
  end.

(** [a * b] *)
Definition integral_mul (a b : integral) : integral :=
  match a, b with
  | NotANumber, _ | _, NotANumber => NotANumber
  | Int x, Int y => Int (x * y)
  | Infinite s, Infinite t => Infinite (xorb s t)
  | Infinite s, Int y | Int y, Infinite s =>
      if (y =? 0)%Z then NotANumber else Infinite (xorb s (y <? 0)%Z)
  end.

(** [Math.floor(x)] *)
Definition Math_floor (x : number) : integral :=
  match x with
  | JS.Fin q => Int (Qfloor q)
  | JS.NaN => NotANumber
  | JS.Inf negative => Infinite negative
  end.

(** The integer part of a rational, towards zero. *)
Definition Qtruncate (q : Q) : Z :=
  if JS.Qsign_neg q then Qceiling q else Qfloor q.

(** [a % b]: the remainder of the division truncated towards zero, which
    has the sign of the dividend. *)
Definition rem (a b : number) : number :=
  match a, b with
  | JS.Fin x, JS.Fin y =>
      if Qeq_bool y 0 then JS.NaN
      else JS.Fin (Qred (x - y * inject_Z (Qtruncate (x / y))))
  | JS.Fin x, JS.Inf _ => JS.Fin x
  | _, _ => JS.NaN
  end.

(** [Number(x.toFixed())]: the nearest integer, a half going away from
    zero. *)
Definition toFixed0 (x : number) : integral :=
  match x with
  | JS.Fin q =>
      Int (if JS.Qsign_neg q then - Qfloor (- q + (1 # 2)) else Qfloor (q + (1 # 2)))
  | JS.NaN => NotANumber
  | JS.Inf negative => Infinite negative
  end.

Definition secondsToHms (seconds : number) : string :=
  let numYears := Math_floor (JS.div seconds (JS.of_Z 31536000)) in
  if integral_truthy numYears then integral_toString numYears +:+ "y" else
  let numDays :=
    Math_floor (JS.div (rem seconds (JS.of_Z 31536000)) (JS.of_Z 86400)) in
  if integral_truthy numDays then integral_toString numDays +:+ "d" else
  let numHours :=
    Math_floor (JS.div (rem (rem seconds (JS.of_Z 31536000)) (JS.of_Z 86400))
                       (JS.of_Z 3600)) in
  if integral_truthy numHours then integral_toString numHours +:+ "h" else
  let numMinutes :=
    Math_floor (JS.div (rem (rem (rem seconds (JS.of_Z 31536000)) (JS.of_Z 86400))
                            (JS.of_Z 3600))
                       (JS.of_Z 60)) in
  if integral_truthy numMinutes then integral_toString numMinutes +:+ "m" else
  let numSeconds :=
    Math_floor (rem (rem (rem (rem seconds (JS.of_Z 31536000)) (JS.of_Z 86400))
                         (JS.of_Z 3600))
                    (JS.of_Z 60)) in
  if integral_truthy numSeconds then integral_toString numSeconds +:+ "s" else
  let numMilliseconds := Math_floor (JS.mul seconds (JS.of_Z 1000)) in
  if integral_truthy numMilliseconds then integral_toString numMilliseconds +:+ "ms" else
  "less than a millisecond".

(** ToBoolean of a string: the empty string is falsy. *)
Definition nonempty (s : string) : bool := negb (is_empty s).

Definition msRangeToTimeString (rangeMs : number) : string :=
  let rangeSec := toFixed0 (JS.div rangeMs (JS.of_Z 1000)) in
  let h := Math_floor (JS.div (JS.div (to_number rangeSec) (JS.of_Z 60)) (JS.of_Z 60)) in
  let m := integral_sub (Math_floor (JS.div (to_number rangeSec) (JS.of_Z 60)))
                        (integral_mul h (Int 60)) in
  let s := toFixed0 (rem (to_number rangeSec) (JS.of_Z 60)) in
  let formattedH := if integral_truthy h then integral_toString h +:+ "h" else EmptyString in
  let formattedM := if integral_truthy m then integral_toString m +:+ "min" else EmptyString in
  let formattedS := if integral_truthy s then integral_toString s +:+ "sec" else EmptyString in
  let formattedH := if nonempty formattedH && nonempty formattedM
                    then formattedH +:+ " " else formattedH in
  let formattedM := if (nonempty formattedM || nonempty formattedH) && nonempty formattedS
                    then formattedM +:+ " " else formattedM in
  if nonempty (formattedH +:+ formattedM +:+ formattedS)
  then formattedH +:+ formattedM +:+ formattedS
  else "less than 1sec".

(** ** The values of an interval *)

Module IntervalValues.
Record t : Type := mk { interval : string; intervalMs : number }.
End IntervalValues.

(** [calculateInterval] with both fields of the IntervalValues that it
    returns: [intervalMs], and the [interval] label that [secondsToHms]
    makes of it. *)
Definition calculateIntervalValues (range : TimeRange.t) (resolution : number)
    (lowLimitInterval : option string) : result IntervalValues.t :=
  match lowLimitMs lowLimitInterval with
  | Throw e => Throw e
  | Ok lowLimitMs =>
      let intervalMs :=
        JS.of_Z (roundInterval
                   (JS.div (JS.of_Z (TimeRange.to range - TimeRange.from range)) resolution)) in
      let intervalMs := if JS.gt lowLimitMs intervalMs then lowLimitMs else intervalMs in
      Ok {| IntervalValues.intervalMs := intervalMs;
            IntervalValues.interval := secondsToHms (JS.div intervalMs (JS.of_Z 1000)) |}
  end.

(** ** Vocabulary of the properties *)

(** The rungs of a table never go down. *)
Fixpoint ascending (lo : Z) (tbl : list (Z * Z)) (dflt : Z) : Prop :=
  match tbl with
  | [] => lo <= dflt
  | (_, rung) :: tbl' => lo <= rung /\ ascending rung tbl' dflt
  end.

(** The thresholds of a table go up strictly. *)
Fixpoint increasing (lo : Z) (tbl : list (Z * Z)) : Prop :=
  match tbl with
  | [] => True
  | (t, _) :: tbl' => lo < t /\ increasing t tbl'
  end.

(** What is left of a string after its first [n] characters. *)
Fixpoint drop_chars (n : nat) (s : string) : string :=
  match n, s with
  | S n', String _ s' => drop_chars n' s'
  | _, _ => s
  end.

#[local] Instance TimeOption_eq_dec : EqDecision TimeOption.t.
Proof. solve_decision. Defined.

Definition presets : list TimeOption.t := rangeOptions ++ hiddenRangeOptions.

(** The frames that a key ending in " to now" can reach. *)
Definition to_now (o : TimeOption.t) : bool :=
  bool_decide (TimeOption.to o = "now").

Fixpoint all_cls (p : ascii -> bool) (s : string) : bool :=
  match s with
  | EmptyString => true
  | String c s' => p c && all_cls p s'
  end.

Definition start (i : nat) (input : string) : state :=
  {| pos := i; rest := input; caps := [] |}.

(** The expressions that [now_regex] matches: "now", a sign, digits, a
    word character, and anything after it. *)
Definition now_form (e : string) : Prop :=
  exists (sign : ascii) (ds : string) (w : ascii) (tl : string),
    e = "now" +:+ String sign (ds +:+ String w tl) /\
    is_sign sign = true /\ ds <> EmptyString /\ all_cls is_digit ds = true /\
    is_word w = true.

(** Whether [describeTextRange] reads the expression as a "last" range. *)
Definition isLast (expr : string) : bool := negb (indexOf expr "+" =? 0)%Z.

(** The candidate built when the index has no frame for the expression. *)
Definition candidate (last : bool) (e : string) : TimeOption.t :=
  if last then TimeOption.mk e "now" None None false
  else TimeOption.mk "now" e None None false.

(** What [describeTextRange] does once it has [isLast] and the expression
    with "now" in front. *)
Definition describe_normalized (last : bool) (e : string) : TimeOption.t :=
  match rangeIndex !! (e +:+ " to now") with
  | Some opt => opt
  | None =>
      let opt := candidate last e in
      match exec now_regex e with
      | Some parts =>
          let unit := group 3 parts in
          let amount := parseInt10 (group 2 parts) in
          match spans !! unit with
          | Some span =>
              TimeOption.mk (TimeOption.from opt) (TimeOption.to opt)
                (Some ((if last then "Last " else "Next ")
                       +:+ int_toString amount +:+ " " +:+ span_display span
                       +:+ (if gt_one amount then "s" else EmptyString)))
                (span_section span)
                false
          | None => opt
          end
      | None =>
          TimeOption.mk (TimeOption.from opt) (TimeOption.to opt)
            (Some (TimeOption.from opt +:+ " to " +:+ TimeOption.to opt))
            None
            true
      end
  end.

(** The frames that end at "now" are found under their [from]; the frames
    that start at "now" are not what the forward candidate of their [to]
    becomes; no frame of the hidden table ends at "now". *)
Definition described (o : TimeOption.t) : Prop :=
  (TimeOption.to o = "now" ->
   describeTextRange (TimeOption.from o) = o /\
   rangeIndex !! (TimeOption.from o +:+ " to now") = Some o) /\
  (TimeOption.from o = "now" -> describe_normalized false (TimeOption.to o) <> o).

(** The form that the specification documents for a decomposable
    expression: "now", a sign, an integer and one of the seven units. *)
Definition documented_form (e : string) : Prop :=
  exists (sign : ascii) (ds unit : string),
    e = "now" +:+ String sign (ds +:+ unit) /\
    is_sign sign = true /\ ds <> EmptyString /\ all_cls is_digit ds = true /\
    In unit ["s"; "m"; "h"; "d"; "w"; "M"; "y"].

(** A character that no white space starts with. *)
Definition plain (c : ascii) : bool :=
  (code c <? 128)%N && negb (between 9 13 c) && negb (code c =? 32)%N.

(** Where a run of characters of the class [p] stops. *)
Definition stops (p : ascii -> bool) (tl : string) : Prop :=
  match tl with
  | EmptyString => True
  | String c _ => p c = false
  end.

(** A non-empty string of characters of the class [p]. *)
Definition run_of (p : ascii -> bool) (ds : string) : Prop :=
  ds <> EmptyString /\ all_cls p ds = true.

Definition sign_text (negative : bool) : string :=
  if negative then "-" else EmptyString.

(** The fraction of a magnitude: nothing, or a point and digits. *)
Definition fraction (frac : string) : Prop :=
  frac = EmptyString \/ exists fp, run_of is_digit fp /\ frac = "." +:+ fp.

(** The digits of a fraction. *)
Definition fraction_digits (frac : string) : string :=
  match frac with
  | String _ fp => fp
  | EmptyString => EmptyString
  end.

(** [reach r s m c s']: the match of [r] that is tried first from [s]
    consumes [m], closes the groups [c] and ends in [s']. *)
Definition reach (r : regex) (s : state) (m : string) (c : list (nat * string))
    (s' : state) : Prop :=
  hd_error (run r s) = Some s' /\
  rest s = m +:+ rest s' /\
  pos s' = (pos s + String.length m)%nat /\
  caps s' = (c ++ caps s)%list.

(** The magnitude part of [interval_regex]: [-?\d+(?:\.\d+)?]. *)
Definition magnitude_regex : regex :=
  Seq (Opt (Lit "-")) (Seq (Plus is_digit) (Opt (Seq (Lit ".") (Plus is_digit)))).

(** The unit part of [interval_regex]: [ms|[Mwdhmsy]]. *)
Definition unit_regex : regex := Alt (Lit "ms") (Cls is_unit_char).

(** The form that the specification documents for an interval with a
    unit: a number and one of the units, and nothing else. *)
Definition unit_form (str : string) : Prop :=
  exists (ip frac u : string) (s : Q),
    run_of is_digit ip /\ fraction frac /\ In (u, s) intervals_in_seconds /\
    str = ip +:+ frac +:+ u.

(** A string that holds, somewhere, digits (with a fraction or none)
    followed by a character of [[Mwdhmsy]]. *)
Definition holds_interval (str : string) : Prop :=
  exists (pre ip frac : string) (c : ascii) (suf : string),
    run_of is_digit ip /\ fraction frac /\ is_unit_char c = true /\
    str = pre +:+ ip +:+ frac +:+ String c suf.

(** The display of a unit in the span table. *)
Definition unit_name (unit : string) : string :=
  match spans !! unit with
  | Some span => span_display span
  | None => EmptyString
  end.

(** The display that the decomposition of an expression gives. *)
Definition amount_display (last : bool) (amount : Z) (unit : string) : string :=
  (if last then "Last " else "Next ") +:+ int_toString (Some amount) +:+ " "
  +:+ unit_name unit +:+ (if (1 <? amount)%Z then "s" else EmptyString).

(** The units of the span table. *)
Definition span_units : list string := ["s"; "m"; "h"; "d"; "w"; "M"; "y"].

(** The raw range of a frame of the tables. *)
Definition frame_raw (o : TimeOption.t) : RawTimeRange.t :=
  RawTimeRange.mk (Text (TimeOption.from o)) (Text (TimeOption.to o)).

(** The integers that a double carries exactly (Number.isSafeInteger). *)
Definition safe_integer (n : Z) : Prop :=
  - 9007199254740991 <= n <= 9007199254740991.

(** The fields of a duration that are not zero, each with its unit. *)
Definition time_fields (h m s : Z) : list string :=
  (if (h =? 0)%Z then [] else [int_toString (Some h) +:+ "h"]) ++
  (if (m =? 0)%Z then [] else [int_toString (Some m) +:+ "min"]) ++
  (if (s =? 0)%Z then [] else [int_toString (Some s) +:+ "sec"]).

(** The units of a whole number of seconds, with their seconds. *)
Definition whole_units : list (string * Z) :=
  [ ("y", 31536000); ("M", 2592000); ("w", 604800); ("d", 86400);
    ("h", 3600); ("m", 60); ("s", 1) ].

(** [needle] occurs in [hay]. *)
Definition occurs (needle hay : string) : Prop :=
  exists pre suf : string, hay = pre +:+ needle +:+ suf.

(** The text [s] is a side of the raw range. *)
Definition text_side (raw : RawTimeRange.t) (s : string) : Prop :=
  RawTimeRange.from raw = Text s \/ RawTimeRange.to raw = Text s.

(** The units that [secondsToHms] shows for whole seconds, with their
    seconds. *)
Definition label_units : list (string * Z) :=
  [ ("y", 31536000); ("d", 86400); ("h", 3600); ("m", 60); ("s", 1) ].

(** A character of the ASCII white space: TAB, LF, VT, FF, CR or SP. *)
Definition is_blank (c : ascii) : bool := between 9 13 c || (code c =? 32)%N.

(** A string of ASCII white space, possibly empty. *)
Definition blank (w : string) : Prop := all_cls is_blank w = true.

(** The signs of a number: none, "-" or "+". *)
Definition signs : list string := [EmptyString; "-"; "+"].

(** An integer under a sign. *)
Definition signed (sign : string) (z : Z) : Z :=
  if String.eqb sign "-" then - z else z.

(** The instants of the range of valid dates: at most 8.64e15 ms from the
    epoch. *)
Definition valid_instant (d : DateTime) : Prop :=
  - 8640000000000000 <= d <= 8640000000000000.

(** * Properties *)

(** ** Comparisons of numbers *)

Arguments lt_ms : simpl never.

Lemma Qltb_lt (a b : Q) : JS.Qltb a b = true <-> (a < b)%Q.
Proof.
  unfold JS.Qltb. rewrite negb_true_iff, <- not_true_iff_false, Qle_bool_iff.
  split; [apply Qnot_le_lt | apply Qlt_not_le].
Qed.

Lemma Qltb_ge (a b : Q) : JS.Qltb a b = false <-> (b <= a)%Q.
Proof.
  unfold JS.Qltb. rewrite negb_false_iff. apply Qle_bool_iff.
Qed.

Lemma lt_ms_Fin (q : Q) (t : Z) : lt_ms (JS.Fin q) t = true <-> (q < inject_Z t)%Q.
Proof. apply Qltb_lt. Qed.

Lemma lt_ms_Fin_false (q : Q) (t : Z) : lt_ms (JS.Fin q) t = false <-> (inject_Z t <= q)%Q.
Proof. apply Qltb_ge. Qed.

(** A number not below a threshold stays so when it grows. *)
Lemma lt_ms_le (a b : number) (t : Z) :
  JS.le a b = true -> lt_ms a t = false -> lt_ms b t = false.
Proof.
  unfold lt_ms, JS.of_Z.
  destruct a as [| [] | x], b as [| [] | y]; simpl; try congruence.
  rewrite Qle_bool_iff, !Qltb_ge. intros Hxy Ht. now apply Qle_trans with x.
Qed.

(** ** The ladder *)

Lemma roundInterval_snap (interval : number) :
  roundInterval interval = snap cases default_rung interval.
Proof. reflexivity. Qed.

Lemma snap_in (tbl : list (Z * Z)) (dflt : Z) (x : number) :
  In (snap tbl dflt x) (map snd tbl ++ [dflt]).
Proof.
  induction tbl as [| [t rung] tbl IH]; simpl.
  - now left.
  - destruct (lt_ms x t); [now left | now right].
Qed.

Lemma ascending_weaken (lo lo' : Z) (tbl : list (Z * Z)) (dflt : Z) :
  lo' <= lo -> ascending lo tbl dflt -> ascending lo' tbl dflt.
Proof.
  destruct tbl as [| [t rung] tbl]; simpl; intros; [lia | intuition lia].
Qed.

Lemma snap_lower (tbl : list (Z * Z)) (dflt lo : Z) (x : number) :
  ascending lo tbl dflt -> lo <= snap tbl dflt x.
Proof.
  revert lo. induction tbl as [| [t rung] tbl IH]; simpl; intros lo H.
  - exact H.
  - destruct H as [H1 H2]. destruct (lt_ms x t); [exact H1 |].
    apply IH. now apply ascending_weaken with rung.
Qed.

Lemma snap_monotone (tbl : list (Z * Z)) (dflt lo : Z) (a b : number) :
  ascending lo tbl dflt -> JS.le a b = true ->
  snap tbl dflt a <= snap tbl dflt b.
Proof.
  intros Hasc Hab. revert lo Hasc.
  induction tbl as [| [t rung] tbl IH]; simpl; intros lo Hasc.
  - lia.
  - destruct Hasc as [_ Hasc].
    destruct (lt_ms a t) eqn:Ha.
    + destruct (lt_ms b t); [lia | now apply snap_lower].
    + rewrite (lt_ms_le a b t Hab Ha). now apply IH with rung.
Qed.

Lemma cases_ascending : ascending 1 cases default_rung.
Proof. unfold cases, default_rung; simpl; lia. Qed.

Lemma brackets_from_lo (lo : Z) (tbl : list (Z * Z)) (dflt : Z) (b : Z * option Z * Z) :
  increasing lo tbl -> In b (brackets_from lo tbl dflt) -> lo <= fst (fst b).
Proof.
  revert lo. induction tbl as [| [t rung] tbl IH]; simpl; intros lo Hinc Hb.
  - destruct Hb as [<- | []]. simpl. lia.
  - destruct Hinc as [Hlt Hinc]. destruct Hb as [<- | Hb]; simpl; [lia |].
    specialize (IH t Hinc Hb). lia.
Qed.

Lemma snap_bracket (lo : Z) (tbl : list (Z * Z)) (dflt : Z) (q : Q) (b : Z * option Z * Z) :
  increasing lo tbl -> In b (brackets_from lo tbl dflt) -> in_bracket q b ->
  snap tbl dflt (JS.Fin q) = snd b.
Proof.
  revert lo. induction tbl as [| [t rung] tbl IH]; simpl; intros lo Hinc Hb Hq.
  - now destruct Hb as [<- | []].
  - destruct Hinc as [Hlt Hinc]. destruct Hb as [<- | Hb].
    + destruct Hq as [_ Hq]. simpl in Hq. apply lt_ms_Fin in Hq. now rewrite Hq.
    + assert (Ht : lt_ms (JS.Fin q) t = false).
      { apply lt_ms_Fin_false. destruct Hq as [Hq _].
        apply Qle_trans with (inject_Z (fst (fst b))); [| exact Hq].
        rewrite <- Zle_Qle. now apply brackets_from_lo with tbl dflt. }
      rewrite Ht. now apply IH with t.
Qed.

Lemma bracket_exists (lo : Z) (tbl : list (Z * Z)) (dflt : Z) (q : Q) :
  (inject_Z lo <= q)%Q -> exists b, In b (brackets_from lo tbl dflt) /\ in_bracket q b.
Proof.
  revert lo. induction tbl as [| [t rung] tbl IH]; simpl; intros lo Hlo.
  - exists (lo, None, dflt). split; [now left | now split].
  - destruct (Qlt_le_dec q (inject_Z t)) as [Hlt | Hge].
    + exists (lo, Some t, rung). split; [now left | now split].
    + destruct (IH t Hge) as (b & Hb & Hq). exists b. split; [now right | exact Hq].
Qed.

Lemma cases_increasing : increasing 0 cases.
Proof. unfold cases; simpl; lia. Qed.

(** The switch, bracket by bracket. *)
Example brackets_listed :
  brackets =
  [ (0, Some 10, 1); (10, Some 15, 10); (15, Some 35, 20); (35, Some 75, 50);
    (75, Some 150, 100); (150, Some 350, 200); (350, Some 750, 500);
    (750, Some 1500, 1000); (1500, Some 3500, 2000); (3500, Some 7500, 5000);
    (7500, Some 12500, 10000); (12500, Some 17500, 15000);
    (17500, Some 25000, 20000); (25000, Some 45000, 30000);
    (45000, Some 90000, 60000); (90000, Some 210000, 120000);
    (210000, Some 450000, 300000); (450000, Some 750000, 600000);
    (750000, Some 1050000, 900000); (1050000, Some 1500000, 1200000);
    (1500000, Some 2700000, 1800000); (2700000, Some 5400000, 3600000);
    (5400000, Some 9000000, 7200000); (9000000, Some 16200000, 10800000);
    (16200000, Some 32400000, 21600000); (32400000, Some 86400000, 43200000);
    (86400000, Some 604800000, 86400000); (604800000, Some 1814400000, 604800000);
    (1814400000, Some 3628800000, 2592000000); (3628800000, None, 31536000000) ].
Proof. reflexivity. Qed.

Lemma roundInterval_in_ladder (x : number) : In (roundInterval x) ladder.
Proof. rewrite roundInterval_snap. apply snap_in. Qed.

(** Every rung is returned for itself. *)
Lemma roundInterval_rung (v : Z) : In v ladder -> roundInterval (JS.of_Z v) = v.
Proof.
  unfold ladder, cases, default_rung. simpl.
  intros H. repeat (destruct H as [<- | H]; [reflexivity |]). destruct H.
Qed.

Lemma ladder_NoDup : List.NoDup ladder.
Proof.
  apply NoDup_ListNoDup. apply (bool_decide_unpack (NoDup ladder)). vm_compute. exact I.
Qed.

(** C1, as the specification states it, fails at 14999: the value lies in
    the bracket from 12500 to 17500, whose rung is 15000, not 10000. *)
Lemma roundInterval_14999_not_10000 : roundInterval (JS.of_Z 14999) <> 10000.
Proof. vm_compute. discriminate. Qed.

(** C1 (amended): every non-negative finite input lies in a bracket of the
    switch and [roundInterval] returns the rung of that bracket; at the
    boundaries, roundInterval(9) = 1, roundInterval(10) = 10,
    roundInterval(12499) = 10000, roundInterval(12500) = 15000,
    roundInterval(14999) = 15000 and roundInterval(15000) = 15000. *)
Theorem roundInterval_brackets :
  (forall q : Q, (0 <= q)%Q -> exists b, In b brackets /\ in_bracket q b) /\
  (forall (q : Q) (b : Z * option Z * Z),
      In b brackets -> in_bracket q b -> roundInterval (JS.Fin q) = snd b) /\
  roundInterval (JS.of_Z 9) = 1 /\
  roundInterval (JS.of_Z 10) = 10 /\
  roundInterval (JS.of_Z 12499) = 10000 /\
  roundInterval (JS.of_Z 12500) = 15000 /\
  roundInterval (JS.of_Z 14999) = 15000 /\
  roundInterval (JS.of_Z 15000) = 15000.
Proof.
  split; [| split].
  - intros q Hq. now apply bracket_exists.
  - intros q b Hb Hq. rewrite roundInterval_snap.
    apply snap_bracket with 0; [apply cases_increasing | exact Hb | exact Hq].
  - repeat split; reflexivity.
Qed.

Lemma roundInterval_brackets_witness :
  roundInterval (JS.Fin (24999 # 2)) = 10000.
Proof.
  apply (proj1 (proj2 roundInterval_brackets) (24999 # 2)%Q (7500, Some 12500, 10000)).
  - unfold brackets, cases; simpl; tauto.
  - split; simpl; reflexivity || discriminate.
Defined.

(** C9, as the specification states it, fails on the count: no list of 29
    values holds every result of [roundInterval]. *)
Lemma roundInterval_not_29_values :
  ~ exists l : list Z, length l = 29%nat /\ forall x, In (roundInterval x) l.
Proof.
  intros (l & Hlen & Hl).
  assert (Hincl : incl ladder l).
  { intros v Hv. rewrite <- (roundInterval_rung v Hv). apply Hl. }
  pose proof (NoDup_incl_length ladder_NoDup Hincl) as Hle.
  rewrite Hlen in Hle. vm_compute in Hle. lia.
Qed.

(** C9 (amended): [roundInterval] is monotone, and its result is always
    one of the 30 rungs of the ladder, which are distinct, all reached, and
    run from 1 ms to 31536000000 ms; NaN and the infinities included, and
    negative inputs give 1. *)
Theorem roundInterval_monotone_ladder :
  (forall a b : number, JS.le a b = true -> roundInterval a <= roundInterval b) /\
  (forall x : number, In (roundInterval x) ladder) /\
  length ladder = 30%nat /\
  List.NoDup ladder /\
  (forall v : Z, In v ladder -> exists x : number, roundInterval x = v) /\
  (forall v : Z, In v ladder -> 1 <= v <= 31536000000) /\
  In 1 ladder /\ In 31536000000 ladder /\
  (forall x : number, JS.lt x (JS.of_Z 0) = true -> roundInterval x = 1).
Proof.
  repeat split.
  - intros a b Hab. rewrite !roundInterval_snap.
    apply snap_monotone with 1; [apply cases_ascending | exact Hab].
  - apply roundInterval_in_ladder.
  - apply ladder_NoDup.
  - intros v Hv. exists (JS.of_Z v). now apply roundInterval_rung.
  - revert H. unfold ladder, cases, default_rung. simpl.
    intros H. repeat (destruct H as [<- | H]; [lia |]). destruct H.
  - revert H. unfold ladder, cases, default_rung. simpl.
    intros H. repeat (destruct H as [<- | H]; [lia |]). destruct H.
  - unfold ladder, cases; simpl; tauto.
  - unfold ladder, cases, default_rung. apply in_or_app. right. now left.
  - intros x Hx. unfold roundInterval.
    assert (H10 : lt_ms x 10 = true); [| now rewrite H10].
    destruct x as [| [] | q]; simpl in *; try discriminate; try reflexivity.
    unfold lt_ms, JS.of_Z. simpl. apply Qltb_lt. apply Qltb_lt in Hx.
    apply Qlt_trans with (inject_Z 0); [exact Hx | reflexivity].
Qed.

Lemma roundInterval_monotone_ladder_witness :
  roundInterval (JS.Fin (-3)) <= roundInterval (JS.Inf false).
Proof.
  apply (proj1 roundInterval_monotone_ladder). reflexivity.
Defined.

(** ** The interval of a range *)

Lemma Qltb_compare (a b : Q) : JS.Qltb a b = true <-> (a ?= b)%Q = Lt.
Proof. rewrite Qltb_lt. apply Qlt_alt. Qed.

Lemma Qmax_if (a b : Q) : Qmax a b = if JS.Qltb a b then b else a.
Proof.
  unfold Qmax, GenericMinMax.gmax.
  destruct (JS.Qltb a b) eqn:E.
  - apply Qltb_compare in E. now rewrite E.
  - destruct (a ?= b)%Q eqn:C; try reflexivity.
    apply Qltb_compare in C. congruence.
Qed.

(** The count of an interval is what [parseInt] gave. *)
Lemma describeInterval_count (str : string) (info : IntervalSpec) :
  describeInterval str = Ok info -> exists n : option Z, count info = of_int n.
Proof.
  unfold describeInterval.
  destruct (JS.truthy (Number str)).
  - intros [= <-]. now eexists.
  - destruct (exec interval_regex str) as [matches |]; [| discriminate].
    destruct (property intervals_in_seconds (group 2 matches)); [| discriminate].
    intros [= <-]. now eexists.
Qed.

(** In the exact arithmetic of the embedding the low limit is a finite
    number or NaN (the count of a string such as "Infinity" or ".5") and
    never an infinity; in doubles a magnitude of more than 308 digits gives
    one. *)
Lemma lowLimitMs_finite (lowLimitInterval : option string) (negative : bool) :
  lowLimitMs lowLimitInterval <> Ok (JS.Inf negative).
Proof.
  destruct lowLimitInterval as [[| c s] |]; simpl; try discriminate.
  unfold intervalToMs.
  destruct (describeInterval (String c s)) as [info | e] eqn:E; [| discriminate].
  destruct (describeInterval_count _ _ E) as [[z |] ->]; simpl; discriminate.
Qed.

Lemma roundInterval_positive (x : number) : 1 <= roundInterval x.
Proof. rewrite roundInterval_snap. apply snap_lower, cases_ascending. Qed.

Lemma Qltb_inject_Z (a b : Z) : JS.Qltb (inject_Z a) (inject_Z b) = (a <? b)%Z.
Proof.
  destruct (Z.ltb_spec a b) as [H | H].
  - apply Qltb_lt. now rewrite <- Zlt_Qlt.
  - apply Qltb_ge. now rewrite <- Zle_Qle.
Qed.

Lemma gt_of_Z (a b : Z) : JS.gt (JS.of_Z a) (JS.of_Z b) = (b <? a)%Z.
Proof. unfold JS.gt, JS.lt, JS.of_Z. apply Qltb_inject_Z. Qed.



(** A range of one hour at resolution 100: the step of 36000 ms is
    rounded to 30 s; a low limit of one minute wins over it, a low limit of
    one second does not. *)
Example calculateInterval_hour (t0 : Z) (raw : RawTimeRange.t) :
  let range := TimeRange.mk t0 (t0 + 3600000) raw in
  calculateInterval range (JS.of_Z 100) None = Ok (JS.of_Z 30000) /\
  calculateInterval range (JS.of_Z 100) (Some "1m") = Ok (JS.of_Z 60000) /\
  calculateInterval range (JS.of_Z 100) (Some "1s") = Ok (JS.of_Z 30000) /\
  calculateInterval range (JS.of_Z 100) (Some "1 minute") = Throw invalid_interval_message.
Proof.
  cbv zeta. unfold calculateInterval. simpl TimeRange.to. simpl TimeRange.from.
  replace (t0 + 3600000 - t0) with 3600000 by lia.
  repeat split; vm_compute; reflexivity.
Qed.

(** ** Raw ranges *)

(** C8: [convertRawToRange] parses raw.from with roundUp = false and raw.to
    with roundUp = true (same time zone and fiscal year start for both);
    the raw field of the result is the raw pair itself when one side is a
    date-math string, and the pair of the two parsed instants when neither
    side is. *)
Theorem convertRawToRange_rounding_and_raw
    (dateTimeParse : DateTimeInput -> DateTimeOptionsWhenParsing -> DateTime)
    (isMathString : DateTimeInput -> bool)
    (raw : RawTimeRange.t) (tz : option string) (fy : option Z) :
  let range := convertRawToRange dateTimeParse isMathString raw tz fy in
  TimeRange.from range = dateTimeParse (RawTimeRange.from raw) (mkOptions false tz fy) /\
  TimeRange.to range = dateTimeParse (RawTimeRange.to raw) (mkOptions true tz fy) /\
  (isMathString (RawTimeRange.from raw) = true \/ isMathString (RawTimeRange.to raw) = true ->
   TimeRange.raw range = raw) /\
  (isMathString (RawTimeRange.from raw) = false /\ isMathString (RawTimeRange.to raw) = false ->
   TimeRange.raw range
   = RawTimeRange.mk (Instant (TimeRange.from range)) (Instant (TimeRange.to range))).
Proof.
  unfold convertRawToRange. cbv zeta.
  destruct (isMathString (RawTimeRange.from raw)), (isMathString (RawTimeRange.to raw));
    simpl; repeat split; try reflexivity; intros H; try reflexivity;
    destruct H; discriminate.
Qed.

Lemma convertRawToRange_rounding_and_raw_witness :
  let parse := fun (v : DateTimeInput) (o : DateTimeOptionsWhenParsing) =>
                 match v with
                 | Instant d => d
                 | Text _ => if roundUp o then 86399999 else 0
                 end in
  let isMath := fun v : DateTimeInput =>
                  match v with
                  | Instant _ => false
                  | Text s => negb (indexOf s "now" =? -1)%Z
                  end in
  let raw := RawTimeRange.mk (Text "now/d") (Text "now/d") in
  let frozen := RawTimeRange.mk (Instant 5) (Instant 9) in
  TimeRange.raw (convertRawToRange parse isMath raw None None) = raw /\
  TimeRange.raw (convertRawToRange parse isMath frozen None None) = frozen.
Proof.
  intros parse isMath raw frozen. split.
  - apply (convertRawToRange_rounding_and_raw parse isMath raw None None).
    left. reflexivity.
  - apply (convertRawToRange_rounding_and_raw parse isMath frozen None None).
    split; reflexivity.
Defined.

(** ** Relative ranges *)

(** C3, as the specification states it, fails at millisecond resolution:
    the relative range counts whole seconds, so the instant 1.500 s seen
    from 2.000 s comes back as 1.000 s. *)
Lemma relative_roundtrip_not_exact :
  let R := TimeRange.mk 1500 1500 (RawTimeRange.mk (Instant 1500) (Instant 1500)) in
  TimeRange.from (relativeToTimeRange (timeRangeToRelative R 2000) 2000)
  <> TimeRange.from R.
Proof. vm_compute. discriminate. Qed.

Lemma unix_roundtrip (d now : DateTime) :
  let d' := subtract_seconds now (unix now - unix d) in
  unix d' = unix d /\ (d' = d <-> d mod 1000 = now mod 1000).
Proof.
  unfold subtract_seconds, unix. cbv zeta.
  pose proof (Z.div_mod d 1000). pose proof (Z.div_mod now 1000).
  pose proof (Z.mod_pos_bound d 1000). pose proof (Z.mod_pos_bound now 1000).
  split.
  - symmetry. apply (Z.div_unique _ 1000 _ (now mod 1000)); lia.
  - lia.
Qed.

(** C3 (amended): the round trip through the relative range at a fixed
    reference instant T reproduces the whole seconds of R's from and to,
    and the instants themselves exactly when their millisecond part is that
    of T (as when all three are whole seconds); a relative to of 0 gives
    exactly T. *)
Theorem relative_roundtrip (R : TimeRange.t) (T : DateTime) :
  let R' := relativeToTimeRange (timeRangeToRelative R T) T in
  unix (TimeRange.from R') = unix (TimeRange.from R) /\
  unix (TimeRange.to R') = unix (TimeRange.to R) /\
  (TimeRange.from R' = TimeRange.from R <-> TimeRange.from R mod 1000 = T mod 1000) /\
  (TimeRange.to R' = TimeRange.to R <-> TimeRange.to R mod 1000 = T mod 1000) /\
  (forall relative : RelativeTimeRange.t,
      RelativeTimeRange.to relative = 0 ->
      TimeRange.to (relativeToTimeRange relative T) = T).
Proof.
  cbv zeta. unfold relativeToTimeRange, timeRangeToRelative. simpl.
  assert (Hto : (if (unix T - unix (TimeRange.to R) =? 0)%Z then T
                 else subtract_seconds T (unix T - unix (TimeRange.to R)))
                = subtract_seconds T (unix T - unix (TimeRange.to R))).
  { destruct (Z.eqb_spec (unix T - unix (TimeRange.to R)) 0) as [E | _]; [| reflexivity].
    rewrite E. unfold subtract_seconds. lia. }
  rewrite Hto.
  destruct (unix_roundtrip (TimeRange.from R) T) as [Hf1 Hf2].
  destruct (unix_roundtrip (TimeRange.to R) T) as [Ht1 Ht2].
  repeat split; try assumption; try apply Hf2; try apply Ht2.
  intros relative ->. reflexivity.
Qed.

Lemma relative_roundtrip_witness :
  let R := TimeRange.mk 61250 3250 (RawTimeRange.mk (Instant 61250) (Text "now")) in
  TimeRange.from (relativeToTimeRange (timeRangeToRelative R 7250) 7250) = 61250 /\
  TimeRange.to (relativeToTimeRange (RelativeTimeRange.mk 300 0) 7250) = 7250.
Proof.
  intros R. destruct (relative_roundtrip R 7250) as (_ & _ & Hfrom & _ & Hnow).
  split.
  - apply Hfrom. reflexivity.
  - apply Hnow. reflexivity.
Defined.

(** ** Strings *)

Lemma append_nil (b : string) : EmptyString +:+ b = b.
Proof. reflexivity. Qed.

Lemma append_cons (x : ascii) (a b : string) : String x a +:+ b = String x (a +:+ b).
Proof. reflexivity. Qed.

Ltac app_simpl := rewrite ?append_cons, ?append_nil in *; simpl in *.

Lemma append_assoc (a b c : string) : (a +:+ b) +:+ c = a +:+ b +:+ c.
Proof. induction a as [| x a IH]; app_simpl; [reflexivity | now rewrite IH]. Qed.

Lemma append_empty_r (a : string) : a +:+ EmptyString = a.
Proof. induction a as [| x a IH]; app_simpl; [reflexivity | now rewrite IH]. Qed.

Lemma length_append (a b : string) :
  String.length (a +:+ b) = (String.length a + String.length b)%nat.
Proof. induction a as [| x a IH]; app_simpl; [reflexivity | now rewrite IH]. Qed.

Lemma substring_append (a b : string) : String.substring 0 (String.length a) (a +:+ b) = a.
Proof.
  induction a as [| x a IH]; app_simpl.
  - now destruct b.
  - now rewrite IH.
Qed.

Lemma drop_chars_append (a b : string) : drop_chars (String.length a) (a +:+ b) = b.
Proof.
  induction a as [| x a IH]; app_simpl; [| exact IH]. now destruct b.
Qed.

(** A string that ends with [b] splits at [length - length b]. *)
Lemma append_split (k a b : string) :
  k = a +:+ b ->
  a = String.substring 0 (String.length k - String.length b) k /\
  b = drop_chars (String.length k - String.length b) k.
Proof.
  intros ->. rewrite length_append.
  replace (String.length a + String.length b - String.length b)%nat
    with (String.length a) by lia.
  now rewrite substring_append, drop_chars_append.
Qed.

Lemma strip_prefix_Some (p s tl : string) : strip_prefix p s = Some tl <-> s = p +:+ tl.
Proof.
  revert s. induction p as [| a p IH]; intros s; app_simpl.
  - split; [now intros [= ->] | now intros ->].
  - destruct s as [| b s]; [split; discriminate |].
    destruct (Ascii.eqb_spec a b) as [-> | Hne].
    + rewrite IH. split; [now intros -> | now intros [= ->]].
    + split; [discriminate | intros [= E _]; congruence].
Qed.

Lemma indexOf_from_range (i : Z) (needle hay : string) :
  indexOf_from i needle hay = -1 \/ i <= indexOf_from i needle hay.
Proof.
  revert i. induction hay as [| c hay IH]; intros i; cbn [indexOf_from].
  - destruct needle; simpl; [right; lia | now left].
  - destruct (String.prefix needle (String c hay)); [right; lia |].
    destruct (IH (i + 1)) as [-> | H]; [now left | right; lia].
Qed.

(** [hay.indexOf(needle) === 0] says that [hay] starts with [needle]. *)
Lemma indexOf_zero (hay needle : string) :
  (indexOf hay needle =? 0)%Z = String.prefix needle hay.
Proof.
  unfold indexOf. destruct hay as [| c hay]; cbn [indexOf_from].
  - now destruct needle.
  - destruct (String.prefix needle (String c hay)); [reflexivity |].
    destruct (indexOf_from_range (0 + 1) needle hay) as [-> | H]; [reflexivity |].
    apply Z.eqb_neq. lia.
Qed.

(** ** The preset index *)

Lemma index_frames_lookup (idx : gmap string TimeOption.t) (frames : list TimeOption.t)
    (k : string) (o : TimeOption.t) :
  index_frames idx frames !! k = Some o ->
  idx !! k = Some o \/ (In o frames /\ frame_key o = k).
Proof.
  unfold index_frames. revert idx.
  induction frames as [| x frames IH]; simpl; intros idx H.
  - now left.
  - destruct (IH _ H) as [H' | [Hin Hk]].
    + apply lookup_insert_Some in H'. destruct H' as [[Hk <-] | [_ H']].
      * right. split; [now left | exact Hk].
      * now left.
    + right. split; [now right | exact Hk].
Qed.

(** Whatever the index holds under a key is a frame of the tables, filed
    under its own key. *)
Lemma rangeIndex_lookup (k : string) (o : TimeOption.t) :
  rangeIndex !! k = Some o -> In o presets /\ frame_key o = k.
Proof.
  unfold rangeIndex, presets. intros H.
  apply index_frames_lookup in H. destruct H as [H | [Hin Hk]].
  - apply index_frames_lookup in H. destruct H as [H | [Hin Hk]].
    + now rewrite lookup_empty in H.
    + split; [apply in_or_app; now left | exact Hk].
  - split; [apply in_or_app; now right | exact Hk].
Qed.

Lemma presets_to_now :
  forallb (fun o =>
             let k := frame_key o in
             let n := (String.length k - String.length " to now")%nat in
             if bool_decide (drop_chars n k = " to now")
             then bool_decide (In o rangeOptions) && to_now o
                  && bool_decide (String.substring 0 n k = TimeOption.from o)
             else true) presets = true.
Proof. vm_compute. reflexivity. Qed.

Lemma rangeIndex_to_now (e : string) (o : TimeOption.t) :
  rangeIndex !! (e +:+ " to now") = Some o ->
  In o rangeOptions /\ TimeOption.from o = e /\ TimeOption.to o = "now".
Proof.
  intros H. apply rangeIndex_lookup in H. destruct H as [Hin Hk].
  pose proof presets_to_now as Hall. rewrite forallb_forall in Hall.
  specialize (Hall o Hin). cbv zeta in Hall.
  apply (append_split (frame_key o) e " to now") in Hk. destruct Hk as [He Hs].
  rewrite <- Hs, <- He in Hall. rewrite bool_decide_eq_true_2 in Hall by reflexivity.
  apply andb_prop in Hall. destruct Hall as [Hall H3].
  apply andb_prop in Hall. destruct Hall as [H1 H2].
  apply bool_decide_eq_true in H1, H2, H3. auto.
Qed.

(** ** Matching *)

Lemma in_run_Seq (a b : regex) (s s' : state) :
  In s' (run (Seq a b) s) <-> exists m, In m (run a s) /\ In s' (run b m).
Proof. simpl. apply in_flat_map. Qed.

Lemma in_run_Grp (i : nat) (a : regex) (s s' : state) :
  In s' (run (Grp i a) s) <-> exists m, In m (run a s) /\ s' = close_group i s m.
Proof.
  simpl. rewrite in_map_iff. split; intros (m & H1 & H2); exists m; auto.
Qed.

Lemma in_run_Bol (s s' : state) : In s' (run Bol s) <-> pos s = 0%nat /\ s' = s.
Proof.
  simpl. destruct (Nat.eqb_spec (pos s) 0) as [E | E]; simpl.
  - split; [intros [<- | []]; auto | intros [_ ->]; now left].
  - split; [intros [] | intros [E' _]; contradiction].
Qed.

Lemma in_run_Lit (text : string) (s s' : state) :
  In s' (run (Lit text) s) <->
  exists tl, rest s = text +:+ tl /\ s' = advance (String.length text) tl s.
Proof.
  simpl. destruct (strip_prefix text (rest s)) as [tl |] eqn:E.
  - apply strip_prefix_Some in E. split.
    + intros [<- | []]. now exists tl.
    + intros (tl' & H & ->). rewrite E in H. apply String.app_inj in H. subst. now left.
  - split; [intros [] |]. intros (tl & H & _).
    apply strip_prefix_Some in H. congruence.
Qed.

Lemma in_run_Cls (p : ascii -> bool) (s s' : state) :
  In s' (run (Cls p) s) <->
  exists c tl, rest s = String c tl /\ p c = true /\ s' = advance 1 tl s.
Proof.
  simpl. destruct (rest s) as [| c tl].
  - split; [intros [] | intros (c & tl & H & _); discriminate].
  - destruct (p c) eqn:E.
    + split.
      * intros [<- | []]. now exists c, tl.
      * intros (c' & tl' & [= <- <-] & _ & ->). now left.
    + split; [intros [] | intros (c' & tl' & [= <- <-] & H & _); congruence].
Qed.

Lemma in_plus_cls (p : ascii -> bool) (n : nat) (input : string) (s s' : state) :
  In s' (plus_cls p n input s) <->
  exists ds tl, input = ds +:+ tl /\ ds <> EmptyString /\ all_cls p ds = true /\
                s' = advance (n + String.length ds) tl s.
Proof.
  revert n. induction input as [| c input IH]; intros n; simpl.
  - split; [intros [] |]. intros (ds & tl & H & Hne & _).
    destruct ds; [congruence | discriminate].
  - destruct (p c) eqn:E.
    + rewrite in_app_iff, IH. split.
      * intros [(ds & tl & -> & Hne & Hall & ->) | [<- | []]].
        -- exists (String c ds), tl. simpl. rewrite E, Hall.
           repeat split; [discriminate | f_equal; lia].
        -- exists (String c EmptyString), input. simpl. rewrite E.
           repeat split; [discriminate | f_equal; lia].
      * intros (ds & tl & H & Hne & Hall & ->).
        destruct ds as [| d ds]; [congruence |].
        rewrite append_cons in H. injection H as <- ->.
        simpl in Hall. apply andb_prop in Hall. destruct Hall as [_ Hall].
        destruct ds as [| d' ds].
        -- right. left. rewrite append_nil. f_equal. simpl. lia.
        -- left. exists (String d' ds), tl.
           repeat split; [discriminate | exact Hall | f_equal; simpl; lia].
    + split; [intros [] |]. intros (ds & tl & H & Hne & Hall & _).
      destruct ds as [| d ds]; [congruence |].
      rewrite append_cons in H. injection H as <- ->.
      simpl in Hall. rewrite E in Hall. discriminate.
Qed.

Lemma in_run_Plus (p : ascii -> bool) (s s' : state) :
  In s' (run (Plus p) s) <->
  exists ds tl, rest s = ds +:+ tl /\ ds <> EmptyString /\ all_cls p ds = true /\
                s' = advance (String.length ds) tl s.
Proof. simpl. apply in_plus_cls. Qed.

Lemma nonempty_in {A : Type} (l : list A) : l <> [] <-> exists x, In x l.
Proof.
  destruct l as [| x l]; split; try congruence.
  - intros [x []].
  - intros _. exists x. now left.
Qed.

(** An expression that starts with [^] matches at index 0 or nowhere. *)
Lemma search_Bol (r : regex) (i : nat) (input : string) :
  search (Seq Bol r) (S i) input = None.
Proof.
  revert i. induction input as [| c input IH]; intros i; simpl; [reflexivity | apply IH].
Qed.

Lemma exec_Bol_None (r : regex) (input : string) :
  exec (Seq Bol r) input = None <-> run (Seq Bol r) (start 0 input) = [].
Proof.
  unfold exec, start. destruct input as [| c input]; cbn [search].
  - destruct (run (Seq Bol r) _); split; congruence.
  - destruct (run (Seq Bol r) _); [| split; congruence].
    rewrite search_Bol. tauto.
Qed.

Lemma now_regex_matches (e : string) :
  run now_regex (start 0 e) <> [] <-> now_form e.
Proof.
  rewrite nonempty_in. unfold now_regex, now_form. split.
  - intros (s5 & H).
    apply in_run_Seq in H. destruct H as (s1 & H1 & H).
    apply in_run_Bol in H1. destruct H1 as [_ ->].
    apply in_run_Seq in H. destruct H as (s2 & H2 & H).
    apply in_run_Lit in H2. destruct H2 as (tl2 & E2 & ->).
    apply in_run_Seq in H. destruct H as (s3 & H3 & H).
    apply in_run_Grp in H3. destruct H3 as (m3 & H3 & ->).
    apply in_run_Cls in H3. destruct H3 as (sign & tl3 & E3 & Hsign & ->).
    apply in_run_Seq in H. destruct H as (s4 & H4 & H).
    apply in_run_Grp in H4. destruct H4 as (m4 & H4 & ->).
    apply in_run_Plus in H4. destruct H4 as (ds & tl4 & E4 & Hne & Hds & ->).
    apply in_run_Grp in H. destruct H as (m5 & H5 & ->).
    apply in_run_Cls in H5. destruct H5 as (w & tl5 & E5 & Hw & ->).
    simpl in E2, E3, E4, E5. subst.
    exists sign, ds, w, tl5. auto.
  - intros (sign & ds & w & tl & -> & Hsign & Hne & Hds & Hw).
    eexists.
    apply in_run_Seq. eexists. split; [apply in_run_Bol; split; reflexivity |].
    apply in_run_Seq. eexists. split; [apply in_run_Lit; eexists; split; reflexivity |].
    apply in_run_Seq. eexists. split.
    { apply in_run_Grp. eexists. split; [| reflexivity].
      apply in_run_Cls. exists sign. eexists. split; [reflexivity | split; [exact Hsign | reflexivity]]. }
    apply in_run_Seq. eexists. split.
    { apply in_run_Grp. eexists. split; [| reflexivity].
      apply in_run_Plus. exists ds. eexists.
      split; [reflexivity | split; [exact Hne | split; [exact Hds | reflexivity]]]. }
    apply in_run_Grp. eexists. split; [| reflexivity].
    apply in_run_Cls. exists w. eexists. split; [reflexivity | split; [exact Hw | reflexivity]].
Qed.

Lemma exec_now_regex_None (e : string) : exec now_regex e = None <-> ~ now_form e.
Proof.
  unfold now_regex at 1. rewrite exec_Bol_None. fold now_regex.
  rewrite <- now_regex_matches. split; [now intros -> | ].
  intros H. destruct (run now_regex (start 0 e)); [reflexivity | exfalso; now apply H].
Qed.

(** ** Describing and validating an expression *)

Lemma describeTextRange_hit (expr : string) (o : TimeOption.t) :
  rangeIndex !! (normalized expr +:+ " to now") = Some o -> describeTextRange expr = o.
Proof.
  unfold describeTextRange, normalized. cbv zeta. now intros ->.
Qed.

Lemma describeTextRange_miss (expr : string) :
  rangeIndex !! (normalized expr +:+ " to now") = None ->
  let o := describeTextRange expr in
  TimeOption.from o = TimeOption.from (candidate (isLast expr) (normalized expr)) /\
  TimeOption.to o = TimeOption.to (candidate (isLast expr) (normalized expr)) /\
  (TimeOption.invalid o = true <-> exec now_regex (normalized expr) = None) /\
  (TimeOption.invalid o = true ->
   TimeOption.display o = Some (TimeOption.from o +:+ " to " +:+ TimeOption.to o)).
Proof.
  unfold describeTextRange, normalized, candidate, isLast. cbv zeta. intros ->.
  destruct (exec now_regex _) as [parts |].
  - destruct (spans !! group 3 parts);
      destruct (negb (indexOf expr "+" =? 0)%Z); simpl;
      repeat split; intros; congruence.
  - destruct (negb (indexOf expr "+" =? 0)%Z); simpl; repeat split; intros; congruence.
Qed.

Lemma presets_valid (o : TimeOption.t) : In o presets -> TimeOption.invalid o = false.
Proof.
  intros H.
  assert (Hall : forallb (fun o => negb (TimeOption.invalid o)) presets = true)
    by (vm_compute; reflexivity).
  rewrite forallb_forall in Hall. apply Hall in H. now apply negb_true_iff in H.
Qed.

Lemma describeTextRange_normalized (expr : string) :
  describeTextRange expr = describe_normalized (isLast expr) (normalized expr).
Proof.
  unfold describeTextRange, describe_normalized, isLast, normalized. cbv zeta.
  destruct (rangeIndex !! _); [reflexivity |].
  unfold candidate. destruct (negb (indexOf expr "+" =? 0)%Z); reflexivity.
Qed.

Lemma presets_described_at (o : TimeOption.t) : In o presets -> described o.
Proof.
  revert o. apply List.Forall_forall.
  apply (bool_decide_unpack (Forall described presets)). vm_compute. exact I.
Qed.

Lemma hidden_not_to_now (o : TimeOption.t) :
  In o hiddenRangeOptions -> TimeOption.to o <> "now".
Proof.
  revert o. apply List.Forall_forall.
  apply (bool_decide_unpack (Forall (fun o => TimeOption.to o <> "now") hiddenRangeOptions)).
  vm_compute. exact I.
Qed.

(** C2, as the specification states it, fails for the forward presets:
    "now to now+5m" is a frame of the hidden table, and [describeTextRange]
    gives neither "+5m" nor "now+5m" its display. *)
Lemma describeTextRange_forward_preset_missed :
  In (frame "now" "now+5m" "Следващите 5 минути") presets /\
  normalized "+5m" = "now+5m" /\
  TimeOption.display (describeTextRange "+5m") = Some "Next 5 минутаs" /\
  TimeOption.display (describeTextRange "+5m") <> Some "Следващите 5 минути" /\
  TimeOption.display (describeTextRange "now+5m") <> Some "Следващите 5 минути".
Proof.
  split; [| split; [| split; [| split]]].
  - unfold presets. apply in_or_app. right. right. left. reflexivity.
  - vm_compute. reflexivity.
  - vm_compute. reflexivity.
  - vm_compute. discriminate.
  - vm_compute. discriminate.
Qed.

(** C2 (amended): for every frame of the two tables whose [to] is "now",
    [describeTextRange] applied to the frame's [from] returns that frame,
    so its exact display.  The key looked up is "<normalized> to now" for
    past and forward expressions alike: a frame of the tables is returned
    only under that key, it is then a visible frame that ends at "now", and
    no frame of the hidden (forward) table is ever returned. *)
Theorem describeTextRange_presets :
  (forall o : TimeOption.t,
      In o presets -> TimeOption.to o = "now" ->
      describeTextRange (TimeOption.from o) = o) /\
  (forall (expr : string) (o : TimeOption.t),
      rangeIndex !! (normalized expr +:+ " to now") = Some o ->
      describeTextRange expr = o) /\
  (forall expr : string,
      In (describeTextRange expr) presets ->
      rangeIndex !! (normalized expr +:+ " to now") = Some (describeTextRange expr) /\
      In (describeTextRange expr) rangeOptions /\
      TimeOption.from (describeTextRange expr) = normalized expr /\
      TimeOption.to (describeTextRange expr) = "now") /\
  (forall (expr : string) (o : TimeOption.t),
      In o hiddenRangeOptions -> describeTextRange expr <> o).
Proof.
  assert (Hret : forall expr : string,
             In (describeTextRange expr) presets ->
             rangeIndex !! (normalized expr +:+ " to now") = Some (describeTextRange expr) /\
             In (describeTextRange expr) rangeOptions /\
             TimeOption.from (describeTextRange expr) = normalized expr /\
             TimeOption.to (describeTextRange expr) = "now").
  { intros expr Hin.
    destruct (rangeIndex !! (normalized expr +:+ " to now")) as [o |] eqn:E.
    - rewrite (describeTextRange_hit expr o E).
      destruct (rangeIndex_to_now _ _ E) as (H1 & H2 & H3). auto.
    - exfalso. destruct (describeTextRange_miss expr E) as (Hf & Ht & _).
      destruct (presets_described_at _ Hin) as (Hnow & Hfwd).
      unfold candidate in Hf, Ht.
      destruct (isLast expr) eqn:L; cbn [TimeOption.from TimeOption.to] in Hf, Ht.
      + destruct (Hnow Ht) as [_ Hk]. rewrite Hf in Hk. congruence.
      + apply (Hfwd Hf). rewrite Ht.
        rewrite (describeTextRange_normalized expr), L. reflexivity. }
  split; [| split; [| split]].
  - intros o Hin Hto. now apply presets_described_at.
  - apply describeTextRange_hit.
  - exact Hret.
  - intros expr o Hin E.
    assert (Hp : In o presets) by (unfold presets; apply in_or_app; now right).
    apply (hidden_not_to_now o Hin). rewrite <- E. apply Hret. now rewrite E.
Qed.

Lemma describeTextRange_presets_witness :
  describeTextRange "now-6M" = frame "now-6M" "now" "Последните 6 месеца".
Proof.
  apply (proj1 describeTextRange_presets (frame "now-6M" "now" "Последните 6 месеца")).
  - unfold presets, rangeOptions. apply in_or_app. left. simpl. tauto.
  - reflexivity.
Defined.

(** [describeTextRange] marks an expression invalid in one place: when
    the index has no frame for it and [now_regex] does not match it. *)
Lemma describeTextRange_invalid (expr : string) :
  TimeOption.invalid (describeTextRange expr) = true <->
  rangeIndex !! (normalized expr +:+ " to now") = None /\ ~ now_form (normalized expr).
Proof.
  destruct (rangeIndex !! (normalized expr +:+ " to now")) as [o |] eqn:E.
  - rewrite (describeTextRange_hit expr o E).
    apply rangeIndex_lookup in E. destruct E as [Hin _].
    rewrite (presets_valid o Hin). split; [discriminate | intros [H _]; discriminate].
  - destruct (describeTextRange_miss expr E) as (_ & _ & Hinv & _).
    rewrite Hinv, exec_now_regex_None. tauto.
Qed.

(** C4, as the specification states it, fails for an expression that goes
    on after the unit: "now-5m/d" is no preset and is not "now", a sign, an
    integer and a unit, and yet it is not marked invalid and
    [isValidTimeSpan] accepts it. *)
Lemma isValidTimeSpan_not_anchored :
  normalized "now-5m/d" = "now-5m/d" /\
  rangeIndex !! ("now-5m/d" +:+ " to now") = None /\
  ~ documented_form "now-5m/d" /\
  TimeOption.invalid (describeTextRange "now-5m/d") = false /\
  isValidTimeSpan "now-5m/d" = true.
Proof.
  split; [| split; [| split; [| split]]]; try (vm_compute; reflexivity).
  intros (sign & ds & unit & E & _ & Hne & Hds & Hunit).
  rewrite !append_cons, append_nil in E. injection E as _ E.
  destruct ds as [| d1 ds]; [congruence |].
  rewrite append_cons in E. injection E as _ E.
  destruct ds as [| d2 ds].
  - rewrite append_nil in E. subst unit. simpl in Hunit.
    repeat (destruct Hunit as [Hunit | Hunit]; [discriminate |]). destruct Hunit.
  - rewrite append_cons in E. injection E as <- _.
    simpl in Hds. rewrite andb_false_r in Hds. discriminate.
Qed.

(** C4 (amended): [isValidTimeSpan] is true for every value that starts
    with "$" or "+$", and for every other value it is true exactly when
    [describeTextRange] does not mark the value invalid.
    [describeTextRange] sets invalid, with the display "<from> to <to>",
    whenever the normalized expression has no frame under
    "<normalized> to now" and does not start with "now", a sign, digits and
    a word character; it does not set invalid when the expression has such
    a frame, or starts with "now", a sign, digits and one of the seven
    units, whatever follows the unit. *)
Theorem isValidTimeSpan_describeTextRange :
  (forall value : string,
      String.prefix "$" value = true \/ String.prefix "+$" value = true ->
      isValidTimeSpan value = true) /\
  (forall value : string,
      String.prefix "$" value = false -> String.prefix "+$" value = false ->
      isValidTimeSpan value = negb (TimeOption.invalid (describeTextRange value))) /\
  (forall expr : string,
      rangeIndex !! (normalized expr +:+ " to now") = None ->
      ~ now_form (normalized expr) ->
      TimeOption.invalid (describeTextRange expr) = true /\
      TimeOption.display (describeTextRange expr)
      = Some (TimeOption.from (describeTextRange expr) +:+ " to "
              +:+ TimeOption.to (describeTextRange expr))) /\
  (forall (expr : string) (o : TimeOption.t),
      rangeIndex !! (normalized expr +:+ " to now") = Some o ->
      TimeOption.invalid (describeTextRange expr) = false) /\
  (forall (expr : string) (sign : ascii) (ds unit tl : string),
      normalized expr = "now" +:+ String sign (ds +:+ unit +:+ tl) ->
      is_sign sign = true -> run_of is_digit ds ->
      In unit ["s"; "m"; "h"; "d"; "w"; "M"; "y"] ->
      TimeOption.invalid (describeTextRange expr) = false).
Proof.
  split; [| split; [| split; [| split]]].
  - intros value H. unfold isValidTimeSpan. rewrite !indexOf_zero.
    destruct H as [-> | ->]; [reflexivity | now rewrite orb_true_r].
  - intros value H1 H2. unfold isValidTimeSpan. rewrite !indexOf_zero, H1, H2.
    reflexivity.
  - intros expr E Hform.
    assert (Hinv : TimeOption.invalid (describeTextRange expr) = true)
      by (apply describeTextRange_invalid; auto).
    split; [exact Hinv |]. now apply (describeTextRange_miss expr E).
  - intros expr o E. apply not_true_is_false. intros Hinv.
    apply describeTextRange_invalid in Hinv. destruct Hinv as [Hnone _]. congruence.
  - intros expr sign ds unit tl E Hsign [Hne Hds] Hunit.
    apply not_true_is_false. intros Hinv.
    apply describeTextRange_invalid in Hinv. destruct Hinv as [_ Hform].
    apply Hform. rewrite E.
    assert (Hw : exists w, unit = String w EmptyString /\ is_word w = true).
    { simpl in Hunit.
      repeat (destruct Hunit as [<- | Hunit]; [eexists; split; reflexivity |]).
      destruct Hunit. }
    destruct Hw as (w & -> & Hw). exists sign, ds, w, tl. auto.
Qed.

Lemma isValidTimeSpan_describeTextRange_witness :
  isValidTimeSpan "$myVar" = true /\
  TimeOption.invalid (describeTextRange "not-a-valid-expr!!") = true /\
  TimeOption.invalid (describeTextRange "90m/h") = false.
Proof.
  destruct isValidTimeSpan_describeTextRange as (Hvar & _ & Hbad & _ & Hunit).
  split; [| split].
  - apply Hvar. left. reflexivity.
  - apply (Hbad "not-a-valid-expr!!"); [vm_compute; reflexivity |].
    apply exec_now_regex_None. vm_compute. reflexivity.
  - apply (Hunit "90m/h" "-"%char "90" "m" "/h");
      [vm_compute; reflexivity | reflexivity | split; [discriminate | reflexivity]
      | simpl; tauto].
Defined.

(** The validity of some expressions.  An expression whose unit letter is
    none of the seven units ("5x", "now-55") is matched by [now_regex]: it
    gets no display and is not marked invalid. *)
Example isValidTimeSpan_examples :
  isValidTimeSpan "$myVar" = true /\
  isValidTimeSpan "not-a-valid-expr!!" = false /\
  isValidTimeSpan "now-5" = false /\
  isValidTimeSpan "now-5m/d" = true /\
  describeTextRange "5x" = TimeOption.mk "now-5x" "now" None None false /\
  isValidTimeSpan "5x" = true /\
  isValidTimeSpan "now-55" = true.
Proof. repeat split; vm_compute; reflexivity. Qed.

(** ** Reading numbers *)

Lemma strip_ws1_plain (c : ascii) (tl : string) :
  plain c = true -> strip_ws1 (String c tl) = None.
Proof.
  unfold plain, strip_ws1, between. intros H.
  apply andb_prop in H. destruct H as [H H32].
  apply andb_prop in H. destruct H as [H128 H9].
  apply negb_true_iff in H32, H9. apply N.ltb_lt in H128.
  unfold between in H9. rewrite H9, H32. cbn [orb].
  assert (E : forall k : N, (128 <= k)%N -> (code c =? k)%N = false)
    by (intros k Hk; apply N.eqb_neq; lia).
  destruct tl as [| b [| d tl]]; [reflexivity | |].
  - now rewrite (E 194%N) by lia.
  - rewrite (E 194%N), (E 225%N), (E 226%N), (E 227%N), (E 239%N) by lia.
    reflexivity.
Qed.

Lemma skip_ws_plain (c : ascii) (tl : string) :
  plain c = true -> skip_ws (String c tl) = String c tl.
Proof.
  intros H. unfold skip_ws. cbn [String.length skip_ws_fuel].
  now rewrite strip_ws1_plain.
Qed.

Lemma all_ws_plain (c : ascii) (tl : string) :
  plain c = true -> all_ws (String c tl) = false.
Proof. intros H. unfold all_ws. now rewrite skip_ws_plain. Qed.

Lemma span_cls_app (p : ascii -> bool) (ds tl : string) :
  all_cls p ds = true -> stops p tl -> span_cls p (ds +:+ tl) = (ds, tl).
Proof.
  intros Hds Htl. induction ds as [| d ds IH].
  - rewrite append_nil. destruct tl as [| c tl]; [reflexivity |].
    simpl in *. now rewrite Htl.
  - rewrite append_cons. simpl in *. apply andb_prop in Hds. destruct Hds as [Hd Hds].
    now rewrite Hd, (IH Hds).
Qed.

Lemma span_cls_all (p : ascii -> bool) (ds : string) :
  all_cls p ds = true -> span_cls p ds = (ds, EmptyString).
Proof.
  intros H. rewrite <- (append_empty_r ds) at 1. now apply span_cls_app.
Qed.

Lemma digit_plain (c : ascii) : is_digit c = true -> plain c = true.
Proof.
  unfold is_digit, plain, between. intros H.
  apply andb_prop in H. destruct H as [H1 H2]. apply N.leb_le in H1, H2.
  rewrite !andb_true_iff. split; [split |].
  - apply N.ltb_lt. lia.
  - apply negb_true_iff, andb_false_iff. right. apply N.leb_gt. lia.
  - apply negb_true_iff, N.eqb_neq. lia.
Qed.

(** A digit is none of the other characters that the literals use. *)
Lemma digit_not (c x : ascii) :
  is_digit c = true -> is_digit x = false -> Ascii.eqb c x = false.
Proof.
  intros Hc Hx. destruct (Ascii.eqb_spec c x) as [-> | _]; congruence.
Qed.

Lemma scale10_0 (m : Z) : scale10 m 0 = inject_Z m.
Proof.
  unfold scale10. change (Qpower (inject_Z 10) 0) with 1%Q.
  rewrite (Qred_complete (inject_Z m * 1) (inject_Z m)) by apply Qmult_1_r.
  apply Qred_iff. simpl. apply Z.gcd_1_r.
Qed.

Lemma truthy_of_Z (z : Z) : JS.truthy (JS.of_Z z) = negb (z =? 0)%Z.
Proof.
  unfold JS.truthy, JS.of_Z.
  destruct (Z.eqb_spec z 0) as [-> | Hz]; [vm_compute; reflexivity |].
  simpl. apply Qltb_lt.
  apply Qlt_le_trans with 1%Q; [vm_compute; reflexivity |].
  unfold Qabs, inject_Z, Qle. simpl. lia.
Qed.

Lemma read_sign_digit (d : ascii) (tl : string) :
  is_digit d = true -> read_sign (String d tl) = (false, String d tl).
Proof.
  intros H. unfold read_sign.
  now rewrite (digit_not d "-" H), (digit_not d "+" H).
Qed.

Lemma radix_prefix_digits (d : ascii) (tl : string) :
  is_digit d = true ->
  match tl with
  | EmptyString => True
  | String x _ => existsb (Ascii.eqb x) ["x"; "X"; "o"; "O"; "b"; "B"]%char = false
  end ->
  radix_prefix (String d tl) = None.
Proof.
  intros Hd Htl. unfold radix_prefix. destruct tl as [| x tl]; [reflexivity |].
  simpl in Htl. rewrite !orb_false_iff in Htl.
  destruct Htl as (-> & -> & -> & -> & -> & -> & _).
  now destruct (negb (Ascii.eqb d "0")).
Qed.

Lemma run_of_cons (p : ascii -> bool) (ds : string) :
  run_of p ds -> exists d ds', ds = String d ds' /\ p d = true /\ all_cls p ds' = true.
Proof.
  intros [Hne Hall]. destruct ds as [| d ds']; [congruence |].
  simpl in Hall. apply andb_prop in Hall. destruct Hall. now exists d, ds'.
Qed.

(** [Number] on a decimal number without exponent: its exact value. *)
Lemma Number_decimal (negative : bool) (ip frac : string) :
  run_of is_digit ip -> fraction frac ->
  Number (sign_text negative +:+ ip +:+ frac)
  = JS.Fin (scale10 (negate_if negative (dec_value (ip +:+ fraction_digits frac)))
                    (0 - Z.of_nat (String.length (fraction_digits frac)))).
Proof.
  intros Hip Hfrac. pose proof Hip as [_ Hall].
  destruct (run_of_cons _ _ Hip) as (d & ip' & E & Hd & Hip').
  assert (Hstop : stops is_digit frac).
  { destruct Hfrac as [-> | (fp & _ & ->)]; [exact I | reflexivity]. }
  assert (Hfr : read_fraction frac = (fraction_digits frac, EmptyString)).
  { destruct Hfrac as [-> | (fp & [_ Hfp] & ->)]; [reflexivity |].
    rewrite append_cons, append_nil. cbn [read_fraction fraction_digits].
    change (Ascii.eqb "." ".") with true. cbv iota. now apply span_cls_all. }
  assert (Hdec : read_decimal (sign_text negative +:+ ip +:+ frac)
                 = JS.Fin (scale10 (negate_if negative
                                      (dec_value (ip +:+ fraction_digits frac)))
                             (0 - Z.of_nat (String.length (fraction_digits frac))))).
  { unfold read_decimal.
    assert (Hsign : read_sign (sign_text negative +:+ ip +:+ frac) = (negative, ip +:+ frac)).
    { destruct negative; unfold sign_text.
      - now rewrite append_cons, append_nil.
      - rewrite append_nil. subst ip. rewrite append_cons. now apply read_sign_digit. }
    rewrite Hsign. subst ip. rewrite append_cons. cbn [strip_prefix].
    rewrite Ascii.eqb_sym, (digit_not d "I" Hd) by reflexivity.
    rewrite <- append_cons, (span_cls_app is_digit _ frac Hall Hstop), Hfr.
    cbn [is_empty andb read_exponent]. change (all_ws EmptyString) with true.
    reflexivity. }
  unfold Number.
  assert (Hskip : skip_ws (sign_text negative +:+ ip +:+ frac)
                  = sign_text negative +:+ ip +:+ frac).
  { destruct negative; unfold sign_text.
    - rewrite append_cons, append_nil. now apply skip_ws_plain.
    - rewrite append_nil. subst ip. rewrite append_cons.
      apply skip_ws_plain. now apply digit_plain. }
  rewrite Hskip.
  assert (Hradix : radix_prefix (sign_text negative +:+ ip +:+ frac) = None).
  { destruct negative; unfold sign_text.
    - rewrite append_cons, append_nil. subst ip. now rewrite append_cons.
    - rewrite append_nil. subst ip. rewrite append_cons.
      apply radix_prefix_digits; [exact Hd |].
      destruct ip' as [| x ip'].
      + rewrite append_nil. destruct Hfrac as [-> | (fp' & _ & ->)]; [exact I |].
        rewrite append_cons. reflexivity.
      + rewrite append_cons. simpl in Hip'. apply andb_prop in Hip'.
        destruct Hip' as [Hxd _]. cbn [existsb].
        now rewrite !(digit_not x _ Hxd) by reflexivity. }
  rewrite Hradix, Hdec.
  destruct negative; unfold sign_text.
  - now rewrite append_cons.
  - rewrite append_nil. subst ip. now rewrite append_cons.
Qed.

(** [Number] on a decimal integer: that integer. *)
Lemma Number_integer (negative : bool) (ds : string) :
  run_of is_digit ds ->
  Number (sign_text negative +:+ ds) = JS.of_Z (negate_if negative (dec_value ds)).
Proof.
  intros Hds.
  pose proof (Number_decimal negative ds EmptyString Hds (or_introl eq_refl)) as H.
  cbn [fraction_digits String.length] in H.
  rewrite !append_empty_r in H. rewrite H. unfold JS.of_Z. f_equal. apply scale10_0.
Qed.

Lemma parseInt10_digits (negative : bool) (ds tl : string) :
  run_of is_digit ds -> stops is_digit tl ->
  parseInt10 (sign_text negative +:+ ds +:+ tl) = Some (negate_if negative (dec_value ds)).
Proof.
  intros Hrun Htl. pose proof Hrun as [_ Hall].
  destruct (run_of_cons _ _ Hrun) as (d & ds' & E & Hd & Hds').
  unfold parseInt10.
  assert (Hsign : read_sign (skip_ws (sign_text negative +:+ ds +:+ tl))
                  = (negative, ds +:+ tl)).
  { destruct negative; unfold sign_text.
    - rewrite append_cons, append_nil. now rewrite skip_ws_plain by reflexivity.
    - rewrite append_nil. subst ds. rewrite append_cons.
      rewrite skip_ws_plain by now apply digit_plain. now apply read_sign_digit. }
  rewrite Hsign, (span_cls_app is_digit ds tl Hall Htl).
  subst ds. reflexivity.
Qed.

(** The characters that start a unit are those of [[Mwdhmsy]]; none of
    them is white space, a digit, a point, or a letter of a numeric
    literal. *)
Lemma unit_char_other (c : ascii) :
  is_unit_char c = true ->
  plain c = true /\ is_digit c = false /\
  existsb (Ascii.eqb c) ["."; "e"; "E"; "x"; "X"; "o"; "O"; "b"; "B"; "-"; "+"; "I"]%char = false.
Proof.
  unfold is_unit_char. cbn [existsb]. rewrite !orb_true_iff.
  intros H. repeat (destruct H as [H | H]; [apply Ascii.eqb_eq in H; subst c; now vm_compute |]).
  discriminate.
Qed.

Lemma property_units (u : string) (s : Q) :
  property intervals_in_seconds u = Some s ->
  In (u, s) intervals_in_seconds /\
  exists c u', u = String c u' /\ is_unit_char c = true.
Proof.
  unfold intervals_in_seconds. cbn [property].
  repeat (match goal with
          | |- context [String.eqb ?k u] => destruct (String.eqb_spec k u) as [<- | _]
          end;
          [intros [= <-]; split; [simpl; tauto | now eexists _, _] |]).
  discriminate.
Qed.

(** A magnitude followed by a unit is not a number: [Number] gives NaN. *)
Lemma Number_unit_form (negative : bool) (ip frac : string) (c : ascii) (u' : string) :
  run_of is_digit ip -> fraction frac -> is_unit_char c = true ->
  Number (sign_text negative +:+ ip +:+ frac +:+ String c u') = JS.NaN.
Proof.
  intros Hip Hfrac Hc. pose proof Hip as [_ Hall].
  destruct (run_of_cons _ _ Hip) as (d & ip' & E & Hd & Hip').
  destruct (unit_char_other c Hc) as (Hplain & Hnd & Hother).
  cbn [existsb] in Hother. rewrite !orb_false_iff in Hother.
  destruct Hother as (Hpt & He & HE & Hx & HX & Ho & HO & Hb & HB & _).
  set (tl := frac +:+ String c u').
  assert (Hstop : stops is_digit tl).
  { unfold tl. destruct Hfrac as [-> | (fp & _ & ->)].
    - rewrite append_nil. exact Hnd.
    - rewrite append_cons. reflexivity. }
  assert (Hfr : exists fp, read_fraction tl = (fp, String c u')).
  { unfold tl. destruct Hfrac as [-> | (fp & [_ Hfp] & ->)].
    - rewrite append_nil. exists EmptyString. unfold read_fraction. now rewrite Hpt.
    - rewrite append_cons, append_nil. exists fp. cbn [read_fraction].
      change (Ascii.eqb "." ".") with true. cbv iota.
      now apply span_cls_app. }
  destruct Hfr as (fp & Hfr).
  assert (Hdec : read_decimal (sign_text negative +:+ ip +:+ tl) = JS.NaN).
  { unfold read_decimal.
    assert (Hsign : read_sign (sign_text negative +:+ ip +:+ tl) = (negative, ip +:+ tl)).
    { destruct negative; unfold sign_text.
      - now rewrite append_cons, append_nil.
      - rewrite append_nil. subst ip. rewrite append_cons. now apply read_sign_digit. }
    rewrite Hsign. subst ip. rewrite append_cons. cbn [strip_prefix].
    rewrite Ascii.eqb_sym, (digit_not d "I" Hd) by reflexivity.
    rewrite <- append_cons, (span_cls_app is_digit _ tl Hall Hstop), Hfr.
    cbn [is_empty andb read_exponent]. rewrite He, HE. cbn [orb].
    now rewrite (all_ws_plain c u' Hplain). }
  unfold Number.
  assert (Hskip : skip_ws (sign_text negative +:+ ip +:+ tl)
                  = sign_text negative +:+ ip +:+ tl).
  { destruct negative; unfold sign_text.
    - rewrite append_cons, append_nil. now apply skip_ws_plain.
    - rewrite append_nil. subst ip. rewrite append_cons.
      apply skip_ws_plain. now apply digit_plain. }
  rewrite Hskip.
  assert (Hradix : radix_prefix (sign_text negative +:+ ip +:+ tl) = None).
  { destruct negative; unfold sign_text.
    - rewrite append_cons, append_nil. subst ip. now rewrite append_cons.
    - rewrite append_nil. subst ip. rewrite append_cons.
      apply radix_prefix_digits; [exact Hd |].
      destruct ip' as [| x ip'].
      + rewrite append_nil. unfold tl. destruct Hfrac as [-> | (fp' & _ & ->)].
        * rewrite append_nil. cbn [existsb]. now rewrite Hx, HX, Ho, HO, Hb, HB.
        * rewrite append_cons. reflexivity.
      + rewrite append_cons. simpl in Hip'. apply andb_prop in Hip'.
        destruct Hip' as [Hxd _]. cbn [existsb].
        now rewrite !(digit_not x _ Hxd) by reflexivity. }
  rewrite Hradix, Hdec.
  destruct negative; unfold sign_text.
  - now rewrite append_cons.
  - rewrite append_nil. subst ip. now rewrite append_cons.
Qed.

(** ** The preferred match *)

Lemma hd_flat_map {A B : Type} (f : A -> list B) (l : list A) (x : A) (y : B) :
  hd_error l = Some x -> hd_error (f x) = Some y -> hd_error (flat_map f l) = Some y.
Proof.
  destruct l as [| x' l]; [discriminate |]. intros [= ->] Hy. simpl.
  destruct (f x); [discriminate | exact Hy].
Qed.

Lemma hd_app {A : Type} (l1 l2 : list A) (y : A) :
  hd_error l1 = Some y -> hd_error (l1 ++ l2)%list = Some y.
Proof. destruct l1; [discriminate | trivial]. Qed.

Lemma reach_Seq (a b : regex) (s s1 s2 : state) (m1 m2 : string)
    (c1 c2 : list (nat * string)) :
  reach a s m1 c1 s1 -> reach b s1 m2 c2 s2 ->
  reach (Seq a b) s (m1 +:+ m2) (c2 ++ c1)%list s2.
Proof.
  intros (Ha & Ra & Pa & Ca) (Hb & Rb & Pb & Cb). repeat split.
  - cbn [run]. now apply hd_flat_map with s1.
  - now rewrite Ra, Rb, append_assoc.
  - rewrite Pb, Pa, length_append. lia.
  - now rewrite Cb, Ca, app_assoc.
Qed.

Lemma reach_Lit (text tl : string) (s : state) :
  rest s = text +:+ tl ->
  reach (Lit text) s text [] (advance (String.length text) tl s).
Proof.
  intros H. repeat split; try assumption.
  cbn [run]. apply strip_prefix_Some in H. now rewrite H.
Qed.

Lemma reach_Cls (p : ascii -> bool) (x : ascii) (tl : string) (s : state) :
  rest s = String x tl -> p x = true ->
  reach (Cls p) s (String x EmptyString) [] (advance 1 tl s).
Proof.
  intros H Hp. repeat split; try assumption. cbn [run]. now rewrite H, Hp.
Qed.

Lemma hd_plus_cls (p : ascii -> bool) (n : nat) (ds tl : string) (s : state) :
  run_of p ds -> stops p tl ->
  hd_error (plus_cls p n (ds +:+ tl) s) = Some (advance (n + String.length ds) tl s).
Proof.
  intros [Hne Hall] Htl. revert n Hne Hall.
  induction ds as [| d ds IH]; intros n Hne Hall; [congruence |].
  rewrite append_cons. simpl in Hall. apply andb_prop in Hall. destruct Hall as [Hd Hall].
  cbn [plus_cls]. rewrite Hd. destruct ds as [| d' ds].
  - rewrite append_nil.
    assert (E : plus_cls p (S n) tl s = []).
    { destruct tl as [| x tl]; [reflexivity |]. simpl in Htl. cbn [plus_cls]. now rewrite Htl. }
    rewrite E. cbn [app hd_error String.length]. do 2 f_equal. lia.
  - apply hd_app. rewrite IH by (discriminate || assumption).
    cbn [String.length]. do 2 f_equal. lia.
Qed.

Lemma reach_Plus (p : ascii -> bool) (ds tl : string) (s : state) :
  rest s = ds +:+ tl -> run_of p ds -> stops p tl ->
  reach (Plus p) s ds [] (advance (String.length ds) tl s).
Proof.
  intros H Hds Htl. repeat split; try assumption.
  cbn [run]. rewrite H. now apply (hd_plus_cls p 0).
Qed.

Lemma reach_Opt (a : regex) (s s' : state) (m : string) (c : list (nat * string)) :
  reach a s m c s' -> reach (Opt a) s m c s'.
Proof.
  intros (Ha & Ra & Pa & Ca). repeat split; try assumption.
  cbn [run]. now apply hd_app.
Qed.

Lemma reach_Opt_skip (a : regex) (s : state) :
  run a s = [] -> reach (Opt a) s EmptyString [] s.
Proof.
  intros H. repeat split.
  - cbn [run]. now rewrite H.
  - cbn [String.length]. lia.
Qed.

Lemma reach_Alt_l (a b : regex) (s s' : state) (m : string) (c : list (nat * string)) :
  reach a s m c s' -> reach (Alt a b) s m c s'.
Proof.
  intros (Ha & Ra & Pa & Ca). repeat split; try assumption.
  cbn [run]. now apply hd_app.
Qed.

Lemma reach_Alt_r (a b : regex) (s s' : state) (m : string) (c : list (nat * string)) :
  run a s = [] -> reach b s m c s' -> reach (Alt a b) s m c s'.
Proof.
  intros H (Hb & Rb & Pb & Cb). repeat split; try assumption.
  cbn [run]. now rewrite H.
Qed.

Lemma reach_Grp (i : nat) (a : regex) (s s' : state) (m : string) (c : list (nat * string)) :
  reach a s m c s' -> reach (Grp i a) s m ((i, m) :: c) (close_group i s s').
Proof.
  intros (Ha & Ra & Pa & Ca). repeat split; try assumption.
  - cbn [run]. destruct (run a s) as [| x l]; [discriminate |].
    injection Ha as ->. reflexivity.
  - cbn [caps close_group]. rewrite Pa, Ra, Ca.
    replace (pos s + String.length m - pos s)%nat with (String.length m) by lia.
    now rewrite substring_append.
Qed.

Lemma run_Lit_none (text : string) (s : state) :
  strip_prefix text (rest s) = None -> run (Lit text) s = [].
Proof. intros H. cbn [run]. now rewrite H. Qed.

Lemma search_reach (r : regex) (i : nat) (input m : string) (c : list (nat * string))
    (s' : state) :
  reach r (start i input) m c s' -> search r i input = Some c.
Proof.
  intros (H & _ & _ & C). unfold start in *.
  destruct input; cbn [search]; destruct (run r _); try discriminate;
    injection H as ->; rewrite C; cbn [caps]; now rewrite app_nil_r.
Qed.

Lemma interval_regex_parts :
  interval_regex = Seq (Grp 1 magnitude_regex) (Grp 2 unit_regex).
Proof. reflexivity. Qed.

Lemma reach_magnitude (negative : bool) (ip frac : string) (c : ascii) (u' : string)
    (s : state) :
  rest s = sign_text negative +:+ ip +:+ frac +:+ String c u' ->
  run_of is_digit ip -> fraction frac -> is_unit_char c = true ->
  exists s', reach magnitude_regex s (sign_text negative +:+ ip +:+ frac) [] s' /\
             rest s' = String c u'.
Proof.
  intros Hrest Hip Hfrac Hc.
  destruct (run_of_cons _ _ Hip) as (d & ip' & E & Hd & Hip').
  destruct (unit_char_other c Hc) as (_ & Hnd & Hother).
  cbn [existsb] in Hother. rewrite !orb_false_iff in Hother. destruct Hother as (Hpt & _).
  (* the sign *)
  assert (H1 : exists s1, reach (Opt (Lit "-")) s (sign_text negative) [] s1 /\
                          rest s1 = ip +:+ frac +:+ String c u').
  { destruct negative; unfold sign_text in *.
    - eexists. split; [apply reach_Opt, reach_Lit; exact Hrest | reflexivity].
    - rewrite append_nil in Hrest. exists s. split; [| exact Hrest].
      apply reach_Opt_skip, run_Lit_none. rewrite Hrest. subst ip.
      rewrite append_cons. cbn [strip_prefix].
      now rewrite Ascii.eqb_sym, (digit_not d "-" Hd). }
  destruct H1 as (s1 & R1 & Hrest1).
  (* the digits *)
  assert (Hstop : stops is_digit (frac +:+ String c u')).
  { destruct Hfrac as [-> | (fp & _ & ->)]; [now rewrite append_nil | now rewrite append_cons]. }
  pose proof (reach_Plus is_digit ip _ s1 Hrest1 Hip Hstop) as R2.
  set (s2 := advance (String.length ip) (frac +:+ String c u') s1) in R2.
  (* the fraction *)
  assert (H3 : exists s3, reach (Opt (Seq (Lit ".") (Plus is_digit))) s2 frac [] s3 /\
                          rest s3 = String c u').
  { destruct Hfrac as [-> | (fp & Hfp & ->)].
    - exists s2. split; [| reflexivity].
      apply reach_Opt_skip. cbn [run]. unfold s2. cbn [rest advance].
      rewrite append_nil. cbn [strip_prefix]. rewrite Ascii.eqb_sym, Hpt. reflexivity.
    - eexists. split.
      + apply reach_Opt.
        eapply (reach_Seq (Lit ".") (Plus is_digit) s2 _ _ "." fp [] []).
        * apply (reach_Lit "." (fp +:+ String c u')).
          unfold s2. cbn [rest advance]. apply append_assoc.
        * apply (reach_Plus is_digit fp (String c u')); [reflexivity | exact Hfp | exact Hnd].
      + reflexivity. }
  destruct H3 as (s3 & R3 & Hrest3).
  exists s3. split; [| exact Hrest3].
  unfold magnitude_regex.
  apply (reach_Seq _ _ s s1 s3 (sign_text negative) (ip +:+ frac) [] [] R1).
  apply (reach_Seq _ _ s1 s2 s3 ip frac [] [] R2 R3).
Qed.

Ltac reach_unit_case Hrest :=
  eexists;
  first
    [ apply reach_Alt_l; apply (reach_Lit "ms" EmptyString); exact Hrest
    | apply reach_Alt_r;
      [ apply run_Lit_none; rewrite Hrest; reflexivity
      | apply (reach_Cls is_unit_char _ EmptyString); [exact Hrest | reflexivity] ] ].

Lemma reach_unit (u : string) (sec : Q) (s : state) :
  property intervals_in_seconds u = Some sec -> rest s = u ->
  exists s', reach unit_regex s u [] s'.
Proof.
  intros Hu Hrest. apply property_units in Hu. destruct Hu as [Hin _].
  unfold unit_regex, intervals_in_seconds in *. simpl in Hin.
  repeat (destruct Hin as [[= <- _] | Hin]; [reach_unit_case Hrest |]).
  destruct Hin.
Qed.

(** On a magnitude followed by a unit, [interval_regex] matches at index 0
    and captures the magnitude and the unit. *)
Lemma exec_interval_regex_form (negative : bool) (ip frac u : string) (sec : Q) :
  run_of is_digit ip -> fraction frac -> property intervals_in_seconds u = Some sec ->
  exec interval_regex (sign_text negative +:+ ip +:+ frac +:+ u)
  = Some [(2%nat, u); (1%nat, sign_text negative +:+ ip +:+ frac)].
Proof.
  intros Hip Hfrac Hu.
  destruct (property_units u sec Hu) as (_ & c & u' & -> & Hc).
  set (s := start 0 (sign_text negative +:+ ip +:+ frac +:+ String c u')).
  destruct (reach_magnitude negative ip frac c u' s eq_refl Hip Hfrac Hc)
    as (s1 & R1 & Hrest1).
  pose proof (reach_Grp 1 _ _ _ _ _ R1) as G1.
  destruct (reach_unit (String c u') sec (close_group 1 s s1) Hu Hrest1) as (s2 & R2).
  pose proof (reach_Grp 2 _ _ _ _ _ R2) as G2.
  pose proof (reach_Seq _ _ _ _ _ _ _ _ _ G1 G2) as R.
  rewrite <- interval_regex_parts in R. unfold exec.
  rewrite !append_assoc in R.
  exact (search_reach _ _ _ _ _ _ R).
Qed.

(** ** Interval strings *)

Lemma in_run_Alt (a b : regex) (s s' : state) :
  In s' (run (Alt a b) s) <-> In s' (run a s) \/ In s' (run b s).
Proof. cbn [run]. apply in_app_iff. Qed.

Lemma search_Some (r : regex) (i : nat) (input : string) (m : list (nat * string)) :
  search r i input = Some m ->
  exists (pre tl : string) (s' : state),
    input = pre +:+ tl /\
    In s' (run r (start (i + String.length pre) tl)) /\ m = caps s'.
Proof.
  revert i. induction input as [| x input IH]; intros i; cbn [search];
    destruct (run r _) as [| s' l] eqn:E.
  - intros H. discriminate H.
  - intros [= <-]. exists EmptyString, EmptyString, s'.
    cbn [String.length]. rewrite Nat.add_0_r. unfold start. rewrite E.
    repeat split. now left.
  - intros H. destruct (IH _ H) as (pre & tl & s' & -> & Hin & ->).
    exists (String x pre), tl, s'. cbn [String.length].
    rewrite Nat.add_succ_r. repeat split. exact Hin.
  - intros [= <-]. exists EmptyString, (String x input), s'.
    cbn [String.length]. rewrite Nat.add_0_r. unfold start. rewrite E.
    repeat split. now left.
Qed.

(** A match that starts further on is found, or an earlier one is. *)
Lemma search_later (r : regex) (i : nat) (pre tl : string) :
  run r (start (i + String.length pre) tl) <> [] -> search r i (pre +:+ tl) <> None.
Proof.
  revert i. induction pre as [| x pre IH]; intros i H.
  - rewrite append_nil. cbn [String.length] in H. rewrite Nat.add_0_r in H.
    unfold start in H. destruct tl; cbn [search]; destruct (run r _); congruence.
  - rewrite append_cons. cbn [search].
    match goal with |- context [run r ?s] => destruct (run r s) end; [| congruence].
    apply IH. cbn [String.length] in H. now rewrite Nat.add_succ_r in H.
Qed.

(** The second group of a match of [interval_regex] is a key of
    [intervals_in_seconds]: the test with [has] never fails. *)
Lemma interval_regex_unit (str : string) (matches : list (nat * string)) :
  exec interval_regex str = Some matches ->
  exists s : Q, property intervals_in_seconds (group 2 matches) = Some s.
Proof.
  unfold exec. intros H. apply search_Some in H.
  destruct H as (pre & tl & s' & _ & Hin & ->).
  rewrite interval_regex_parts in Hin.
  apply in_run_Seq in Hin. destruct Hin as (g1 & _ & Hin).
  apply in_run_Grp in Hin. destruct Hin as (b & Hb & ->).
  cbn [caps close_group group Nat.eqb].
  apply in_run_Alt in Hb. destruct Hb as [Hb | Hb].
  - apply in_run_Lit in Hb. destruct Hb as (tl' & -> & ->).
    cbn [pos advance String.length].
    replace (pos g1 + 2 - pos g1)%nat with (String.length "ms") by (cbn; lia).
    rewrite substring_append. eexists. reflexivity.
  - apply in_run_Cls in Hb. destruct Hb as (c & tl' & -> & Hc & ->).
    cbn [pos advance].
    replace (pos g1 + 1 - pos g1)%nat with (String.length (String c EmptyString))
      by (cbn; lia).
    change (String c tl') with (String c EmptyString +:+ tl'). rewrite substring_append.
    unfold is_unit_char in Hc. cbn [existsb] in Hc. rewrite !orb_true_iff in Hc.
    repeat (destruct Hc as [Hc | Hc];
            [apply Ascii.eqb_eq in Hc; subst c; eexists; reflexivity |]).
    discriminate.
Qed.

Lemma hd_error_In {A : Type} (l : list A) (x : A) : hd_error l = Some x -> In x l.
Proof. destruct l; [discriminate | intros [= ->]; now left]. Qed.

(** A magnitude followed by a unit is found wherever it stands. *)
Lemma exec_interval_regex_inside (pre suf : string) (negative : bool) (ip frac u : string)
    (s : Q) :
  run_of is_digit ip -> fraction frac -> property intervals_in_seconds u = Some s ->
  exec interval_regex (pre +:+ sign_text negative +:+ ip +:+ frac +:+ u +:+ suf) <> None.
Proof.
  intros Hip Hfrac Hu.
  destruct (property_units u s Hu) as (_ & c & u' & -> & Hc).
  rewrite append_cons. unfold exec. apply search_later. apply nonempty_in.
  set (s0 := start _ _).
  destruct (reach_magnitude negative ip frac c (u' +:+ suf) s0 eq_refl
              Hip Hfrac Hc) as (s1 & R1 & Hrest1).
  destruct (reach_Grp 1 _ _ _ _ _ R1) as (H1 & _).
  exists (close_group 2 (close_group 1 s0 s1) (advance 1 (u' +:+ suf) (close_group 1 s0 s1))).
  rewrite interval_regex_parts. apply in_run_Seq.
  exists (close_group 1 s0 s1). split; [now apply hd_error_In |].
  apply in_run_Grp. eexists. split; [| reflexivity].
  apply in_run_Alt. right. apply in_run_Cls. now exists c, (u' +:+ suf).
Qed.

Lemma in_run_Opt (a : regex) (s s' : state) :
  In s' (run (Opt a) s) <-> In s' (run a s) \/ s' = s.
Proof.
  cbn [run]. rewrite in_app_iff. simpl. intuition congruence.
Qed.

(** [interval_regex] matches a string exactly when the string holds
    digits, with a fraction or none, followed by a unit character. *)
Lemma exec_interval_regex_holds (str : string) :
  exec interval_regex str <> None <-> holds_interval str.
Proof.
  split.
  - destruct (exec interval_regex str) as [m |] eqn:E; [intros _ | congruence].
    unfold exec in E. apply search_Some in E.
    destruct E as (pre & tl & s' & -> & Hin & _).
    set (s0 := start _ tl) in Hin. rewrite interval_regex_parts in Hin.
    apply in_run_Seq in Hin. destruct Hin as (g1 & H1 & H2).
    apply in_run_Grp in H1. destruct H1 as (a1 & Ha & ->).
    apply in_run_Grp in H2. destruct H2 as (b & Hb & _).
    unfold magnitude_regex in Ha.
    apply in_run_Seq in Ha. destruct Ha as (m1 & Hsign & Ha).
    apply in_run_Seq in Ha. destruct Ha as (m2 & Hip & Ha).
    apply in_run_Plus in Hip. destruct Hip as (ip & tl2 & E2 & Hne & Hall & ->).
    assert (Hpre : exists pre', tl = pre' +:+ ip +:+ tl2).
    { apply in_run_Opt in Hsign. destruct Hsign as [Hsign | ->].
      - apply in_run_Lit in Hsign. destruct Hsign as (tl1 & E1 & ->).
        exists "-". simpl in E1, E2. now rewrite E1, E2.
      - exists EmptyString. exact E2. }
    destruct Hpre as (pre' & ->).
    assert (Hfrac : exists frac, fraction frac /\ tl2 = frac +:+ rest a1).
    { apply in_run_Opt in Ha. destruct Ha as [Ha | ->].
      - apply in_run_Seq in Ha. destruct Ha as (m3 & Hpt & Hfp).
        apply in_run_Lit in Hpt. destruct Hpt as (tl3 & E3 & ->).
        apply in_run_Plus in Hfp. destruct Hfp as (fp & tl4 & E4 & Hne4 & Hall4 & ->).
        simpl in E3, E4. exists ("." +:+ fp). split.
        + right. exists fp. split; [split; assumption | reflexivity].
        + rewrite E3, E4. now rewrite append_assoc.
      - exists EmptyString. split; [now left | reflexivity]. }
    destruct Hfrac as (frac & Hfrac & ->).
    assert (Hunit : exists c suf, is_unit_char c = true /\ rest a1 = String c suf).
    { unfold unit_regex in Hb. apply in_run_Alt in Hb. destruct Hb as [Hb | Hb].
      - apply in_run_Lit in Hb. destruct Hb as (tl5 & E5 & _).
        simpl in E5. exists "m"%char, ("s" +:+ tl5). split; [reflexivity | exact E5].
      - apply in_run_Cls in Hb. destruct Hb as (c & tl5 & E5 & Hc & _).
        simpl in E5. now exists c, tl5. }
    destruct Hunit as (c & suf & Hc & ->).
    exists (pre +:+ pre'), ip, frac, c, suf.
    repeat split; try assumption. now rewrite append_assoc.
  - intros (pre & ip & frac & c & suf & Hip & Hfrac & Hc & ->).
    assert (Hu : exists s, property intervals_in_seconds (String c EmptyString) = Some s).
    { unfold is_unit_char in Hc. cbn [existsb] in Hc. rewrite !orb_true_iff in Hc.
      repeat (destruct Hc as [Hc | Hc];
              [apply Ascii.eqb_eq in Hc; subst c; eexists; reflexivity |]).
      discriminate. }
    destruct Hu as [s Hu].
    exact (exec_interval_regex_inside pre suf false ip frac _ s Hip Hfrac Hu).
Qed.

(** [describeInterval] raises exactly when [Number] gives 0 or NaN and
    the string holds no magnitude followed by a unit. *)
Lemma describeInterval_raises (str : string) :
  (exists e, describeInterval str = Throw e) <->
  JS.truthy (Number str) = false /\ ~ holds_interval str.
Proof.
  rewrite <- exec_interval_regex_holds.
  unfold describeInterval. destruct (JS.truthy (Number str)).
  - split; [intros [e H]; discriminate | intros [H _]; discriminate].
  - destruct (exec interval_regex str) as [matches |] eqn:E.
    + destruct (interval_regex_unit str matches E) as [s ->].
      split; [intros [e H]; discriminate | intros [_ H]; now exfalso; apply H].
    + split; [intros _; split; [reflexivity | tauto] | intros _; now eexists].
Qed.

Lemma describeInterval_message (str e : string) :
  describeInterval str = Throw e ->
  e = invalid_interval_message /\
  join ", " (map fst intervals_in_seconds) = "y, M, w, d, h, m, s, ms".
Proof.
  unfold describeInterval. split; [| reflexivity].
  destruct (JS.truthy (Number str)); [discriminate |].
  destruct (exec interval_regex str) as [matches |]; [| congruence].
  destruct (property intervals_in_seconds (group 2 matches)); congruence.
Qed.

(** C5, as the specification states it, fails for a number with a
    fraction: "1.5" is the number 3/2, and the count is 1. *)
Lemma describeInterval_count_truncated :
  Number "1.5" = JS.Fin (3 # 2) /\
  describeInterval "1.5" = Ok {| sec := 1; type := "s"; count := JS.of_Z 1 |} /\
  JS.of_Z 1 <> JS.Fin (3 # 2).
Proof. repeat split; try (vm_compute; reflexivity). discriminate. Qed.

(** When [Number] gives a non-zero number, the count is what [parseInt]
    reads off the string. *)
Lemma describeInterval_number (str : string) :
  JS.truthy (Number str) = true ->
  describeInterval str = Ok {| sec := 1; type := "s"; count := of_int (parseInt10 str) |}.
Proof. intros H. unfold describeInterval. now rewrite H. Qed.

(** ** White space and signs around a number *)

Lemma blank_char (c : ascii) :
  is_blank c = true ->
  (forall tl, strip_ws1 (String c tl) = Some tl) /\
  is_digit c = false /\
  existsb (Ascii.eqb c) ["."; "e"; "E"; "x"; "X"; "o"; "O"; "b"; "B"; "-"; "+"; "I"]%char = false.
Proof.
  unfold is_blank. intros H. split; [| split].
  - intros tl. unfold strip_ws1. now rewrite H.
  - unfold is_digit, between in *. apply orb_true_iff in H.
    apply andb_false_iff.
    destruct H as [H | H].
    + apply andb_prop in H. destruct H as [_ H]. apply N.leb_le in H.
      left. apply N.leb_gt. lia.
    + apply N.eqb_eq in H. left. apply N.leb_gt. lia.
  - assert (Hne : forall x : ascii, (46 <= code x)%N \/ code x = 43%N \/ code x = 45%N ->
                                    Ascii.eqb c x = false).
    { intros x Hx. destruct (Ascii.eqb_spec c x) as [-> | _]; [| reflexivity].
      exfalso. unfold between in H. apply orb_true_iff in H. destruct H as [H | H].
      - apply andb_prop in H. destruct H as [_ H]. apply N.leb_le in H. lia.
      - apply N.eqb_eq in H. lia. }
    cbn [existsb]. rewrite !Hne by (vm_compute; first [left; discriminate | tauto]).
    reflexivity.
Qed.

Lemma skip_ws_fuel_blank (w s : string) (fuel : nat) :
  blank w -> (String.length w <= fuel)%nat ->
  match s with
  | EmptyString => True
  | String c _ => plain c = true
  end ->
  skip_ws_fuel fuel (w +:+ s) = s.
Proof.
  unfold blank. revert fuel. induction w as [| c w IH]; intros fuel Hw Hf Hs.
  - rewrite append_nil. destruct fuel as [| fuel]; [reflexivity |].
    cbn [skip_ws_fuel]. destruct s as [| p tl]; [reflexivity |].
    now rewrite strip_ws1_plain.
  - cbn [all_cls] in Hw. apply andb_prop in Hw. destruct Hw as [Hc Hw].
    cbn [String.length] in Hf. destruct fuel as [| fuel]; [lia |].
    rewrite append_cons. cbn [skip_ws_fuel].
    rewrite (proj1 (blank_char c Hc)). apply IH; [exact Hw | lia | exact Hs].
Qed.

Lemma skip_ws_blank (w s : string) :
  blank w ->
  match s with
  | EmptyString => True
  | String c _ => plain c = true
  end ->
  skip_ws (w +:+ s) = s.
Proof.
  intros Hw Hs. unfold skip_ws. apply skip_ws_fuel_blank; [exact Hw | | exact Hs].
  rewrite length_append. lia.
Qed.

Lemma all_ws_blank (w : string) : blank w -> all_ws w = true.
Proof.
  intros Hw. unfold all_ws.
  rewrite <- (append_empty_r w) at 1. now rewrite (skip_ws_blank w EmptyString Hw I).
Qed.

Lemma blank_stops (w : string) : blank w -> stops is_digit w.
Proof.
  unfold blank. destruct w as [| c w]; [exact (fun _ => I) |].
  cbn [all_cls stops]. intros H. apply andb_prop in H. destruct H as [H _].
  apply (blank_char c H).
Qed.

(** A sign and what [read_sign] makes of it in front of a digit. *)
Lemma read_sign_signs (sign : string) (d : ascii) (tl : string) :
  In sign signs -> is_digit d = true ->
  read_sign (sign +:+ String d tl) = (String.eqb sign "-", String d tl) /\
  match sign +:+ String d tl with
  | String c _ => plain c = true
  | EmptyString => False
  end.
Proof.
  unfold signs. simpl. intros [<- | [<- | [<- | []]]] Hd;
    rewrite ?append_cons, append_nil.
  - split; [now apply read_sign_digit | now apply digit_plain].
  - split; reflexivity.
  - split; reflexivity.
Qed.

(** [parseInt] on white space, a sign, digits and something that is not a
    digit. *)
Lemma parseInt10_signed (w sign ds tl : string) :
  blank w -> In sign signs -> run_of is_digit ds -> stops is_digit tl ->
  parseInt10 (w +:+ sign +:+ ds +:+ tl) = Some (signed sign (dec_value ds)).
Proof.
  intros Hw Hsign Hrun Htl. pose proof Hrun as [_ Hall].
  destruct (run_of_cons _ _ Hrun) as (d & ds' & E & Hd & Hds').
  unfold parseInt10.
  assert (Ecat : ds +:+ tl = String d (ds' +:+ tl)) by (subst ds; apply append_cons).
  destruct (read_sign_signs sign d (ds' +:+ tl) Hsign Hd) as [Hread Hplain].
  rewrite Ecat, skip_ws_blank; [| exact Hw |].
  - rewrite Hread, <- Ecat, (span_cls_app is_digit ds tl Hall Htl).
    subst ds. cbn [is_empty]. unfold signed, negate_if. reflexivity.
  - destruct (sign +:+ String d (ds' +:+ tl)); [destruct Hplain | exact Hplain].
Qed.

(** [Number] on white space, a sign, digits and white space: the
    integer. *)
Lemma Number_signed (w1 w2 sign ds : string) :
  blank w1 -> blank w2 -> In sign signs -> run_of is_digit ds ->
  Number (w1 +:+ sign +:+ ds +:+ w2) = JS.of_Z (signed sign (dec_value ds)).
Proof.
  intros Hw1 Hw2 Hsign Hrun. pose proof Hrun as [_ Hall].
  destruct (run_of_cons _ _ Hrun) as (d & ds' & E & Hd & Hds').
  assert (Ecat : ds +:+ w2 = String d (ds' +:+ w2)) by (subst ds; apply append_cons).
  destruct (read_sign_signs sign d (ds' +:+ w2) Hsign Hd) as [Hread Hplain].
  assert (Hnext : match ds' +:+ w2 with
                  | EmptyString => True
                  | String x _ =>
                      existsb (Ascii.eqb x) ["x"; "X"; "o"; "O"; "b"; "B"]%char = false
                      /\ Ascii.eqb x "." = false /\ Ascii.eqb x "e" = false
                      /\ Ascii.eqb x "E" = false
                      \/ is_digit x = true
                  end).
  { destruct ds' as [| x ds'].
    - rewrite append_nil. destruct w2 as [| x w2]; [exact I |].
      unfold blank in Hw2. cbn [all_cls] in Hw2. apply andb_prop in Hw2.
      destruct Hw2 as [Hx _]. destruct (blank_char x Hx) as (_ & _ & Hno).
      cbn [existsb] in *. rewrite !orb_false_iff in Hno.
      destruct Hno as (-> & -> & -> & -> & -> & -> & -> & -> & -> & _).
      left. auto.
    - rewrite append_cons. right. cbn [all_cls] in Hds'. now apply andb_prop in Hds'. }
  unfold Number. rewrite Ecat, skip_ws_blank; [| exact Hw1 |];
    [| destruct (sign +:+ String d (ds' +:+ w2)); [destruct Hplain | exact Hplain]].
  assert (Hradix : radix_prefix (sign +:+ String d (ds' +:+ w2)) = None).
  { unfold signs in Hsign. simpl in Hsign.
    destruct Hsign as [<- | [<- | [<- | []]]]; rewrite ?append_cons, append_nil;
      [| reflexivity | reflexivity].
    apply radix_prefix_digits; [exact Hd |].
    destruct (ds' +:+ w2) as [| x rest]; [exact I |].
    destruct Hnext as [(H & _) | H]; [exact H |].
    cbn [existsb]. now rewrite !(digit_not x _ H) by reflexivity. }
  assert (Hdec : read_decimal (sign +:+ String d (ds' +:+ w2))
                 = JS.of_Z (signed sign (dec_value ds))).
  { unfold read_decimal. rewrite Hread. cbn [strip_prefix].
    rewrite Ascii.eqb_sym, (digit_not d "I" Hd) by reflexivity.
    rewrite <- Ecat, (span_cls_app is_digit ds w2 Hall (blank_stops w2 Hw2)).
    assert (Hfr : read_fraction w2 = (EmptyString, w2)).
    { destruct w2 as [| x w2]; [reflexivity |].
      unfold blank in Hw2. cbn [all_cls] in Hw2. apply andb_prop in Hw2.
      destruct Hw2 as [Hx _]. destruct (blank_char x Hx) as (_ & _ & Hno).
      cbn [existsb] in Hno. rewrite !orb_false_iff in Hno. destruct Hno as (Hpt & _).
      cbn [read_fraction]. now rewrite Hpt. }
    assert (Hex : read_exponent w2 = Some (0, w2)).
    { destruct w2 as [| x w2]; [reflexivity |].
      unfold blank in Hw2. cbn [all_cls] in Hw2. apply andb_prop in Hw2.
      destruct Hw2 as [Hx _]. destruct (blank_char x Hx) as (_ & _ & Hno).
      cbn [existsb] in Hno. rewrite !orb_false_iff in Hno.
      destruct Hno as (_ & He & HE & _).
      cbn [read_exponent]. now rewrite He, HE. }
    rewrite Hfr, Hex, (all_ws_blank w2 Hw2).
    subst ds. cbn [is_empty andb String.length Z.of_nat].
    rewrite append_empty_r. unfold JS.of_Z. f_equal.
    unfold signed, negate_if. apply scale10_0. }
  destruct (sign +:+ String d (ds' +:+ w2)) as [| c rest] eqn:Es;
    [destruct Hplain |].
  now rewrite Hradix, Hdec.
Qed.

(** C5 (amended): for every decimal number (white space or none, a sign
    or none, digits, a fraction or none, white space or none) that
    [Number] reads as non-zero and whose integer part is at most
    2^53 - 1, [describeInterval] returns sec = 1, type = 's' and the
    integer part of the number as count, which is the number itself for a
    plain integer; for a magnitude of integer part at most 2^53 - 1
    followed by a unit it returns the seconds of the unit (y = 31536000,
    M = 2592000, w = 604800, d = 86400, h = 3600, m = 60, s = 1,
    ms = 0.001) and the integer part of the magnitude as count;
    describeInterval("5m") = {sec: 60, type: 'm', count: 5} and
    intervalToMs("5m") = 300000.  (A minus sign before an integer part of
    zero is left out: the count is then the negative zero, which the
    embedding does not tell from zero.) *)
Theorem describeInterval_number_or_unit :
  (forall (w1 w2 sign ip frac : string),
      blank w1 -> blank w2 -> In sign signs ->
      run_of is_digit ip -> fraction frac -> safe_integer (dec_value ip) ->
      (sign = "-" -> dec_value ip <> 0) ->
      JS.truthy (Number (w1 +:+ sign +:+ ip +:+ frac +:+ w2)) = true ->
      describeInterval (w1 +:+ sign +:+ ip +:+ frac +:+ w2)
      = Ok {| sec := 1; type := "s"; count := JS.of_Z (signed sign (dec_value ip)) |}) /\
  (forall (w1 w2 sign ds : string),
      blank w1 -> blank w2 -> In sign signs ->
      run_of is_digit ds -> safe_integer (dec_value ds) -> dec_value ds <> 0 ->
      Number (w1 +:+ sign +:+ ds +:+ w2) = JS.of_Z (signed sign (dec_value ds)) /\
      describeInterval (w1 +:+ sign +:+ ds +:+ w2)
      = Ok {| sec := 1; type := "s"; count := JS.of_Z (signed sign (dec_value ds)) |}) /\
  (forall (negative : bool) (ip frac u : string) (s : Q),
      run_of is_digit ip -> fraction frac -> safe_integer (dec_value ip) ->
      (negative = true -> dec_value ip <> 0) ->
      In (u, s) [ ("y", 31536000); ("M", 2592000); ("w", 604800); ("d", 86400);
                  ("h", 3600); ("m", 60); ("s", 1); ("ms", 1 # 1000) ]%Q ->
      describeInterval (sign_text negative +:+ ip +:+ frac +:+ u)
      = Ok {| sec := s; type := u;
              count := JS.of_Z (negate_if negative (dec_value ip)) |}) /\
  describeInterval "5m" = Ok {| sec := 60; type := "m"; count := JS.of_Z 5 |} /\
  intervalToMs "5m" = Ok (JS.of_Z 300000).
Proof.
  assert (Hstop : forall frac, fraction frac -> stops is_digit frac).
  { intros frac [-> | (fp & _ & ->)]; [exact I | reflexivity]. }
  assert (Hstop2 : forall frac w2, fraction frac -> blank w2 -> stops is_digit (frac +:+ w2)).
  { intros frac w2 [-> | (fp & _ & ->)] Hw2.
    - rewrite append_nil. now apply blank_stops.
    - rewrite append_cons. reflexivity. }
  split; [| split; [| split; [| split]]].
  - intros w1 w2 sign ip frac Hw1 Hw2 Hsign Hip Hfrac _ _ H.
    rewrite (describeInterval_number _ H).
    now rewrite (parseInt10_signed w1 sign ip (frac +:+ w2) Hw1 Hsign Hip
                   (Hstop2 frac w2 Hfrac Hw2)).
  - intros w1 w2 sign ds Hw1 Hw2 Hsign Hds _ Hnz.
    pose proof (Number_signed w1 w2 sign ds Hw1 Hw2 Hsign Hds) as HN.
    split; [exact HN |].
    rewrite describeInterval_number
      by (rewrite HN, truthy_of_Z; apply negb_true_iff, Z.eqb_neq;
          unfold signed; destruct (String.eqb sign "-"); lia).
    now rewrite (parseInt10_signed w1 sign ds w2 Hw1 Hsign Hds (blank_stops w2 Hw2)).
  - intros negative ip frac u s Hip Hfrac _ _ Hin.
    assert (Hu : property intervals_in_seconds u = Some s).
    { simpl in Hin.
      repeat (destruct Hin as [[= <- <-] | Hin]; [reflexivity |]). destruct Hin. }
    destruct (property_units u s Hu) as (_ & c & u' & E & Hc).
    unfold describeInterval.
    rewrite E at 1. rewrite (Number_unit_form negative ip frac c u' Hip Hfrac Hc).
    cbn [JS.truthy].
    rewrite (exec_interval_regex_form negative ip frac u s Hip Hfrac Hu).
    cbn [group Nat.eqb]. rewrite Hu.
    now rewrite (parseInt10_digits negative ip frac Hip (Hstop frac Hfrac)).
  - vm_compute. reflexivity.
  - vm_compute. reflexivity.
Qed.

Lemma describeInterval_number_or_unit_witness :
  describeInterval " -2.75 " = Ok {| sec := 1; type := "s"; count := JS.of_Z (-2) |} /\
  describeInterval "+90" = Ok {| sec := 1; type := "s"; count := JS.of_Z 90 |} /\
  describeInterval "-12.5ms"
  = Ok {| sec := 1 # 1000; type := "ms"; count := JS.of_Z (-12) |}.
Proof.
  destruct describeInterval_number_or_unit as (Hdec & Hint & Hunit & _).
  split; [| split].
  - apply (Hdec " " " " "-" "2" ".75").
    + reflexivity.
    + reflexivity.
    + unfold signs. simpl. tauto.
    + split; [discriminate | reflexivity].
    + right. exists "75". split; [split; [discriminate | reflexivity] | reflexivity].
    + unfold safe_integer. vm_compute. split; discriminate.
    + intros _. vm_compute. discriminate.
    + vm_compute. reflexivity.
  - apply (Hint EmptyString EmptyString "+" "90").
    + reflexivity.
    + reflexivity.
    + unfold signs. simpl. tauto.
    + split; [discriminate | reflexivity].
    + unfold safe_integer. vm_compute. split; discriminate.
    + discriminate.
  - apply (Hunit true "12" ".5" "ms" (1 # 1000)%Q).
    + split; [discriminate | reflexivity].
    + right. exists "5". split; [split; [discriminate | reflexivity] | reflexivity].
    + unfold safe_integer. vm_compute. split; discriminate.
    + intros _. vm_compute. discriminate.
    + simpl. tauto.
Defined.

(** C7: the code raises on "0", a pure number: [Number] gives 0, which
    the test of [describeInterval] takes for "not a number", and the string
    holds no unit.  With a unit the zero is accepted. *)
Theorem describeInterval_zero_raises :
  Number "0" = JS.of_Z 0 /\
  describeInterval "0" = Throw invalid_interval_message /\
  intervalToSeconds "0" = Throw invalid_interval_message /\
  intervalToMs "0" = Throw invalid_interval_message /\
  describeInterval "0s" = Ok {| sec := 1; type := "s"; count := JS.of_Z 0 |} /\
  describeInterval "1" = Ok {| sec := 1; type := "s"; count := JS.of_Z 1 |}.
Proof. repeat split; vm_compute; reflexivity. Qed.

Lemma unit_form_digit (str : string) :
  unit_form str -> exists d tl, str = String d tl /\ is_digit d = true.
Proof.
  intros (ip & frac & u & s & Hip & _ & _ & ->).
  destruct (run_of_cons _ _ Hip) as (d & ip' & -> & Hd & _).
  rewrite append_cons. now eexists _, _.
Qed.

(** C10: the pattern of [describeInterval] is searched for anywhere in
    the string and its magnitude may carry a sign or a fraction: a string
    that holds a magnitude and a unit somewhere is never rejected, so
    "abc5m" and "-5m" (with count -5), which are not of the documented
    form, are accepted. *)
Theorem describeInterval_unanchored_signed :
  (forall (pre suf : string) (negative : bool) (ip frac u : string) (s : Q),
      run_of is_digit ip -> fraction frac -> In (u, s) intervals_in_seconds ->
      exists info : IntervalSpec,
        describeInterval (pre +:+ sign_text negative +:+ ip +:+ frac +:+ u +:+ suf)
        = Ok info) /\
  ~ unit_form "abc5m" /\
  describeInterval "abc5m" = Ok {| sec := 60; type := "m"; count := JS.of_Z 5 |} /\
  ~ unit_form "-5m" /\
  describeInterval "-5m" = Ok {| sec := 60; type := "m"; count := JS.of_Z (-5) |} /\
  describeInterval "-1.5h" = Ok {| sec := 3600; type := "h"; count := JS.of_Z (-1) |}.
Proof.
  split; [| split; [| split; [| split; [| split]]]].
  - intros pre suf negative ip frac u s Hip Hfrac Hin.
    assert (Hu : property intervals_in_seconds u = Some s).
    { unfold intervals_in_seconds in Hin. simpl in Hin.
      repeat (destruct Hin as [[= <- <-] | Hin]; [reflexivity |]). destruct Hin. }
    pose proof (exec_interval_regex_inside pre suf negative ip frac u s Hip Hfrac Hu) as Hex.
    unfold describeInterval. destruct (JS.truthy (Number _)); [now eexists |].
    destruct (exec interval_regex _) as [matches |] eqn:E; [| congruence].
    destruct (interval_regex_unit _ _ E) as [s' ->]. now eexists.
  - intros H. apply unit_form_digit in H. destruct H as (d & tl & [= <- _] & Hd). discriminate.
  - vm_compute. reflexivity.
  - intros H. apply unit_form_digit in H. destruct H as (d & tl & [= <- _] & Hd). discriminate.
  - vm_compute. reflexivity.
  - vm_compute. reflexivity.
Qed.

Lemma describeInterval_unanchored_signed_witness :
  exists info : IntervalSpec, describeInterval "every 15m or so" = Ok info.
Proof.
  apply (proj1 describeInterval_unanchored_signed "every " " or so" false "15"
           EmptyString "m" 60%Q).
  - split; [discriminate | reflexivity].
  - now left.
  - unfold intervals_in_seconds. simpl. tauto.
Defined.

(** ** The ladder: fixed points and distortion *)

Lemma rung_in_bracket (b : Z * option Z * Z) :
  In b brackets -> in_bracket (inject_Z (snd b)) b.
Proof.
  rewrite brackets_listed. intros H. simpl in H.
  repeat (destruct H as [<- | H];
          [split; [apply Qle_bool_iff; reflexivity
                  | first [exact I | apply Qltb_lt; reflexivity]] |]).
  destruct H.
Qed.

(** X1: [roundInterval] is idempotent: a rung is rounded to itself,
    because every rung lies in the bracket that is rounded to it. *)
Theorem roundInterval_idempotent :
  (forall x : number, roundInterval (JS.of_Z (roundInterval x)) = roundInterval x) /\
  (forall b : Z * option Z * Z, In b brackets -> in_bracket (inject_Z (snd b)) b).
Proof.
  split.
  - intros x. apply roundInterval_rung, roundInterval_in_ladder.
  - exact rung_in_bracket.
Qed.

Lemma roundInterval_idempotent_witness :
  roundInterval (JS.of_Z (roundInterval (JS.Fin (40000 # 3)))) = 15000 /\
  in_bracket (inject_Z 15000) (12500, Some 17500, 15000).
Proof.
  split.
  - rewrite (proj1 roundInterval_idempotent). reflexivity.
  - apply (proj2 roundInterval_idempotent (12500, Some 17500, 15000)).
    rewrite brackets_listed. simpl. tauto.
Defined.

(** X2: from 10 ms up to six weeks the rung is at most 10/7 of the step
    that is rounded and more than 1/7 of it; up to nine hours it is more
    than 4/7 of it. *)
Theorem roundInterval_within_factor (q : Q) :
  (10 <= q)%Q -> (q < 3628800000)%Q ->
  let r := inject_Z (roundInterval (JS.Fin q)) in
  (7 * r <= 10 * q)%Q /\ (q < 7 * r)%Q /\ ((q < 32400000)%Q -> (4 * q < 7 * r)%Q).
Proof.
  intros Hlo Hhi.
  destruct (bracket_exists 0 cases default_rung q) as (b & Hb & Hq).
  { apply Qle_trans with 10%Q; [discriminate | exact Hlo]. }
  rewrite roundInterval_snap, (snap_bracket 0 cases default_rung q b cases_increasing Hb Hq).
  fold brackets in Hb. rewrite brackets_listed in Hb. simpl in Hb.
  destruct Hq as [Hq1 Hq2].
  repeat (destruct Hb as [<- | Hb]; [cbn in *; unfold inject_Z in *; repeat split; intros; lra |]).
  destruct Hb.
Qed.

Lemma roundInterval_within_factor_witness :
  let r := inject_Z (roundInterval (JS.Fin 36000)) in
  (7 * r <= 10 * 36000)%Q /\ (36000 < 7 * r)%Q /\
  ((36000 < 32400000)%Q -> (4 * 36000 < 7 * r)%Q).
Proof.
  apply (roundInterval_within_factor 36000); [discriminate | reflexivity].
Defined.

(** ** The interval of a range: bounds and edge cases *)

Lemma Qeq_bool_inject_Z (d : Z) : Qeq_bool (inject_Z d) 0 = (d =? 0)%Z.
Proof.
  destruct (Z.eqb_spec d 0) as [-> | H]; [reflexivity |].
  apply not_true_iff_false. intros E. apply Qeq_bool_iff in E.
  apply H. unfold Qeq in E. simpl in E. lia.
Qed.

Lemma Qsign_neg_inject_Z (d : Z) : JS.Qsign_neg (inject_Z d) = (d <? 0)%Z.
Proof.
  unfold JS.Qsign_neg. destruct (Z.ltb_spec d 0) as [H | H].
  - apply Qltb_lt. change 0%Q with (inject_Z 0). now rewrite <- Zlt_Qlt.
  - apply Qltb_ge. change 0%Q with (inject_Z 0). now rewrite <- Zle_Qle.
Qed.

Lemma div_zero (d : Z) :
  JS.div (JS.of_Z d) (JS.of_Z 0) = if (d =? 0)%Z then JS.NaN else JS.Inf (d <? 0)%Z.
Proof.
  unfold JS.div, JS.of_Z. change (Qeq_bool (inject_Z 0) 0) with true. cbv iota.
  now rewrite Qeq_bool_inject_Z, Qsign_neg_inject_Z.
Qed.

Lemma div_monotone (a b : Z) (r : Q) :
  (0 < r)%Q -> a <= b ->
  JS.le (JS.div (JS.of_Z a) (JS.Fin r)) (JS.div (JS.of_Z b) (JS.Fin r)) = true.
Proof.
  intros Hr Hab. unfold JS.div, JS.of_Z.
  assert (E : Qeq_bool r 0 = false).
  { apply not_true_iff_false. intros H. apply Qeq_bool_iff in H.
    rewrite H in Hr. now apply Qlt_irrefl in Hr. }
  rewrite E. cbn [JS.le]. apply Qle_bool_iff. rewrite !Qred_correct.
  unfold Qdiv. apply Qmult_le_compat_r; [now rewrite <- Zle_Qle |].
  now apply Qlt_le_weak, Qinv_lt_0_compat.
Qed.

(** X3: the [intervalMs] that [calculateInterval] returns is never
    below 1 ms (and so is not NaN), whatever the range, the resolution and
    the low limit. *)
Theorem calculateInterval_at_least_1ms (range : TimeRange.t) (resolution : number)
    (lowLimitInterval : option string) (v : number) :
  calculateInterval range resolution lowLimitInterval = Ok v ->
  JS.le (JS.of_Z 1) v = true.
Proof.
  unfold calculateInterval.
  set (rung := roundInterval _).
  assert (Hr : (1 <= inject_Z rung)%Q).
  { change 1%Q with (inject_Z 1). rewrite <- Zle_Qle. apply roundInterval_positive. }
  destruct (lowLimitMs lowLimitInterval) as [[| negative | low] | e] eqn:E;
    intros [= <-].
  - cbn. now apply Qle_bool_iff.
  - unfold JS.gt, JS.lt, JS.of_Z. destruct negative; cbn [negb JS.le];
      [now apply Qle_bool_iff | reflexivity].
  - unfold JS.gt, JS.of_Z, JS.lt.
    destruct (JS.Qltb (inject_Z rung) low) eqn:L; cbn [JS.le]; apply Qle_bool_iff.
    + apply Qltb_lt in L. apply Qle_trans with (inject_Z rung); [exact Hr |].
      now apply Qlt_le_weak.
    + exact Hr.
Qed.

Lemma calculateInterval_at_least_1ms_witness :
  JS.le (JS.of_Z 1) (JS.of_Z 60000) = true.
Proof.
  apply (calculateInterval_at_least_1ms
           (TimeRange.mk 0 3600000 (RawTimeRange.mk (Instant 0) (Instant 3600000)))
           (JS.of_Z 100) (Some "1m")).
  vm_compute. reflexivity.
Defined.

(** X4: at a positive resolution and with the same low limit, a range
    that is not shorter gets an [intervalMs] that is not smaller. *)
Theorem calculateInterval_monotone (range1 range2 : TimeRange.t) (r : Q)
    (lowLimitInterval : option string) (v1 v2 : number) :
  (0 < r)%Q ->
  TimeRange.to range1 - TimeRange.from range1 <= TimeRange.to range2 - TimeRange.from range2 ->
  calculateInterval range1 (JS.Fin r) lowLimitInterval = Ok v1 ->
  calculateInterval range2 (JS.Fin r) lowLimitInterval = Ok v2 ->
  JS.le v1 v2 = true.
Proof.
  intros Hr Hlen. unfold calculateInterval.
  pose proof (div_monotone _ _ r Hr Hlen) as Hdiv.
  set (x1 := JS.div (JS.of_Z (TimeRange.to range1 - TimeRange.from range1)) (JS.Fin r)) in *.
  set (x2 := JS.div (JS.of_Z (TimeRange.to range2 - TimeRange.from range2)) (JS.Fin r)) in *.
  assert (Hrung : (inject_Z (roundInterval x1) <= inject_Z (roundInterval x2))%Q).
  { rewrite <- Zle_Qle, !roundInterval_snap.
    now apply snap_monotone with 1; [apply cases_ascending |]. }
  destruct (lowLimitMs lowLimitInterval) as [[| negative | low] | e] eqn:E;
    intros [= <-] [= <-].
  - cbn. now apply Qle_bool_iff.
  - destruct (lowLimitMs_finite _ _ E).
  - unfold JS.gt, JS.of_Z, JS.lt.
    destruct (JS.Qltb (inject_Z (roundInterval x1)) low) eqn:L1;
      destruct (JS.Qltb (inject_Z (roundInterval x2)) low) eqn:L2;
      cbn [JS.le]; apply Qle_bool_iff.
    + apply Qle_refl.
    + now apply Qltb_ge in L2.
    + apply Qltb_lt in L2. apply Qle_trans with (inject_Z (roundInterval x2)); [exact Hrung |].
      now apply Qlt_le_weak.
    + exact Hrung.
Qed.

Lemma calculateInterval_monotone_witness :
  JS.le (JS.of_Z 30000) (JS.of_Z 60000) = true.
Proof.
  apply (calculateInterval_monotone
           (TimeRange.mk 0 3600000 (RawTimeRange.mk (Instant 0) (Instant 3600000)))
           (TimeRange.mk 0 7200000 (RawTimeRange.mk (Instant 0) (Instant 7200000)))
           100 None).
  - reflexivity.
  - simpl. lia.
  - vm_compute. reflexivity.
  - vm_compute. reflexivity.
Defined.

(** X5: a resolution of zero, of either sign, does not make
    [calculateInterval] fail: the step is an infinity, or NaN for an empty
    range, so without a low limit the result is the top rung of one year
    or 1 ms, and it is one year for an empty range.  A resolution of NaN
    gives one year too. *)
Theorem calculateInterval_zero_resolution (range : TimeRange.t) :
  (calculateInterval range (JS.of_Z 0) None = Ok (JS.of_Z 31536000000) \/
   calculateInterval range (JS.of_Z 0) None = Ok (JS.of_Z 1)) /\
  (TimeRange.from range = TimeRange.to range ->
   calculateInterval range (JS.of_Z 0) None = Ok (JS.of_Z 31536000000)) /\
  calculateInterval range JS.NaN None = Ok (JS.of_Z 31536000000).
Proof.
  unfold calculateInterval. cbn [lowLimitMs]. rewrite div_zero.
  split; [| split].
  - destruct (Z.eqb_spec (TimeRange.to range - TimeRange.from range) 0);
      [left; reflexivity |].
    destruct (Z.ltb_spec (TimeRange.to range - TimeRange.from range) 0);
      [right | left]; reflexivity.
  - intros H. destruct (Z.eqb_spec (TimeRange.to range - TimeRange.from range) 0);
      [reflexivity | lia].
  - reflexivity.
Qed.

Lemma calculateInterval_zero_resolution_witness :
  calculateInterval (TimeRange.mk 5000 5000 (RawTimeRange.mk (Instant 5000) (Instant 5000)))
    (JS.of_Z 0) None
  = Ok (JS.of_Z 31536000000).
Proof.
  apply (proj1 (proj2 (calculateInterval_zero_resolution
                         (TimeRange.mk 5000 5000
                            (RawTimeRange.mk (Instant 5000) (Instant 5000)))))).
  reflexivity.
Defined.

Lemma digit_value_nonneg (c : ascii) : 0 <= digit_value c.
Proof.
  unfold digit_value, is_digit, between.
  repeat match goal with
         | |- context [if ?b then _ else _] => destruct b eqn:?
         end; try lia;
    match goal with
    | H : (_ && _)%bool = true |- _ => apply andb_true_iff in H; destruct H as [H _];
                                       apply N.leb_le in H; lia
    end.
Qed.

Lemma radix_value_nonneg (s : string) (acc : Z) : 0 <= acc -> 0 <= radix_value 10 acc s.
Proof.
  revert acc. induction s as [| c s IH]; intros acc H; simpl; [exact H |].
  apply IH. pose proof (digit_value_nonneg c). lia.
Qed.

Lemma in_intervals_in_seconds (u : string) (s : Q) :
  In (u, s) intervals_in_seconds ->
  property intervals_in_seconds u = Some s /\ (0 < s)%Q.
Proof.
  unfold intervals_in_seconds. simpl. intros Hin.
  repeat (destruct Hin as [[= <- <-] | Hin]; [split; reflexivity |]). destruct Hin.
Qed.

(** A magnitude followed by a unit, and nothing else: the seconds of the
    unit and the integer part of the magnitude. *)
Lemma describeInterval_unit (negative : bool) (ip frac u : string) (s : Q) :
  run_of is_digit ip -> fraction frac -> property intervals_in_seconds u = Some s ->
  describeInterval (sign_text negative +:+ ip +:+ frac +:+ u)
  = Ok {| sec := s; type := u; count := JS.of_Z (negate_if negative (dec_value ip)) |}.
Proof.
  intros Hip Hfrac Hu.
  assert (Hstop : stops is_digit frac).
  { destruct Hfrac as [-> | (fp & _ & ->)]; [exact I | reflexivity]. }
  destruct (property_units u s Hu) as (_ & c & u' & E & Hc).
  unfold describeInterval.
  rewrite E at 1. rewrite (Number_unit_form negative ip frac c u' Hip Hfrac Hc).
  cbn [JS.truthy].
  rewrite (exec_interval_regex_form negative ip frac u s Hip Hfrac Hu).
  cbn [group Nat.eqb]. rewrite Hu.
  now rewrite (parseInt10_digits negative ip frac Hip Hstop).
Qed.

(** X6: a low limit with a negative magnitude is without effect:
    [intervalToMs] gives a number that is not above zero, which no rung is
    below. *)
Theorem calculateInterval_negative_low_limit (range : TimeRange.t) (resolution : number)
    (ip frac u : string) (s : Q) :
  run_of is_digit ip -> fraction frac -> In (u, s) intervals_in_seconds ->
  calculateInterval range resolution (Some ("-" +:+ ip +:+ frac +:+ u))
  = calculateInterval range resolution None.
Proof.
  intros Hip Hfrac Hin. destruct (in_intervals_in_seconds u s Hin) as [Hu Hs].
  unfold calculateInterval.
  set (rung := roundInterval _).
  assert (Hr : (1 <= inject_Z rung)%Q).
  { change 1%Q with (inject_Z 1). rewrite <- Zle_Qle. apply roundInterval_positive. }
  rewrite append_cons, append_nil. cbn [lowLimitMs].
  change (String "-" (ip +:+ frac +:+ u)) with (sign_text true +:+ ip +:+ frac +:+ u).
  unfold intervalToMs. rewrite (describeInterval_unit true ip frac u s Hip Hfrac Hu).
  cbn [sec count negate_if]. unfold JS.gt, JS.of_Z, JS.mul, JS.lt.
  assert (L : JS.Qltb (inject_Z rung)
                (Qred (Qred (s * inject_Z 1000) * inject_Z (- dec_value ip))) = false).
  { apply Qltb_ge. rewrite !Qred_correct, inject_Z_opp.
    pose proof (radix_value_nonneg ip 0 (Z.le_refl 0)) as Hn. fold (dec_value ip) in Hn.
    rewrite Zle_Qle in Hn. change (inject_Z 0) with 0%Q in Hn.
    apply Qle_trans with 0%Q; [| apply Qle_trans with 1%Q; [discriminate | exact Hr]].
    assert (E : (s * inject_Z 1000 * - inject_Z (dec_value ip)
                 == - (s * inject_Z 1000 * inject_Z (dec_value ip)))%Q) by ring.
    rewrite E.
    apply (Qopp_le_compat 0). apply Qmult_le_0_compat; [| exact Hn].
    apply Qmult_le_0_compat; [now apply Qlt_le_weak | discriminate]. }
  rewrite L.
  assert (L1 : JS.Qltb (inject_Z rung) (inject_Z 1) = false) by now apply Qltb_ge.
  now rewrite L1.
Qed.

Lemma calculateInterval_negative_low_limit_witness :
  calculateInterval (TimeRange.mk 0 3600000 (RawTimeRange.mk (Instant 0) (Instant 3600000)))
    (JS.of_Z 100) (Some "-5m")
  = calculateInterval (TimeRange.mk 0 3600000 (RawTimeRange.mk (Instant 0) (Instant 3600000)))
      (JS.of_Z 100) None.
Proof.
  apply (calculateInterval_negative_low_limit
           (TimeRange.mk 0 3600000 (RawTimeRange.mk (Instant 0) (Instant 3600000)))
           (JS.of_Z 100) "5" EmptyString "m" 60%Q).
  - split; [discriminate | reflexivity].
  - now left.
  - unfold intervals_in_seconds. simpl. tauto.
Defined.

(** X7: whenever [describeInterval] returns, the type is one of the eight
    units and sec is the seconds of that unit in the table; and whenever
    the pattern matches, the unit that it captures is a key of the table,
    so the check of the unit after the match never fails:
    [describeInterval] raises only when the pattern finds nothing. *)
Theorem describeInterval_unit_table (str : string) :
  (forall info : IntervalSpec,
      describeInterval str = Ok info ->
      property intervals_in_seconds (type info) = Some (sec info) /\
      In (type info) ["y"; "M"; "w"; "d"; "h"; "m"; "s"; "ms"]) /\
  (forall matches : list (nat * string),
      exec interval_regex str = Some matches ->
      In (group 2 matches) ["y"; "M"; "w"; "d"; "h"; "m"; "s"; "ms"] /\
      property intervals_in_seconds (group 2 matches) <> None) /\
  (forall e : string, describeInterval str = Throw e -> exec interval_regex str = None).
Proof.
  assert (Hunits : forall u s, property intervals_in_seconds u = Some s ->
                               In u ["y"; "M"; "w"; "d"; "h"; "m"; "s"; "ms"]).
  { intros u s H. destruct (property_units u s H) as [Hin _].
    unfold intervals_in_seconds in Hin. simpl in Hin. simpl.
    repeat (destruct Hin as [[= <- _] | Hin]; [tauto |]). destruct Hin. }
  split; [| split].
  - intros info. unfold describeInterval. destruct (JS.truthy (Number str)).
    + intros [= <-]. cbn [sec type]. split; [reflexivity | simpl; tauto].
    + destruct (exec interval_regex str) as [matches |]; [| discriminate].
      destruct (property intervals_in_seconds (group 2 matches)) as [s |] eqn:E;
        [| discriminate].
      intros [= <-]. cbn [sec type]. split; [exact E | exact (Hunits _ _ E)].
  - intros matches E. destruct (interval_regex_unit str matches E) as [s Hs].
    split; [exact (Hunits _ _ Hs) | congruence].
  - intros e. unfold describeInterval. destruct (JS.truthy (Number str)); [discriminate |].
    destruct (exec interval_regex str) as [matches |] eqn:E; [| reflexivity].
    destruct (interval_regex_unit str matches E) as [s ->]. discriminate.
Qed.

Lemma describeInterval_unit_table_witness :
  property intervals_in_seconds "h" = Some 3600%Q /\
  In "h" ["y"; "M"; "w"; "d"; "h"; "m"; "s"; "ms"].
Proof.
  apply (proj1 (describeInterval_unit_table "every 2h")
           {| sec := 3600; type := "h"; count := JS.of_Z 2 |}).
  vm_compute. reflexivity.
Defined.

(** ** Relative ranges: the other round trip *)

(** X8: a relative range of whole seconds that is made absolute at an
    instant and relative again at the same instant is unchanged, as long as
    the instant and the two ends are valid dates. *)
Theorem relativeToTimeRange_roundtrip (relative : RelativeTimeRange.t) (T : DateTime) :
  valid_instant T ->
  valid_instant (T - RelativeTimeRange.from relative * 1000) ->
  valid_instant (T - RelativeTimeRange.to relative * 1000) ->
  timeRangeToRelative (relativeToTimeRange relative T) T = relative.
Proof.
  intros _ _ _. destruct relative as [from to].
  assert (H : forall n, unix T - unix (subtract_seconds T n) = n).
  { intros n. unfold unix, subtract_seconds.
    replace (T - n * 1000) with (T + (- n) * 1000) by lia.
    rewrite Z.div_add by lia. lia. }
  unfold timeRangeToRelative, relativeToTimeRange.
  cbn [TimeRange.from TimeRange.to RelativeTimeRange.from RelativeTimeRange.to].
  rewrite H. f_equal.
  destruct (Z.eqb_spec to 0) as [-> | _]; [lia | apply H].
Qed.

Lemma relativeToTimeRange_roundtrip_witness :
  timeRangeToRelative (relativeToTimeRange (RelativeTimeRange.mk 3600 0) 1700000000123)
    1700000000123
  = RelativeTimeRange.mk 3600 0.
Proof.
  apply (relativeToTimeRange_roundtrip (RelativeTimeRange.mk 3600 0) 1700000000123);
    unfold valid_instant; simpl; lia.
Defined.

(** X9: for a range that does not end before it starts and does not end
    after now, the offsets are not negative and that of the start is not
    below that of the end. *)
Theorem timeRangeToRelative_past (timeRange : TimeRange.t) (now : DateTime) :
  TimeRange.from timeRange <= TimeRange.to timeRange -> TimeRange.to timeRange <= now ->
  let relative := timeRangeToRelative timeRange now in
  0 <= RelativeTimeRange.to relative <= RelativeTimeRange.from relative.
Proof.
  intros H1 H2. unfold timeRangeToRelative, unix.
  cbn [RelativeTimeRange.from RelativeTimeRange.to].
  pose proof (Z.div_le_mono _ _ 1000 ltac:(lia) H1).
  pose proof (Z.div_le_mono _ _ 1000 ltac:(lia) H2).
  lia.
Qed.

Lemma timeRangeToRelative_past_witness :
  let relative :=
    timeRangeToRelative (TimeRange.mk 1000 61500 (RawTimeRange.mk (Instant 1000) (Text "now")))
      90000 in
  0 <= RelativeTimeRange.to relative <= RelativeTimeRange.from relative.
Proof.
  apply (timeRangeToRelative_past
           (TimeRange.mk 1000 61500 (RawTimeRange.mk (Instant 1000) (Text "now"))) 90000);
    simpl; lia.
Defined.

(** ** Decomposing an expression *)

Lemma reach_Bol (s : state) : pos s = 0%nat -> reach Bol s EmptyString [] s.
Proof.
  intros H. repeat split.
  - cbn [run]. now rewrite H.
  - cbn. lia.
Qed.

Lemma exec_now_regex_form (sign : ascii) (ds : string) (w : ascii) (tl : string) :
  is_sign sign = true -> run_of is_digit ds -> is_word w = true -> is_digit w = false ->
  exec now_regex ("now" +:+ String sign (ds +:+ String w tl))
  = Some [(3%nat, String w EmptyString); (2%nat, ds); (1%nat, String sign EmptyString)].
Proof.
  intros Hsign Hds Hw Hnd.
  set (s0 := start 0 ("now" +:+ String sign (ds +:+ String w tl))).
  pose proof (reach_Bol s0 eq_refl) as R0.
  pose proof (reach_Lit "now" (String sign (ds +:+ String w tl)) s0 eq_refl) as R1.
  set (s1 := advance (String.length "now") (String sign (ds +:+ String w tl)) s0) in R1.
  pose proof (reach_Grp 1 _ _ _ _ _
                (reach_Cls is_sign sign (ds +:+ String w tl) s1 eq_refl Hsign)) as R2.
  set (s2 := close_group 1 s1 (advance 1 (ds +:+ String w tl) s1)) in R2.
  pose proof (reach_Grp 2 _ _ _ _ _
                (reach_Plus is_digit ds (String w tl) s2 eq_refl Hds Hnd)) as R3.
  set (s3 := close_group 2 s2 (advance (String.length ds) (String w tl) s2)) in R3.
  pose proof (reach_Grp 3 _ _ _ _ _ (reach_Cls is_word w tl s3 eq_refl Hw)) as R4.
  pose proof (reach_Seq _ _ _ _ _ _ _ _ _ R3 R4) as R34.
  pose proof (reach_Seq _ _ _ _ _ _ _ _ _ R2 R34) as R234.
  pose proof (reach_Seq _ _ _ _ _ _ _ _ _ R1 R234) as R1234.
  pose proof (reach_Seq _ _ _ _ _ _ _ _ _ R0 R1234) as R.
  exact (search_reach _ _ _ _ _ _ R).
Qed.

Lemma span_units_spans (u : string) :
  In u span_units ->
  exists (w : ascii) (span : Span),
    u = String w EmptyString /\ is_word w = true /\ is_digit w = false /\
    Ascii.eqb w "n" = false /\
    spans !! u = Some span /\ span_section span = None.
Proof.
  unfold span_units. simpl. intros H.
  repeat (destruct H as [<- | H];
          [eexists _, _; repeat split; try reflexivity; vm_compute; reflexivity |]).
  destruct H.
Qed.

(** What [describeTextRange] makes of "now", a sign, digits and a unit of
    the span table when the index has no frame for it. *)
Lemma describe_normalized_amount (last : bool) (sign : ascii) (ds u tl : string) :
  is_sign sign = true -> run_of is_digit ds -> In u span_units ->
  rangeIndex !! (("now" +:+ String sign (ds +:+ u +:+ tl)) +:+ " to now") = None ->
  describe_normalized last ("now" +:+ String sign (ds +:+ u +:+ tl))
  = let e := "now" +:+ String sign (ds +:+ u +:+ tl) in
    TimeOption.mk (TimeOption.from (candidate last e)) (TimeOption.to (candidate last e))
      (Some (amount_display last (dec_value ds) u)) None false.
Proof.
  intros Hsign Hds Hu Hmiss.
  destruct (span_units_spans u Hu) as (w & span & -> & Hw & Hnd & _ & Hspan & Hsec).
  unfold describe_normalized. rewrite Hmiss. cbv zeta.
  rewrite (append_cons w EmptyString tl), (append_nil tl).
  rewrite (exec_now_regex_form sign ds w tl Hsign Hds Hw Hnd).
  cbn [group Nat.eqb]. rewrite Hspan, Hsec.
  pose proof (parseInt10_digits false ds EmptyString Hds I) as HP.
  unfold sign_text in HP. rewrite append_nil, append_empty_r in HP. rewrite HP.
  unfold amount_display, unit_name, gt_one, negate_if. rewrite Hspan. reflexivity.
Qed.

Lemma prefix_append (p s : string) : String.prefix p (p +:+ s) = true.
Proof. apply String.prefix_correct, substring_append. Qed.

(** No frame of the index is found under an expression that starts with
    "now+". *)
Lemma rangeIndex_forward_miss (e : string) :
  rangeIndex !! (("now+" +:+ e) +:+ " to now") = None.
Proof.
  destruct (rangeIndex !! _) as [o |] eqn:E; [| reflexivity].
  apply rangeIndex_to_now in E. destruct E as (Hin & Hfrom & _).
  assert (Hall : forallb (fun o => negb (String.prefix "now+" (TimeOption.from o)))
                   rangeOptions = true) by (vm_compute; reflexivity).
  rewrite forallb_forall in Hall. apply Hall in Hin.
  now rewrite Hfrom, prefix_append in Hin.
Qed.

Lemma all_cls_append (p : ascii -> bool) (a b : string) :
  all_cls p (a +:+ b) = all_cls p a && all_cls p b.
Proof.
  induction a as [| c a IH]; [now rewrite append_nil |].
  rewrite append_cons. cbn [all_cls]. now rewrite IH, andb_assoc.
Qed.

Lemma all_cls_weaken (p q : ascii -> bool) (s : string) :
  (forall c, p c = true -> q c = true) -> all_cls p s = true -> all_cls q s = true.
Proof.
  intros Hpq. induction s as [| c s IH]; [reflexivity |].
  cbn [all_cls]. rewrite !andb_true_iff. intros [H1 H2]. auto.
Qed.

Lemma indexOf_from_no_n (i : Z) (s : string) :
  all_cls (fun c => negb (Ascii.eqb c "n")) s = true -> indexOf_from i "now" s = -1.
Proof.
  revert i. induction s as [| c s IH]; intros i H; [reflexivity |].
  cbn [all_cls] in H. apply andb_true_iff in H. destruct H as [Hc Hs].
  cbn [indexOf_from String.prefix].
  destruct (ascii_dec "n" c) as [<- | _]; [discriminate |].
  now apply IH.
Qed.

(** Digits and a unit hold no "now". *)
Lemma indexOf_now_amount (ds u : string) :
  run_of is_digit ds -> In u span_units ->
  indexOf (ds +:+ u) "now" = -1 /\ indexOf ("+" +:+ ds +:+ u) "now" = -1.
Proof.
  intros [_ Hds] Hu.
  destruct (span_units_spans u Hu) as (w & _ & -> & _ & _ & Hn & _).
  assert (H : all_cls (fun c => negb (Ascii.eqb c "n")) (ds +:+ String w EmptyString) = true).
  { rewrite all_cls_append. apply andb_true_iff. split.
    - apply (all_cls_weaken is_digit); [| exact Hds].
      intros c Hc. now rewrite (digit_not c "n" Hc).
    - cbn [all_cls]. now rewrite Hn. }
  split.
  - now apply indexOf_from_no_n.
  - unfold indexOf. rewrite append_cons, append_nil.
    cbn [indexOf_from String.prefix].
    destruct (ascii_dec "n" "+") as [[=] | _]. now apply indexOf_from_no_n.
Qed.

(** X10: digits of an amount of at most 2^53 - 1 and a unit of the span
    table, alone or after "now-", are described as the last so many units
    up to now, unless the index has a frame for them: the display is
    "Last", the amount without its leading zeros and the display of the
    unit, with an "s" when the amount is above one. *)
Theorem describeTextRange_last (ds u : string) :
  run_of is_digit ds -> safe_integer (dec_value ds) -> In u span_units ->
  rangeIndex !! (("now-" +:+ ds +:+ u) +:+ " to now") = None ->
  let described :=
    TimeOption.mk ("now-" +:+ ds +:+ u) "now"
      (Some (amount_display true (dec_value ds) u)) None false in
  describeTextRange (ds +:+ u) = described /\
  describeTextRange ("now-" +:+ ds +:+ u) = described.
Proof.
  intros Hds _ Hu Hmiss.
  destruct (run_of_cons _ _ Hds) as (d & ds' & E & Hd & _).
  assert (Hkey : ("now" +:+ String "-" (ds +:+ u +:+ EmptyString)) = "now-" +:+ ds +:+ u).
  { now rewrite append_empty_r. }
  assert (Hm : rangeIndex !! (("now" +:+ String "-" (ds +:+ u +:+ EmptyString)) +:+ " to now")
               = None).
  { rewrite Hkey. exact Hmiss. }
  pose proof (describe_normalized_amount true "-" ds u EmptyString eq_refl Hds Hu Hm) as HD.
  cbv zeta in HD. rewrite Hkey in HD. cbn [candidate TimeOption.from TimeOption.to] in HD.
  cbv zeta. split.
  - rewrite describeTextRange_normalized.
    assert (HL : isLast (ds +:+ u) = true).
    { unfold isLast. rewrite indexOf_zero. subst ds. rewrite append_cons.
      cbn [String.prefix]. destruct (ascii_dec "+" d) as [e | _]; [| reflexivity].
      exfalso. rewrite <- e in Hd. discriminate Hd. }
    assert (HN : normalized (ds +:+ u) = "now-" +:+ ds +:+ u).
    { unfold normalized. fold (isLast (ds +:+ u)). rewrite HL.
      now rewrite (proj1 (indexOf_now_amount ds u Hds Hu)). }
    now rewrite HL, HN.
  - rewrite describeTextRange_normalized.
    assert (HL : isLast ("now-" +:+ ds +:+ u) = true)
      by (unfold isLast; rewrite indexOf_zero; reflexivity).
    assert (HN : normalized ("now-" +:+ ds +:+ u) = "now-" +:+ ds +:+ u) by reflexivity.
    now rewrite HL, HN.
Qed.

Lemma describeTextRange_last_witness :
  describeTextRange "013h"
  = TimeOption.mk "now-013h" "now" (Some (amount_display true 13 "h")) None false.
Proof.
  apply (describeTextRange_last "013" "h").
  - split; [discriminate | reflexivity].
  - unfold safe_integer. vm_compute. split; discriminate.
  - unfold span_units. simpl. tauto.
  - vm_compute. reflexivity.
Defined.

(** X11: "+", digits of an amount of at most 2^53 - 1 and a unit of the
    span table are described as the next so many units from now; the
    frames of the index are never looked at for them.  After "now+" the
    same digits and unit are described as a "Last" range that starts at the
    expression and ends at now. *)
Theorem describeTextRange_next (ds u : string) :
  run_of is_digit ds -> safe_integer (dec_value ds) -> In u span_units ->
  describeTextRange ("+" +:+ ds +:+ u)
  = TimeOption.mk "now" ("now+" +:+ ds +:+ u)
      (Some (amount_display false (dec_value ds) u)) None false /\
  describeTextRange ("now+" +:+ ds +:+ u)
  = TimeOption.mk ("now+" +:+ ds +:+ u) "now"
      (Some (amount_display true (dec_value ds) u)) None false.
Proof.
  intros Hds _ Hu.
  assert (Hkey : ("now" +:+ String "+" (ds +:+ u +:+ EmptyString)) = "now+" +:+ ds +:+ u).
  { now rewrite append_empty_r. }
  assert (Hm : rangeIndex !! (("now" +:+ String "+" (ds +:+ u +:+ EmptyString)) +:+ " to now")
               = None).
  { rewrite Hkey. apply rangeIndex_forward_miss. }
  pose proof (describe_normalized_amount false "+" ds u EmptyString eq_refl Hds Hu Hm) as HF.
  pose proof (describe_normalized_amount true "+" ds u EmptyString eq_refl Hds Hu Hm) as HL.
  cbv zeta in HF, HL. rewrite Hkey in HF, HL.
  cbn [candidate TimeOption.from TimeOption.to] in HF, HL.
  split.
  - rewrite describeTextRange_normalized.
    assert (H1 : isLast ("+" +:+ ds +:+ u) = false)
      by (unfold isLast; now rewrite indexOf_zero, prefix_append).
    assert (H2 : normalized ("+" +:+ ds +:+ u) = "now+" +:+ ds +:+ u).
    { unfold normalized. fold (isLast ("+" +:+ ds +:+ u)). rewrite H1.
      now rewrite (proj2 (indexOf_now_amount ds u Hds Hu)). }
    now rewrite H1, H2.
  - rewrite describeTextRange_normalized.
    assert (H1 : isLast ("now+" +:+ ds +:+ u) = true)
      by (unfold isLast; rewrite indexOf_zero; reflexivity).
    assert (H2 : normalized ("now+" +:+ ds +:+ u) = "now+" +:+ ds +:+ u) by reflexivity.
    now rewrite H1, H2.
Qed.

Lemma describeTextRange_next_witness :
  describeTextRange "+5m"
  = TimeOption.mk "now" "now+5m" (Some (amount_display false 5 "m")) None false /\
  describeTextRange "now+5m"
  = TimeOption.mk "now+5m" "now" (Some (amount_display true 5 "m")) None false.
Proof.
  apply (describeTextRange_next "5" "m").
  - split; [discriminate | reflexivity].
  - unfold safe_integer. vm_compute. split; discriminate.
  - unfold span_units. simpl. tauto.
Defined.

(** ** Describing a raw range *)

Lemma rangeIndex_presets (o : TimeOption.t) :
  In o presets -> rangeIndex !! frame_key o = Some o.
Proof.
  revert o. apply List.Forall_forall.
  apply (bool_decide_unpack
           (Forall (fun o => rangeIndex !! frame_key o = Some o) presets)).
  vm_compute. exact I.
Qed.

Lemma rangeOptions_hold_now (o : TimeOption.t) :
  In o rangeOptions -> (indexOf (TimeOption.from o) "now" =? -1)%Z = false.
Proof.
  intros H.
  assert (Hall : forallb (fun o => negb (indexOf (TimeOption.from o) "now" =? -1)%Z)
                   rangeOptions = true) by (vm_compute; reflexivity).
  rewrite forallb_forall in Hall. apply Hall in H. now apply negb_true_iff in H.
Qed.

(** X12: [describeTimeRange] describes the raw range of every frame of
    the two tables, the hidden one included, by the display of the frame,
    whatever the time zone and the formatters. *)
Theorem describeTimeRange_presets (Parsed : Type) (toString : DateTime -> string)
    (dateTimeFormat : DateTime -> option string -> string)
    (dateTimeFormatTimeAgo : Parsed -> option string -> string)
    (dateMath_parse : string -> bool -> string -> option Parsed)
    (o : TimeOption.t) (timeZone : option string) :
  In o presets ->
  describeTimeRange Parsed toString dateTimeFormat dateTimeFormatTimeAgo dateMath_parse
    (frame_raw o) timeZone
  = TimeOption.display o /\
  TimeOption.display o <> None.
Proof.
  intros H. split.
  - unfold describeTimeRange, frame_raw.
    cbn [input_toString RawTimeRange.from RawTimeRange.to].
    fold (frame_key o). now rewrite (rangeIndex_presets o H).
  - revert o H. apply List.Forall_forall.
    apply (bool_decide_unpack (Forall (fun o => TimeOption.display o <> None) presets)).
    vm_compute. exact I.
Qed.

Lemma describeTimeRange_presets_witness :
  describeTimeRange unit (fun _ => EmptyString) (fun _ _ => EmptyString)
    (fun _ _ => EmptyString) (fun _ _ _ => None)
    (RawTimeRange.mk (Text "now") (Text "now+30m")) None
  = Some "Next 30 minutes".
Proof.
  apply (describeTimeRange_presets unit (fun _ => EmptyString) (fun _ _ => EmptyString)
           (fun _ _ => EmptyString) (fun _ _ _ => None)
           (frame "now" "now+30m" "Next 30 minutes") None).
  unfold presets. apply in_or_app. right. simpl. tauto.
Defined.

(** X13: for a raw range of two texts that ends at "now",
    [describeTimeRange] returns the display that [describeTextRange] gives
    for the start, whether a frame of the index is found or not. *)
Theorem describeTimeRange_to_now (Parsed : Type) (toString : DateTime -> string)
    (dateTimeFormat : DateTime -> option string -> string)
    (dateTimeFormatTimeAgo : Parsed -> option string -> string)
    (dateMath_parse : string -> bool -> string -> option Parsed)
    (from : string) (timeZone : option string) :
  describeTimeRange Parsed toString dateTimeFormat dateTimeFormatTimeAgo dateMath_parse
    (RawTimeRange.mk (Text from) (Text "now")) timeZone
  = TimeOption.display (describeTextRange from).
Proof.
  unfold describeTimeRange. cbn [input_toString RawTimeRange.from RawTimeRange.to].
  change (" to " +:+ "now") with " to now".
  destruct (rangeIndex !! (from +:+ " to now")) as [o |] eqn:E; [| reflexivity].
  pose proof (rangeIndex_to_now _ _ E) as (Hin & Hfrom & _). subst from.
  assert (HN : normalized (TimeOption.from o) = TimeOption.from o).
  { unfold normalized. now rewrite (rangeOptions_hold_now o Hin). }
  rewrite <- HN in E. now rewrite (describeTextRange_hit _ _ E).
Qed.

(** ** Relative and fiscal ranges *)

(** X14: a range made from offsets, and a range converted from a raw
    range that holds no date math, carry instants as their raw sides: they
    are neither relative nor fiscal. *)
Theorem frozen_range_not_relative :
  (forall (relative : RelativeTimeRange.t) (now : DateTime),
      let range := relativeToTimeRange relative now in
      isRelativeTimeRange (TimeRange.raw range) = false /\ isFiscal range = false) /\
  (forall (dateTimeParse : DateTimeInput -> DateTimeOptionsWhenParsing -> DateTime)
          (isMathString : DateTimeInput -> bool)
          (raw : RawTimeRange.t) (timeZone : option string) (fiscalYearStartMonth : option Z),
      isMathString (RawTimeRange.from raw) = false ->
      isMathString (RawTimeRange.to raw) = false ->
      let range := convertRawToRange dateTimeParse isMathString raw timeZone
                     fiscalYearStartMonth in
      isRelativeTimeRange (TimeRange.raw range) = false /\ isFiscal range = false).
Proof.
  split.
  - intros relative now. split; reflexivity.
  - intros dateTimeParse isMathString raw timeZone fiscalYearStartMonth H1 H2.
    unfold convertRawToRange. rewrite H1, H2. split; reflexivity.
Qed.

Lemma frozen_range_not_relative_witness :
  let range :=
    convertRawToRange (fun _ o => if roundUp o then 9 else 5) (fun _ => false)
      (RawTimeRange.mk (Text "2021-01-01") (Text "2021-01-02")) None None in
  isRelativeTimeRange (TimeRange.raw range) = false /\ isFiscal range = false.
Proof.
  apply (proj2 frozen_range_not_relative (fun _ o => if roundUp o then 9 else 5)
           (fun _ => false)); reflexivity.
Defined.

(** X15: the raw range of every frame of the two tables is relative, and
    it is fiscal exactly when the start of the frame is rounded to a fiscal
    unit ("/f"). *)
Theorem presets_relative_fiscal (o : TimeOption.t) (from to : DateTime) :
  In o presets ->
  isRelativeTimeRange (frame_raw o) = true /\
  isFiscal (TimeRange.mk from to (frame_raw o))
  = (0 <=? indexOf (TimeOption.from o) "/f")%Z.
Proof.
  change (isFiscal (TimeRange.mk from to (frame_raw o)))
    with (isFiscal (TimeRange.mk 0 0 (frame_raw o))).
  revert o. apply List.Forall_forall.
  apply (bool_decide_unpack
           (Forall (fun o => isRelativeTimeRange (frame_raw o) = true /\
                             isFiscal (TimeRange.mk 0 0 (frame_raw o))
                             = (0 <=? indexOf (TimeOption.from o) "/f")%Z) presets)).
  vm_compute. exact I.
Qed.

Lemma presets_relative_fiscal_witness :
  isRelativeTimeRange (frame_raw (frame "now-1y/fy" "now-1y/fy" "Предишната фискална година"))
  = true /\
  isFiscal (TimeRange.mk 0 0
              (frame_raw (frame "now-1y/fy" "now-1y/fy" "Предишната фискална година")))
  = (0 <=? indexOf "now-1y/fy" "/f")%Z.
Proof.
  apply (presets_relative_fiscal
           (frame "now-1y/fy" "now-1y/fy" "Предишната фискална година") 0 0).
  unfold presets. apply in_or_app. left. simpl. tauto.
Defined.

(** ** Numbers as text *)

Lemma string_of_uint_digits (d : Decimal.uint) :
  all_cls is_digit (NilEmpty.string_of_uint d) = true.
Proof. induction d; simpl; auto. Qed.

Lemma radix_value_uint_acc (d : Decimal.uint) (acc : positive) :
  radix_value 10 (Z.pos acc) (NilEmpty.string_of_uint d) = Z.pos (Pos.of_uint_acc d acc).
Proof.
  revert acc. induction d; intros acc; cbn [NilEmpty.string_of_uint radix_value Pos.of_uint_acc];
    [reflexivity | ..];
    match goal with
    | |- radix_value 10 ?a _ = _ =>
        match goal with
        | |- _ = Z.pos (Pos.of_uint_acc _ ?b) =>
            replace a with (Z.pos b) by (vm_compute digit_value; lia)
        end
    end; apply IHd.
Qed.

Lemma radix_value_uint (d : Decimal.uint) :
  radix_value 10 0 (NilEmpty.string_of_uint d) = Z.of_N (Pos.of_uint d).
Proof.
  induction d; cbn [NilEmpty.string_of_uint radix_value Pos.of_uint];
    [reflexivity | exact IHd | ..];
    match goal with
    | |- radix_value 10 ?a _ = Z.of_N (N.pos (Pos.of_uint_acc _ ?b)) =>
        replace a with (Z.pos b) by (vm_compute; reflexivity)
    end; apply radix_value_uint_acc.
Qed.

(** The text of a non-negative integer is a run of digits that reads
    back as the integer. *)
Lemma int_toString_digits (m : Z) :
  0 <= m ->
  run_of is_digit (int_toString (Some m)) /\ dec_value (int_toString (Some m)) = m.
Proof.
  intros H. destruct m as [| p | p]; [| | lia].
  - split; [split; [discriminate | reflexivity] | reflexivity].
  - unfold int_toString, Z.to_int, NilEmpty.string_of_int. split; [split |].
    + pose proof (Unsigned.to_uint_nonnil p) as Hn.
      destruct (Pos.to_uint p); [congruence | discriminate ..].
    + apply string_of_uint_digits.
    + unfold dec_value. now rewrite radix_value_uint, Unsigned.of_to.
Qed.

(** ** Whole numbers in the arithmetic of durations *)

Lemma Qred_inject_Z (q : Q) (z : Z) : (q == inject_Z z)%Q -> Qred q = inject_Z z.
Proof.
  intros H. rewrite (Qred_complete _ _ H). apply Qred_iff. simpl. apply Z.gcd_1_r.
Qed.

Lemma Math_floor_of_Z (z : Z) : Math_floor (JS.of_Z z) = Int z.
Proof. unfold Math_floor, JS.of_Z. now rewrite Qfloor_Z. Qed.

Lemma div_of_Z (n c : Z) :
  c <> 0 -> JS.div (JS.of_Z n) (JS.of_Z c) = JS.Fin (Qred (inject_Z n / inject_Z c)).
Proof.
  intros Hc. unfold JS.div, JS.of_Z. rewrite Qeq_bool_inject_Z.
  now destruct (Z.eqb_spec c 0).
Qed.

Lemma floor_div (n c : Z) :
  c <> 0 -> Math_floor (JS.div (JS.of_Z n) (JS.of_Z c)) = Int (n / c).
Proof.
  intros Hc. rewrite (div_of_Z n c Hc). unfold Math_floor.
  now rewrite Qred_correct, <- Zdiv_Qdiv.
Qed.

Lemma Qtruncate_div (n c : Z) : 0 <= n -> 0 < c -> Qtruncate (inject_Z n / inject_Z c) = n / c.
Proof.
  intros Hn Hc. unfold Qtruncate.
  assert (H : JS.Qsign_neg (inject_Z n / inject_Z c) = false).
  { apply Qltb_ge. apply Qle_shift_div_l.
    - change 0%Q with (inject_Z 0). now rewrite <- Zlt_Qlt.
    - rewrite Qmult_0_l. change 0%Q with (inject_Z 0). now rewrite <- Zle_Qle. }
  rewrite H. symmetry. apply Zdiv_Qdiv.
Qed.

Lemma rem_of_Z (n c : Z) :
  0 <= n -> 0 < c -> rem (JS.of_Z n) (JS.of_Z c) = JS.of_Z (n mod c).
Proof.
  intros Hn Hc. unfold rem, JS.of_Z. rewrite Qeq_bool_inject_Z.
  destruct (Z.eqb_spec c 0); [lia |].
  rewrite (Qtruncate_div n c Hn Hc). f_equal. apply Qred_inject_Z.
  unfold Qminus. rewrite <- inject_Z_mult, <- inject_Z_opp, <- inject_Z_plus.
  apply inject_Z_injective. rewrite Z.mod_eq by lia. lia.
Qed.

Lemma mul_of_Z (a b : Z) : JS.mul (JS.of_Z a) (JS.of_Z b) = JS.of_Z (a * b).
Proof.
  unfold JS.mul, JS.of_Z. f_equal. apply Qred_inject_Z. now rewrite inject_Z_mult.
Qed.

Lemma toFixed0_of_Z (z : Z) : toFixed0 (JS.of_Z z) = Int z.
Proof.
  unfold toFixed0, JS.of_Z. rewrite Qsign_neg_inject_Z. f_equal.
  destruct (Z.ltb_spec z 0).
  - rewrite <- inject_Z_opp. unfold Qfloor, Qplus, inject_Z. cbn [Qnum Qden].
    change (Z.pos (1 * 2)) with 2. Z.div_mod_to_equations. lia.
  - unfold Qfloor, Qplus, inject_Z. cbn [Qnum Qden].
    change (Z.pos (1 * 2)) with 2. Z.div_mod_to_equations. lia.
Qed.

(** The nearest second of a non-negative number of milliseconds. *)
Lemma toFixed0_ms (ms : Z) :
  0 <= ms -> toFixed0 (JS.div (JS.of_Z ms) (JS.of_Z 1000)) = Int ((ms + 500) / 1000).
Proof.
  intros H. rewrite div_of_Z by lia. unfold toFixed0.
  assert (Hs : JS.Qsign_neg (Qred (inject_Z ms / inject_Z 1000)) = false).
  { apply Qltb_ge. rewrite Qred_correct. apply Qle_shift_div_l; [reflexivity |].
    rewrite Qmult_0_l. change 0%Q with (inject_Z 0). now rewrite <- Zle_Qle. }
  rewrite Hs. f_equal. rewrite Qred_correct, (Zdiv_Qdiv (ms + 500) 1000).
  apply Qfloor_comp. rewrite inject_Z_plus. unfold Qeq, Qdiv, Qplus, Qmult, Qinv, inject_Z.
  cbn [Qnum Qden]. lia.
Qed.

(** ** The label of a duration *)

(** [secondsToHms] on a whole number of seconds that is not negative. *)
Lemma secondsToHms_of_Z (n : Z) :
  0 <= n ->
  secondsToHms (JS.of_Z n)
  = if negb (n / 31536000 =? 0)%Z then int_toString (Some (n / 31536000)) +:+ "y"
    else if negb (n mod 31536000 / 86400 =? 0)%Z
    then int_toString (Some (n mod 31536000 / 86400)) +:+ "d"
    else if negb ((n mod 31536000) mod 86400 / 3600 =? 0)%Z
    then int_toString (Some ((n mod 31536000) mod 86400 / 3600)) +:+ "h"
    else if negb (((n mod 31536000) mod 86400) mod 3600 / 60 =? 0)%Z
    then int_toString (Some (((n mod 31536000) mod 86400) mod 3600 / 60)) +:+ "m"
    else if negb ((((n mod 31536000) mod 86400) mod 3600) mod 60 =? 0)%Z
    then int_toString (Some ((((n mod 31536000) mod 86400) mod 3600) mod 60)) +:+ "s"
    else if negb (n * 1000 =? 0)%Z then int_toString (Some (n * 1000)) +:+ "ms"
    else "less than a millisecond".
Proof.
  intros H. unfold secondsToHms. cbv zeta.
  rewrite (rem_of_Z n 31536000) by lia.
  rewrite (rem_of_Z (n mod 31536000) 86400) by (try apply Z.mod_pos_bound; lia).
  rewrite (rem_of_Z ((n mod 31536000) mod 86400) 3600) by (try apply Z.mod_pos_bound; lia).
  rewrite (rem_of_Z (((n mod 31536000) mod 86400) mod 3600) 60)
    by (try apply Z.mod_pos_bound; lia).
  rewrite !floor_div by lia. rewrite Math_floor_of_Z, mul_of_Z, Math_floor_of_Z.
  reflexivity.
Qed.

(** The unit of [label_units] that [secondsToHms] shows for a whole
    number of seconds: the largest one that is not above the number. *)
Lemma secondsToHms_unit (n c : Z) (u : string) :
  In (u, c) label_units -> c <= n ->
  (forall c' : Z, In c' (map snd label_units) -> c < c' -> n < c') ->
  secondsToHms (JS.of_Z n) = int_toString (Some (n / c)) +:+ u.
Proof.
  intros Hu Hc Hnext. unfold label_units in Hu, Hnext. simpl in Hu, Hnext.
  assert (Hz : forall a : Z, a <> 0 -> negb (a =? 0)%Z = true).
  { intros a Ha. now destruct (Z.eqb_spec a 0). }
  assert (Hsmall : forall c' : Z, 0 <= n -> n < c' ->
                                  (n / c' =? 0)%Z = true /\ n mod c' = n).
  { intros c' H1 H2. rewrite Z.div_small, Z.mod_small by lia. now split. }
  destruct Hu as [[= <- <-] | [[= <- <-] | [[= <- <-] | [[= <- <-] | [[= <- <-] | []]]]]];
    rewrite secondsToHms_of_Z by lia.
  - rewrite Hz by (Z.div_mod_to_equations; lia). reflexivity.
  - destruct (Hsmall 31536000) as [-> ->]; [lia | apply Hnext; [tauto | lia] |].
    cbn [negb]. rewrite Hz by (Z.div_mod_to_equations; lia). reflexivity.
  - destruct (Hsmall 31536000) as [-> ->]; [lia | apply Hnext; [tauto | lia] |].
    destruct (Hsmall 86400) as [-> ->]; [lia | apply Hnext; [tauto | lia] |].
    cbn [negb]. rewrite Hz by (Z.div_mod_to_equations; lia). reflexivity.
  - destruct (Hsmall 31536000) as [-> ->]; [lia | apply Hnext; [tauto | lia] |].
    destruct (Hsmall 86400) as [-> ->]; [lia | apply Hnext; [tauto | lia] |].
    destruct (Hsmall 3600) as [-> ->]; [lia | apply Hnext; [tauto | lia] |].
    cbn [negb]. rewrite Hz by (Z.div_mod_to_equations; lia). reflexivity.
  - destruct (Hsmall 31536000) as [-> ->]; [lia | apply Hnext; [tauto | lia] |].
    destruct (Hsmall 86400) as [-> ->]; [lia | apply Hnext; [tauto | lia] |].
    destruct (Hsmall 3600) as [-> ->]; [lia | apply Hnext; [tauto | lia] |].
    destruct (Hsmall 60) as [-> ->]; [lia | apply Hnext; [tauto | lia] |].
    cbn [negb]. rewrite Z.div_1_r. rewrite Hz by lia. reflexivity.
Qed.

(** X16: of a whole number of seconds [secondsToHms] shows the largest
    unit that is not zero, rounded down, and drops the rest: years from one
    year on, then days, hours, minutes, seconds; zero seconds are "less
    than a millisecond".  A negative number of seconds is shown in years,
    rounded down too. *)
Theorem secondsToHms_largest_unit (n : Z) :
  safe_integer n ->
  (n < 0 \/ 31536000 <= n ->
   secondsToHms (JS.of_Z n) = int_toString (Some (n / 31536000)) +:+ "y") /\
  (86400 <= n < 31536000 ->
   secondsToHms (JS.of_Z n) = int_toString (Some (n / 86400)) +:+ "d") /\
  (3600 <= n < 86400 ->
   secondsToHms (JS.of_Z n) = int_toString (Some (n / 3600)) +:+ "h") /\
  (60 <= n < 3600 ->
   secondsToHms (JS.of_Z n) = int_toString (Some (n / 60)) +:+ "m") /\
  (1 <= n < 60 ->
   secondsToHms (JS.of_Z n) = int_toString (Some n) +:+ "s") /\
  (n = 0 -> secondsToHms (JS.of_Z n) = "less than a millisecond").
Proof.
  intros _.
  assert (Hunit : forall (u : string) (c : Z),
             In (u, c) label_units -> c <= n ->
             (forall c' : Z, In c' [31536000; 86400; 3600; 60; 1] -> c < c' -> n < c') ->
             secondsToHms (JS.of_Z n) = int_toString (Some (n / c)) +:+ u)
    by (intros u c; apply secondsToHms_unit).
  split; [| split; [| split; [| split; [| split]]]].
  - intros [H | H].
    + unfold secondsToHms. cbv zeta. rewrite floor_div by lia.
      cbn [integral_truthy integral_toString].
      destruct (Z.eqb_spec (n / 31536000) 0) as [E | _]; [| reflexivity].
      exfalso. revert E. Z.div_mod_to_equations. lia.
    + apply Hunit; [unfold label_units; simpl; tauto | lia |].
      intros c' Hc'. simpl in Hc'. lia.
  - intros H. apply Hunit; [unfold label_units; simpl; tauto | lia |].
    intros c' Hc'. simpl in Hc'. lia.
  - intros H. apply Hunit; [unfold label_units; simpl; tauto | lia |].
    intros c' Hc'. simpl in Hc'. lia.
  - intros H. apply Hunit; [unfold label_units; simpl; tauto | lia |].
    intros c' Hc'. simpl in Hc'. lia.
  - intros H. rewrite <- (Z.div_1_r n) at 2.
    apply Hunit; [unfold label_units; simpl; tauto | lia |].
    intros c' Hc'. simpl in Hc'. lia.
  - intros ->. vm_compute. reflexivity.
Qed.

Lemma secondsToHms_largest_unit_witness :
  secondsToHms (JS.of_Z 5400) = int_toString (Some (5400 / 3600)) +:+ "h".
Proof.
  apply (secondsToHms_largest_unit 5400); [unfold safe_integer; lia | lia].
Defined.

Lemma whole_units_seconds (u : string) (c : Z) :
  In (u, c) whole_units -> property intervals_in_seconds u = Some (inject_Z c) /\ 0 < c.
Proof.
  unfold whole_units. simpl. intros H.
  repeat (destruct H as [[= <- <-] | H]; [split; [reflexivity | lia] |]). destruct H.
Qed.

(** The text of a non-negative integer followed by a unit of whole
    seconds reads back as so many units. *)
Lemma intervalToSeconds_text (m : Z) (u : string) (c : Z) :
  0 <= m -> In (u, c) whole_units ->
  intervalToSeconds (int_toString (Some m) +:+ u) = Ok (JS.of_Z (c * m)) /\
  intervalToMs (int_toString (Some m) +:+ u) = Ok (JS.of_Z (c * 1000 * m)).
Proof.
  intros Hm Hu. destruct (whole_units_seconds u c Hu) as [Hp _].
  destruct (int_toString_digits m Hm) as [Hds Hv].
  pose proof (describeInterval_unit false _ EmptyString u _ Hds (or_introl eq_refl) Hp) as HD.
  unfold sign_text in HD. rewrite !append_nil in HD. cbn [negate_if] in HD. rewrite Hv in HD.
  unfold intervalToSeconds, intervalToMs. rewrite HD. cbn [sec count].
  change (JS.Fin (inject_Z c)) with (JS.of_Z c). now rewrite !mul_of_Z.
Qed.

(** A label of so many units is read back as so many units. *)
Lemma label_reads_back (n c : Z) (u : string) :
  In (u, c) whole_units -> c <= n ->
  secondsToHms (JS.of_Z n) = int_toString (Some (n / c)) +:+ u ->
  intervalToSeconds (secondsToHms (JS.of_Z n)) = Ok (JS.of_Z (c * (n / c))) /\
  intervalToMs (secondsToHms (JS.of_Z n)) = Ok (JS.of_Z (1000 * (c * (n / c)))) /\
  c * (n / c) <= n < 2 * (c * (n / c)).
Proof.
  intros Hu Hc ->. destruct (whole_units_seconds u c Hu) as [_ Hpos].
  assert (Hq : 0 <= n / c) by (apply Z.div_pos; lia).
  destruct (intervalToSeconds_text (n / c) u c Hq Hu) as [E1 E2].
  rewrite E1, E2.
  split; [reflexivity | split; [f_equal; f_equal; lia |]].
  assert (1 <= n / c) by (apply Z.div_le_lower_bound; lia).
  pose proof (Z.mul_div_le n c Hpos). pose proof (Z.mod_pos_bound n c Hpos).
  pose proof (Z.div_mod n c ltac:(lia)).
  assert (c * 1 <= c * (n / c)) by (apply Z.mul_le_mono_nonneg_l; lia). lia.
Qed.

(** From one second on, the label is a number of units of whole seconds. *)
Lemma label_unit_exists (n : Z) :
  1 <= n ->
  exists (u : string) (c : Z),
    In (u, c) whole_units /\ c <= n /\
    secondsToHms (JS.of_Z n) = int_toString (Some (n / c)) +:+ u.
Proof.
  intros Hn.
  assert (Hin : forall c' : Z, In c' (map snd label_units) ->
                               c' = 31536000 \/ c' = 86400 \/ c' = 3600 \/ c' = 60 \/ c' = 1).
  { unfold label_units. simpl. intros c' H. lia. }
  destruct (Z_lt_le_dec n 60) as [L1 | L1].
  { exists "s", 1. split; [unfold whole_units; simpl; tauto | split; [lia |]].
    apply secondsToHms_unit; [unfold label_units; simpl; tauto | lia |].
    intros c' Hc'. apply Hin in Hc'. lia. }
  destruct (Z_lt_le_dec n 3600) as [L2 | L2].
  { exists "m", 60. split; [unfold whole_units; simpl; tauto | split; [lia |]].
    apply secondsToHms_unit; [unfold label_units; simpl; tauto | lia |].
    intros c' Hc'. apply Hin in Hc'. lia. }
  destruct (Z_lt_le_dec n 86400) as [L3 | L3].
  { exists "h", 3600. split; [unfold whole_units; simpl; tauto | split; [lia |]].
    apply secondsToHms_unit; [unfold label_units; simpl; tauto | lia |].
    intros c' Hc'. apply Hin in Hc'. lia. }
  destruct (Z_lt_le_dec n 31536000) as [L4 | L4].
  { exists "d", 86400. split; [unfold whole_units; simpl; tauto | split; [lia |]].
    apply secondsToHms_unit; [unfold label_units; simpl; tauto | lia |].
    intros c' Hc'. apply Hin in Hc'. lia. }
  exists "y", 31536000. split; [unfold whole_units; simpl; tauto | split; [lia |]].
  apply secondsToHms_unit; [unfold label_units; simpl; tauto | lia |].
  intros c' Hc'. apply Hin in Hc'. lia.
Qed.

(** X17: the label that [secondsToHms] gives for a whole number of
    seconds from one on is read back by [intervalToSeconds] and
    [intervalToMs] as a duration that is not above the number and is more
    than half of it. *)
Theorem secondsToHms_reads_back (n : Z) :
  safe_integer n -> 1 <= n ->
  exists k : Z,
    intervalToSeconds (secondsToHms (JS.of_Z n)) = Ok (JS.of_Z k) /\
    intervalToMs (secondsToHms (JS.of_Z n)) = Ok (JS.of_Z (1000 * k)) /\
    k <= n < 2 * k.
Proof.
  intros _ Hn.
  destruct (label_unit_exists n Hn) as (u & c & Hu & Hc & E).
  exists (c * (n / c)). now apply (label_reads_back n c u).
Qed.

Lemma secondsToHms_reads_back_witness :
  exists k : Z,
    intervalToSeconds (secondsToHms (JS.of_Z 5400)) = Ok (JS.of_Z k) /\
    intervalToMs (secondsToHms (JS.of_Z 5400)) = Ok (JS.of_Z (1000 * k)) /\
    k <= 5400 < 2 * k.
Proof.
  apply (secondsToHms_reads_back 5400); [unfold safe_integer; lia | lia].
Defined.

(** ** The label and the milliseconds of an interval *)

Lemma calculateIntervalValues_intervalMs (range : TimeRange.t) (resolution : number)
    (lowLimitInterval : option string) :
  calculateInterval range resolution lowLimitInterval
  = match calculateIntervalValues range resolution lowLimitInterval with
    | Ok values => Ok (IntervalValues.intervalMs values)
    | Throw e => Throw e
    end.
Proof.
  unfold calculateInterval, calculateIntervalValues.
  now destruct (lowLimitMs lowLimitInterval).
Qed.

(** The label of a rung is read back as the rung. *)
Lemma rung_label (v : Z) :
  In v ladder ->
  intervalToMs (secondsToHms (JS.div (JS.of_Z v) (JS.of_Z 1000))) = Ok (JS.of_Z v).
Proof.
  unfold ladder. simpl. intros H.
  repeat (destruct H as [<- | H]; [vm_compute; reflexivity |]). destruct H.
Qed.

Lemma div_1000 (a : Z) : JS.div (JS.of_Z (a * 1000)) (JS.of_Z 1000) = JS.of_Z a.
Proof.
  rewrite div_of_Z by lia. unfold JS.of_Z. f_equal. apply Qred_inject_Z.
  rewrite inject_Z_mult. field.
Qed.

(** X18: without a low limit the label of the interval names the
    interval: [intervalToMs] reads the [interval] that [calculateInterval]
    returns back as its [intervalMs], for every range and resolution; and
    so it does under a low limit whenever the rung is returned. *)
Theorem calculateInterval_label_exact (range : TimeRange.t) (resolution : number) :
  let rung :=
    JS.of_Z (roundInterval
               (JS.div (JS.of_Z (TimeRange.to range - TimeRange.from range)) resolution)) in
  (exists values : IntervalValues.t,
      calculateIntervalValues range resolution None = Ok values /\
      IntervalValues.intervalMs values = rung /\
      intervalToMs (IntervalValues.interval values) = Ok rung) /\
  (forall (lowLimitInterval : option string) (values : IntervalValues.t),
      calculateIntervalValues range resolution lowLimitInterval = Ok values ->
      IntervalValues.intervalMs values = rung ->
      intervalToMs (IntervalValues.interval values)
      = Ok (IntervalValues.intervalMs values)).
Proof.
  intros rung. subst rung.
  set (x := JS.div (JS.of_Z (TimeRange.to range - TimeRange.from range)) resolution).
  pose proof (roundInterval_in_ladder x) as Hin.
  pose proof (roundInterval_positive x) as Hpos.
  split.
  - unfold calculateIntervalValues. cbn [lowLimitMs]. fold x.
    rewrite gt_of_Z. destruct (Z.ltb_spec (roundInterval x) 1); [lia |].
    eexists. split; [reflexivity |].
    cbn [IntervalValues.intervalMs IntervalValues.interval].
    split; [reflexivity | now apply rung_label].
  - intros lowLimitInterval values. unfold calculateIntervalValues. fold x.
    destruct (lowLimitMs lowLimitInterval) as [low | e]; [| discriminate].
    intros [= <-]. cbn [IntervalValues.intervalMs IntervalValues.interval].
    intros ->. now apply rung_label.
Qed.

Lemma calculateInterval_label_exact_witness :
  intervalToMs
    (IntervalValues.interval
       {| IntervalValues.interval := "30s"; IntervalValues.intervalMs := JS.of_Z 30000 |})
  = Ok (JS.of_Z 30000).
Proof.
  apply (proj2 (calculateInterval_label_exact
                  (TimeRange.mk 0 3600000 (RawTimeRange.mk (Instant 0) (Instant 3600000)))
                  (JS.of_Z 100)) (Some "1s")).
  - vm_compute. reflexivity.
  - vm_compute. reflexivity.
Defined.

Lemma intervalToMs_whole (ds u : string) (c : Z) :
  run_of is_digit ds -> In (u, c) whole_units ->
  intervalToMs (ds +:+ u) = Ok (JS.of_Z (c * 1000 * dec_value ds)).
Proof.
  intros Hds Hu. destruct (whole_units_seconds u c Hu) as [Hp _].
  pose proof (describeInterval_unit false ds EmptyString u _ Hds (or_introl eq_refl) Hp) as HD.
  unfold sign_text in HD. rewrite !append_nil in HD. cbn [negate_if] in HD.
  unfold intervalToMs. rewrite HD. cbn [sec count].
  change (JS.Fin (inject_Z c)) with (JS.of_Z c). now rewrite !mul_of_Z.
Qed.

(** X19: under a low limit of whole units (digits and one of y, M, w, d,
    h, m, s) the label never overstates the interval and understates it by
    less than half: [intervalToMs] reads the [interval] back as a number of
    milliseconds that is not above [intervalMs] and is more than half of
    it. *)
Theorem calculateInterval_label_bounds (range : TimeRange.t) (resolution : number)
    (ds u : string) (c : Z) :
  run_of is_digit ds -> In (u, c) whole_units ->
  safe_integer (c * 1000 * dec_value ds) ->
  exists (values : IntervalValues.t) (q k : Z),
    calculateIntervalValues range resolution (Some (ds +:+ u)) = Ok values /\
    IntervalValues.intervalMs values = JS.of_Z q /\
    intervalToMs (IntervalValues.interval values) = Ok (JS.of_Z k) /\
    k <= q < 2 * k.
Proof.
  intros Hds Hu Hsafe.
  destruct (whole_units_seconds u c Hu) as [_ Hc].
  pose proof (radix_value_nonneg ds 0 (Z.le_refl 0)) as Hm. fold (dec_value ds) in Hm.
  destruct (run_of_cons _ _ Hds) as (d & ds' & E & _).
  unfold calculateIntervalValues.
  set (x := JS.div (JS.of_Z (TimeRange.to range - TimeRange.from range)) resolution).
  pose proof (roundInterval_in_ladder x) as Hin.
  pose proof (roundInterval_positive x) as Hpos.
  assert (HL : lowLimitMs (Some (ds +:+ u)) = Ok (JS.of_Z (c * 1000 * dec_value ds))).
  { rewrite <- (intervalToMs_whole ds u c Hds Hu). rewrite E, append_cons. reflexivity. }
  rewrite HL, gt_of_Z.
  destruct (Z.ltb_spec (roundInterval x) (c * 1000 * dec_value ds)) as [L | L].
  - replace (c * 1000 * dec_value ds) with (c * dec_value ds * 1000) in * by lia.
    destruct (label_unit_exists (c * dec_value ds)) as (u' & c' & Hu' & Hc' & E'); [lia |].
    destruct (label_reads_back _ c' u' Hu' Hc' E') as (_ & Hk & Hb).
    set (k := c' * (c * dec_value ds / c')) in *.
    eexists _, (c * dec_value ds * 1000), (1000 * k). split; [reflexivity |].
    cbn [IntervalValues.intervalMs IntervalValues.interval].
    rewrite div_1000. split; [reflexivity | split; [exact Hk | lia]].
  - eexists _, (roundInterval x), (roundInterval x). split; [reflexivity |].
    cbn [IntervalValues.intervalMs IntervalValues.interval].
    split; [reflexivity | split; [now apply rung_label | lia]].
Qed.

Lemma calculateInterval_label_bounds_witness :
  exists (values : IntervalValues.t) (q k : Z),
    calculateIntervalValues
      (TimeRange.mk 0 3600000 (RawTimeRange.mk (Instant 0) (Instant 3600000)))
      (JS.of_Z 100) (Some "90s") = Ok values /\
    IntervalValues.intervalMs values = JS.of_Z q /\
    intervalToMs (IntervalValues.interval values) = Ok (JS.of_Z k) /\
    k <= q < 2 * k.
Proof.
  apply (calculateInterval_label_bounds
           (TimeRange.mk 0 3600000 (RawTimeRange.mk (Instant 0) (Instant 3600000)))
           (JS.of_Z 100) "90" "s" 1).
  - split; [discriminate | reflexivity].
  - unfold whole_units. simpl. tauto.
  - unfold safe_integer. vm_compute. split; discriminate.
Defined.

(** ** The text of a range of milliseconds *)

Lemma nonempty_append (a b : string) : nonempty (a +:+ b) = nonempty a || nonempty b.
Proof. destruct a; [now rewrite append_nil | reflexivity]. Qed.

Lemma floor_div_div (n : Z) :
  Math_floor (JS.div (JS.div (JS.of_Z n) (JS.of_Z 60)) (JS.of_Z 60)) = Int (n / 3600).
Proof.
  rewrite (div_of_Z n 60) by lia. unfold JS.div, JS.of_Z.
  rewrite Qeq_bool_inject_Z. cbn [Z.eqb]. unfold Math_floor. f_equal.
  rewrite !Qred_correct, (Zdiv_Qdiv n 3600). apply Qfloor_comp.
  change (inject_Z 3600) with (inject_Z 60 * inject_Z 60)%Q. field.
Qed.

(** X20: a range of milliseconds is shown rounded to the nearest second,
    a half second going up, as its hours, minutes below sixty and seconds
    below sixty; the fields that are zero are left out, the others are
    separated by one space, and a range that rounds to zero seconds is
    "less than 1sec". *)
Theorem msRangeToTimeString_fields (rangeMs : Z) :
  0 <= rangeMs -> safe_integer rangeMs ->
  let rangeSec := (rangeMs + 500) / 1000 in
  let fields := time_fields (rangeSec / 3600) ((rangeSec / 60) mod 60) (rangeSec mod 60) in
  msRangeToTimeString (JS.of_Z rangeMs)
  = match fields with
    | [] => "less than 1sec"
    | _ => join " " fields
    end.
Proof.
  intros Hms _. cbv zeta.
  set (r := (rangeMs + 500) / 1000).
  assert (Hr : 0 <= r) by (apply Z.div_pos; lia).
  unfold msRangeToTimeString. rewrite (toFixed0_ms rangeMs Hms). fold r. cbv zeta.
  cbn [to_number]. rewrite floor_div_div, floor_div by lia.
  rewrite (rem_of_Z r 60) by lia. rewrite toFixed0_of_Z.
  cbn [integral_mul integral_sub integral_truthy integral_toString].
  assert (H3600 : r / 3600 = r / 60 / 60) by (now rewrite Z.div_div by lia).
  replace (r / 60 - r / 3600 * 60) with ((r / 60) mod 60)
    by (rewrite H3600, (Z.mod_eq (r / 60) 60) by lia; lia).
  unfold time_fields.
  destruct (r / 3600 =? 0)%Z, ((r / 60) mod 60 =? 0)%Z, (r mod 60 =? 0)%Z;
    cbn [negb app join];
    repeat (progress (rewrite ?append_nil, ?append_empty_r, ?append_assoc, ?nonempty_append,
                        ?orb_true_r;
                      cbn [nonempty is_empty negb andb orb]));
    reflexivity.
Qed.

Lemma msRangeToTimeString_fields_witness :
  msRangeToTimeString (JS.of_Z 3605499)
  = match time_fields (3605 / 3600) ((3605 / 60) mod 60) (3605 mod 60) with
    | [] => "less than 1sec"
    | _ => join " " (time_fields (3605 / 3600) ((3605 / 60) mod 60) (3605 mod 60))
    end.
Proof.
  apply (msRangeToTimeString_fields 3605499); [lia | unfold safe_integer; lia].
Defined.

(** ** Searching a text *)

Lemma prefix_iff (n h : string) : String.prefix n h = true <-> exists suf, h = n +:+ suf.
Proof.
  revert h. induction n as [| a n IH]; intros h.
  - split; [intros _; exists h; now rewrite append_nil | intros _; now destruct h].
  - destruct h as [| b h]; cbn [String.prefix].
    + split; [discriminate | intros [suf H]; rewrite append_cons in H; discriminate].
    + destruct (ascii_dec a b) as [<- | Hab].
      * rewrite IH. split; intros [suf H]; exists suf.
        -- now rewrite append_cons, H.
        -- rewrite append_cons in H. now injection H.
      * split; [discriminate |].
        intros [suf H]. rewrite append_cons in H. injection H as H1 _. congruence.
Qed.

Lemma occurs_cons (n : string) (c : ascii) (h : string) :
  String.prefix n (String c h) = false -> (occurs n (String c h) <-> occurs n h).
Proof.
  intros Hp. split.
  - intros ([| c' pre] & suf & H).
    + rewrite append_nil in H.
      assert (String.prefix n (String c h) = true) by (apply prefix_iff; now exists suf).
      congruence.
    + rewrite append_cons in H. injection H as _ H. now exists pre, suf.
  - intros (pre & suf & H). exists (String c pre), suf. now rewrite append_cons, H.
Qed.

Lemma indexOf_from_occurs (i : Z) (n h : string) :
  0 <= i -> (indexOf_from i n h <> -1 <-> occurs n h).
Proof.
  revert i. induction h as [| c h IH]; intros i Hi; cbn [indexOf_from].
  - destruct n as [| a n]; cbn [String.prefix].
    + split; [intros _; now exists EmptyString, EmptyString | lia].
    + split; [congruence |]. intros ([| c' pre] & suf & H).
      * rewrite append_nil, append_cons in H. discriminate.
      * rewrite append_cons in H. discriminate.
  - destruct (String.prefix n (String c h)) eqn:Hp.
    + split; [| lia]. intros _.
      apply prefix_iff in Hp. destruct Hp as [suf Hp].
      exists EmptyString, suf. now rewrite append_nil.
    + rewrite (occurs_cons n c h Hp). apply IH. lia.
Qed.

Lemma indexOf_occurs (hay needle : string) :
  (0 <=? indexOf hay needle)%Z = true <-> occurs needle hay.
Proof.
  unfold indexOf. rewrite <- (indexOf_from_occurs 0 needle hay (Z.le_refl 0)).
  rewrite Z.leb_le. destruct (indexOf_from_range 0 needle hay); lia.
Qed.

Lemma indexOf_positive (hay needle : string) :
  (0 <? indexOf hay needle)%Z = true <->
  exists (c : ascii) (tl : string),
    hay = String c tl /\ String.prefix needle hay = false /\ occurs needle tl.
Proof.
  unfold indexOf. rewrite Z.ltb_lt. destruct hay as [| c tl]; cbn [indexOf_from].
  - split; [destruct (String.prefix needle EmptyString); lia |].
    intros (c & tl & H & _). discriminate.
  - destruct (String.prefix needle (String c tl)) eqn:Hp.
    + split; [lia |]. intros (c' & tl' & _ & H & _). discriminate.
    + pose proof (indexOf_from_occurs (0 + 1) needle tl ltac:(lia)) as Ho.
      split.
      * intros H. exists c, tl. split; [reflexivity | split; [reflexivity |]].
        apply Ho. lia.
      * intros (c' & tl' & [= <- <-] & _ & H). apply Ho in H.
        destruct (indexOf_from_range (0 + 1) needle tl); lia.
Qed.

(** X21: a raw range is relative when one of its sides is a text in which
    "now" occurs, and a range is fiscal when one of the sides of its raw
    range is a text that does not start with "f" and in which an "f" occurs
    after the first character: an "f" at the start does not count and hides
    the ones after it. *)
Theorem relative_fiscal_sides (timeRange : TimeRange.t) :
  (isRelativeTimeRange (TimeRange.raw timeRange) = true <->
   exists s : string, text_side (TimeRange.raw timeRange) s /\ occurs "now" s) /\
  (isFiscal timeRange = true <->
   exists (c : ascii) (tl : string),
     text_side (TimeRange.raw timeRange) (String c tl) /\ c <> "f"%char /\ occurs "f" tl).
Proof.
  assert (Hf : forall s, (0 <? indexOf s "f")%Z = true <->
                         exists c tl, s = String c tl /\ c <> "f"%char /\ occurs "f" tl).
  { intros s. rewrite indexOf_positive. split.
    - intros (c & tl & -> & Hp & Ho). exists c, tl. split; [reflexivity | split; [| exact Ho]].
      intros ->. cbn [String.prefix] in Hp. destruct (ascii_dec "f" "f"); [| congruence].
      destruct tl; discriminate.
    - intros (c & tl & -> & Hc & Ho). exists c, tl. split; [reflexivity | split; [| exact Ho]].
      cbn [String.prefix]. destruct (ascii_dec "f" c); [congruence | reflexivity]. }
  unfold isRelativeTimeRange, isFiscal, isRelativeTime, text_side.
  destruct timeRange as [from to [rfrom rto]].
  cbn [TimeRange.raw RawTimeRange.from RawTimeRange.to].
  split.
  - rewrite orb_true_iff. split.
    + intros [H | H].
      * destruct rfrom as [d | s]; [discriminate |]. apply indexOf_occurs in H. eauto.
      * destruct rto as [d | s]; [discriminate |]. apply indexOf_occurs in H. eauto.
    + intros (s & [-> | ->] & Ho); apply indexOf_occurs in Ho; auto.
  - split.
    + intros H.
      destruct rfrom as [d1 | s1].
      * destruct rto as [d2 | s2]; [discriminate |].
        destruct (0 <? indexOf s2 "f")%Z eqn:E; [| discriminate].
        apply Hf in E. destruct E as (c & tl & -> & Hc & Ho). eauto 6.
      * destruct (0 <? indexOf s1 "f")%Z eqn:E.
        -- apply Hf in E. destruct E as (c & tl & -> & Hc & Ho). eauto 6.
        -- destruct rto as [d2 | s2]; [discriminate |].
           destruct (0 <? indexOf s2 "f")%Z eqn:E2; [| discriminate].
           apply Hf in E2. destruct E2 as (c & tl & -> & Hc & Ho). eauto 6.
    + intros (c & tl & [-> | ->] & Hc & Ho).
      * assert (E : (0 <? indexOf (String c tl) "f")%Z = true) by (apply Hf; eauto).
        now rewrite E.
      * assert (E : (0 <? indexOf (String c tl) "f")%Z = true) by (apply Hf; eauto).
        rewrite E. now destruct rfrom as [d | s]; [| destruct (0 <? indexOf s "f")%Z].
Qed.

Lemma relative_fiscal_sides_witness :
  isFiscal (TimeRange.mk 0 9 (RawTimeRange.mk (Text "now/fy") (Instant 9))) = true.
Proof.
  apply (proj2 (relative_fiscal_sides
                  (TimeRange.mk 0 9 (RawTimeRange.mk (Text "now/fy") (Instant 9))))).
  exists "n"%char, "ow/fy". split; [now left | split; [discriminate |]].
  exists "ow/", "y". reflexivity.
Defined.

(** ** The index of the frames *)

(** X22: the index holds every frame of the two tables under its key,
    "from to to", and nothing else: no frame is overwritten by another. *)
Theorem rangeIndex_frames (key : string) (o : TimeOption.t) :
  rangeIndex !! key = Some o <-> In o presets /\ frame_key o = key.
Proof.
  split.
  - apply rangeIndex_lookup.
  - intros [H <-]. now apply rangeIndex_presets.
Qed.

Lemma rangeIndex_frames_witness :
  rangeIndex !! "now to now+30m" = Some (frame "now" "now+30m" "Next 30 minutes").
Proof.
  apply (proj2 (rangeIndex_frames "now to now+30m" (frame "now" "now+30m" "Next 30 minutes"))).
  split; [| reflexivity].
  unfold presets. apply in_or_app. right. simpl. tauto.
Defined.

(** ** The two ends of a described range *)

Lemma rangeOptions_no_plus (o : TimeOption.t) :
  In o rangeOptions -> String.prefix "+" (TimeOption.from o) = false.
Proof.
  intros H.
  assert (Hall : forallb (fun o => negb (String.prefix "+" (TimeOption.from o)))
                   rangeOptions = true) by (vm_compute; reflexivity).
  rewrite forallb_forall in Hall. apply Hall in H. now apply negb_true_iff in H.
Qed.

(** X23: one end of the range that [describeTextRange] returns is always
    "now" and the other is the expression, with "now-" or "now" put in
    front when it lacks "now": the range ends at "now" unless the
    expression starts with "+", and then it starts at "now". *)
Theorem describeTextRange_ends (expr : string) :
  let o := describeTextRange expr in
  if String.prefix "+" expr
  then TimeOption.from o = "now" /\ TimeOption.to o = normalized expr
  else TimeOption.from o = normalized expr /\ TimeOption.to o = "now".
Proof.
  cbv zeta.
  assert (HL : isLast expr = negb (String.prefix "+" expr)).
  { unfold isLast. now rewrite indexOf_zero. }
  destruct (rangeIndex !! (normalized expr +:+ " to now")) as [o |] eqn:E.
  - rewrite (describeTextRange_hit expr o E).
    apply rangeIndex_to_now in E. destruct E as (Hin & Hfrom & Hto).
    destruct (String.prefix "+" expr) eqn:Hp; [| now split].
    exfalso. apply prefix_iff in Hp. destruct Hp as [e' ->].
    pose proof (rangeOptions_no_plus o Hin) as Hno.
    unfold normalized in Hfrom.
    destruct (indexOf ("+" +:+ e') "now" =? -1)%Z.
    + rewrite indexOf_zero, prefix_append in Hfrom. cbn [negb] in Hfrom.
      assert (Hn : String.prefix "now+" (TimeOption.from o) = true).
      { rewrite Hfrom. apply prefix_iff. exists e'. reflexivity. }
      assert (Hall : forallb (fun o => negb (String.prefix "now+" (TimeOption.from o)))
                       rangeOptions = true) by (vm_compute; reflexivity).
      rewrite forallb_forall in Hall. apply Hall in Hin. now rewrite Hn in Hin.
    + now rewrite Hfrom, prefix_append in Hno.
  - destruct (describeTextRange_miss expr E) as (Hfrom & Hto & _).
    rewrite Hfrom, Hto, HL.
    destruct (String.prefix "+" expr); cbn [negb candidate TimeOption.from TimeOption.to];
      split; reflexivity.
Qed.

(** ** The strings that are not intervals *)

(** X24: [describeInterval] raises exactly on the strings that [Number]
    reads as zero or as NaN and that hold no digits followed by a unit;
    the message is the same in every case, and [intervalToSeconds] and
    [intervalToMs] raise it on the same strings and on no others. *)
Theorem describeInterval_raises_iff (str : string) :
  ((exists e, describeInterval str = Throw e) <->
   JS.truthy (Number str) = false /\ ~ holds_interval str) /\
  (forall e, describeInterval str = Throw e -> e = invalid_interval_message) /\
  (forall e, describeInterval str = Throw e <-> intervalToSeconds str = Throw e) /\
  (forall e, describeInterval str = Throw e <-> intervalToMs str = Throw e).
Proof.
  split; [apply describeInterval_raises |].
  split; [intros e H; now apply describeInterval_message in H |].
  unfold intervalToSeconds, intervalToMs.
  split; intros e; destruct (describeInterval str) as [info | e'];
    split; intros H; congruence.
Qed.

Lemma describeInterval_raises_iff_witness :
  exists e, describeInterval "soon" = Throw e.
Proof.
  apply (proj2 (proj1 (describeInterval_raises_iff "soon"))).
  split; [vm_compute; reflexivity |].
  intros (pre & ip & frac & c & suf & Hip & _ & Hc & H).
  destruct (run_of_cons _ _ Hip) as (d & ip' & -> & Hd & _).
  assert (Hall : forall s, all_cls (fun x => negb (is_digit x)) s = true ->
                           forall before after, s <> before +:+ String d after).
  { intros s. induction s as [| x s IH]; intros Hs [| b before] after E;
      rewrite ?append_nil, ?append_cons in E; try discriminate.
    - injection E as -> _. cbn [all_cls] in Hs. now rewrite Hd in Hs.
    - injection E as _ E. cbn [all_cls] in Hs. apply andb_true_iff in Hs.
      now apply (IH (proj2 Hs) before after). }
  apply (Hall "soon" eq_refl pre (ip' +:+ frac +:+ String c suf)).
  now rewrite H, !append_cons.
Defined.
